(** * openseize: streaming numerical core (core/numerical.py)

    A shallow embedding of the chunked algorithms of [core/numerical.py]:
    overlap-add convolution, second-order-section filtering, the chunk
    size computation of the polyphase resampler and the FIFO driven
    spectral estimators (Welch, STFT).

    Modelling decisions.
    - An ndarray is followed along its designated [axis] only: a signal is
      one lane of samples, a [list].  The numpy calls of the module act
      lane by lane along [axis], so one lane carries the chunk logic.
      Two lines do not: the product with the transformed kernel in
      [oaconvolve] and the crop in [modified_dft] run along the last
      axis whatever [axis] is.  What is proved about the values of the
      overlap-add segments is therefore stated for a producer whose
      sample axis is the last one.
    - Samples of the convolution engine are exact numbers ([Z]); numpy's
      [ifft(fft(x, n) * fft(h, n)).real] is the circular convolution of
      period [n], which is what [circ_conv] computes.  Rounding of the
      floating point transform is outside the embedding.
    - The IIR filter and the periodogram are stated over an abstract
      number type with abstract operations, so nothing depends on how the
      arithmetic rounds.
    - Python [int] is [Z]; a Python slice keeps its negative-index and
      clamping rules ([py_slice]); a fraction such as [overlap] is a
      rational ([Q]) and [int(...)] truncates.
    - Where the rounding of [nfft * overlap] decides the outcome, the
      stride and the segment count of Welch's method, [overlap] is a
      binary64 number and every operation rounds as IEEE 754 asks
      ([stride64], [declared_nsegs64], [welch64]).
    - A generator is a resumable frame: [Created] (body not entered),
      [Suspended] at its [yield] with its locals, [Closed].  One [next]
      call is one step that reports the chunk it pulled from its input
      and the event it ended with.
    - The decorator [as_producer] and the factory [producer] re-chunk what
      a generator yields without changing the concatenation; the
      generator bodies are what is embedded. *)

From Stdlib Require Import String.
From Stdlib Require Import ZArith List Bool Lia QArith Qround.
From Stdlib Require Import SpecFloat.
Import ListNotations.
Close Scope Q_scope.
Open Scope Z_scope.

(* ================================================================= *)
(** ** Python values: exceptions, slices, integer helpers *)

Inductive exn : Type :=
| ValueError
| UnboundLocalError
| ZeroDivisionError.

Inductive result (A : Type) : Type :=
| Ok (a : A)
| Err (e : exn).
Arguments Ok {A} a.
Arguments Err {A} e.

(** Resolution of one bound of a slice against a length [n]: a negative
    index counts from the end, then the index is clamped to [0..n]. *)
Definition slice_index (n i : Z) : Z :=
  let j := if i <? 0 then i + n else i in
  Z.max 0 (Z.min n j).

(** [l[start:stop]] ; [None] is an omitted bound. *)
Definition py_slice {A : Type} (start stop : option Z) (l : list A) : list A :=
  let n := Z.of_nat (length l) in
  let a := match start with None => 0 | Some i => slice_index n i end in
  let b := match stop with None => n | Some j => slice_index n j end in
  firstn (Z.to_nat (b - a)) (skipn (Z.to_nat a) l).

(** Modelled from the spec: [slice_along_axis(arr, start, stop, axis)]
    (openseize.core.arraytools) is not among the sources; at its call
    sites it stands for [arr[start:stop]] taken along [axis]. *)
Definition slice_along_axis {A : Type} (arr : list A) (start stop : Z) : list A :=
  py_slice (Some start) (Some stop) arr.

(** [int(np.ceil(a / b))] for integers [a], [b]. *)
Definition ceil_div (a b : Z) : Z := - ((- a) / b).

(** [int(q)] of a Python float: truncation toward zero. *)
Definition py_int (q : Q) : Z := Z.quot (Qnum q) (Z.pos (Qden q)).

Definition zlen {A : Type} (l : list A) : Z := Z.of_nat (length l).

(* ================================================================= *)
(** ** Producer *)

(** Modelled from the spec: the [Producer] class (openseize.core.producer)
    is not among the sources.  Spec, data model: a logical sequence along
    one designated axis, exposed only through finite chunks of length
    [chunksize] (except a final shorter chunk); attributes [shape],
    [axis], mutable [chunksize].  [data] is the logical sequence along
    [axis]. *)
Record Producer (A : Type) : Type := mkProducer {
  data : list A;
  axis : Z;
  chunksize : Z
}.
Arguments mkProducer {A} data axis chunksize.
Arguments data {A} p.
Arguments axis {A} p.
Arguments chunksize {A} p.

(** Modelled from the spec: [pro.shape[axis]], the full logical extent
    along the axis. *)
Definition shape {A : Type} (pro : Producer A) : Z := zlen (data pro).

(** Modelled from the spec: the assignment [pro.chunksize = c] to the
    mutable attribute; nothing else of the producer changes. *)
Definition set_chunksize {A : Type} (pro : Producer A) (c : Z) : Producer A :=
  mkProducer (data pro) (axis pro) c.

(** Modelled from the spec: what an iterator over a producer answers to
    one request: a chunk and the new position, exhaustion, or a failure. *)
Inductive pulled (A : Type) : Type :=
| Chunk (c : list A) (pos' : nat)
| Exhausted
| Failed (e : exn).
Arguments Chunk {A} c pos'.
Arguments Exhausted {A}.
Arguments Failed {A} e.

(** Modelled from the spec: one request to an iterator standing at sample
    [pos].  Spec 4.1: chunks of length [chunksize] except a final shorter
    one; a chunksize applies to chunks requested after it was set; a
    non-positive chunksize is reported. *)
Definition producer_next {A : Type} (pro : Producer A) (pos : nat) : pulled A :=
  if (length (data pro) <=? pos)%nat then Exhausted
  else if chunksize pro <=? 0 then Failed ValueError
  else let c := firstn (Z.to_nat (chunksize pro)) (skipn pos (data pro)) in
       Chunk c (pos + length c).

(** Modelled from the spec: the chunks an iteration from [pos] issues at
    the producer's current chunksize; [fuel] bounds the number of
    requests. *)
Fixpoint chunks_from {A : Type} (fuel : nat) (pro : Producer A) (pos : nat)
  : result (list (list A)) :=
  match fuel with
  | O => Ok []
  | S fuel' =>
      match producer_next pro pos with
      | Chunk c pos' =>
          match chunks_from fuel' pro pos' with
          | Ok cs => Ok (c :: cs)
          | Err e => Err e
          end
      | Exhausted => Ok []
      | Failed e => Err e
      end
  end.

(** Modelled from the spec: [[x for x in pro]], the lazy finite sequence
    of chunks.  Every chunk takes at least one sample, so
    [length (data pro)] requests reach the end. *)
Definition iterate {A : Type} (pro : Producer A) : result (list (list A)) :=
  chunks_from (length (data pro)) pro 0.

(** Modelled from the spec: [pad_producer(pro, [lead, trail], value)]
    (openseize.core.producer) is not among the sources.  Spec, data model:
    a padded producer logically prepends/appends constant-valued samples. *)
Definition pad_producer {A : Type} (pro : Producer A) (lead trail : Z) (value : A)
  : Producer A :=
  mkProducer (repeat value (Z.to_nat lead) ++ data pro ++ repeat value (Z.to_nat trail))
             (axis pro) (chunksize pro).

(** Modelled from the spec: [FIFOArray] (openseize.core.queues) is not
    among the sources.  Spec 4.2: [put] appends the chunk's samples,
    [get] removes and returns exactly [chunksize] samples from the front
    and fails if fewer are buffered, [qsize] is the buffered count. *)
Record FIFOArray (A : Type) : Type := mkFIFO {
  queue : list A;
  fifo_chunksize : Z
}.
Arguments mkFIFO {A} queue fifo_chunksize.
Arguments queue {A} f.
Arguments fifo_chunksize {A} f.

(** Modelled from the spec: [fifo.qsize()], the buffered sample count. *)
Definition qsize {A : Type} (fifo : FIFOArray A) : Z := zlen (queue fifo).

(** Modelled from the spec: [fifo.put(chunk)] appends the samples. *)
Definition fifo_put {A : Type} (fifo : FIFOArray A) (chunk : list A) : FIFOArray A :=
  mkFIFO (queue fifo ++ chunk) (fifo_chunksize fifo).

(** Modelled from the spec: [fifo.get()] removes and returns exactly
    [chunksize] samples from the front and fails if fewer are buffered. *)
Definition fifo_get {A : Type} (fifo : FIFOArray A) : result (list A * FIFOArray A) :=
  if qsize fifo <? fifo_chunksize fifo then Err ValueError
  else
    let k := Z.to_nat (fifo_chunksize fifo) in
    Ok (firstn k (queue fifo), mkFIFO (skipn k (queue fifo)) (fifo_chunksize fifo)).

(* ================================================================= *)
(** ** Overlap-add convolution *)

(** [optimal_nffts(arr)]: [int(8 * 2 ** np.ceil(np.log2(len(arr))))].
    For an empty window numpy's [log2(0)] is [-inf] and the result is
    [int(0.0)]. *)
Definition optimal_nffts (win : list Z) : Z :=
  if zlen win <=? 0 then 0 else 8 * 2 ^ Z.log2_up (zlen win).

(** [convolve_slicer(arr, shape1, shape2, mode, axis)], with [m] and [n]
    the two lengths along [axis]. *)
Definition convolve_slicer (arr : list Z) (m n : Z) (mode : string) : option (list Z) :=
  let p := Z.max m n in
  let q := Z.min m n in
  if String.eqb mode "full" then Some arr
  else if String.eqb mode "same" then
    let start := (q - 1) / 2 in
    let stop := start + p in
    Some (slice_along_axis arr start stop)
  else if String.eqb mode "valid" then
    let start := q - 1 in
    let stop := (n + m - 1) - (q - 1) in
    Some (slice_along_axis arr start stop)
  else None.

(** [_oa_mode(segment, idx, win_len, axis, mode)] *)
Definition _oa_mode (segment : list Z) (idx win_len : Z) (mode : string)
  : result (list Z) :=
  if negb (String.eqb mode "full" || String.eqb mode "same" || String.eqb mode "valid")
  then Err ValueError
  else
    let ns := zlen segment in
    let cuts : (option Z * option Z) * (option Z * option Z) :=
      if String.eqb mode "full" then ((None, None), (None, None))
      else if String.eqb mode "same" then
        ((Some ((win_len - 1) / 2), None), (None, Some (ns - ((win_len - 1) / 2))))
      else
        ((Some (win_len - 1), None), (None, Some (ns - win_len + 1))) in
    let cut := if 0 <? idx then snd cuts else fst cuts in
    Ok (py_slice (fst cut) (snd cut) segment).

(** [fft(x, n)] crops or zero-pads its argument to [n] points. *)
Definition fit (n : nat) (x : list Z) : list Z :=
  firstn n x ++ repeat 0 (n - length x).

(** The sum of a list of samples. *)
Definition zsum (l : list Z) : Z := fold_right (fun x acc => x + acc) 0 l.

(** [ifft(fft(x, n) * fft(h, n)).real]: circular convolution of period [n]. *)
Definition circ_conv (n : nat) (x h : list Z) : list Z :=
  let xn := fit n x in
  let hn := fit n h in
  map (fun k =>
         zsum (map (fun j => nth j xn 0 * nth ((k + n - j) mod n)%nat hn 0)
                   (seq 0 n)))
      (seq 0 n).

(** Modelled from the spec: [pad_along_axis(arr, [0, amt], axis)]
    (openseize.core.arraytools) is not among the sources.  Spec 4.3: the
    incoming block is zero-padded by [M - 1] samples. *)
Definition pad_right (arr : list Z) (amt : Z) : list Z :=
  arr ++ repeat 0 (Z.to_nat amt).

(** [y[0:k] += overlap], the in-place add on the leading samples. *)
Fixpoint add_prefix (overlap y : list Z) : list Z :=
  match overlap, y with
  | o :: overlap', v :: y' => (v + o) :: add_prefix overlap' y'
  | _, _ => y
  end.

(** The locals of a suspended [oaconvolve] generator. *)
Record oa_frame : Type := mkFrame {
  isize : Z;
  it_pos : nat;
  segment_num : Z;
  overlap : list Z;
  new_overlap : option (list Z)
}.

Inductive oa_gen : Type :=
| Created
| Suspended (f : oa_frame)
| Closed.

Inductive event : Type :=
| Yield (y : list Z)
| Stop
| Raise (e : exn).

(** The outcome of one [next] call: the producer as the call leaves it,
    the generator, the input chunk the call pulled (if any) and how the
    call ended. *)
Record step : Type := mkStep {
  st_pro : Producer Z;
  st_gen : oa_gen;
  st_pulled : option (list Z);
  st_event : event
}.

Definition oa_L (win : list Z) : Z := optimal_nffts win - zlen win + 1.

Definition oa_nsegments (pro : Producer Z) (win : list Z) : Z :=
  ceil_div (shape pro) (oa_L win).

(** One turn of [for segment_num, subarr in enumerate(pro)] up to its
    [yield], or the code after the loop when the input is exhausted.
    [circ_conv] is [fft.ifft(fft.fft(x, nfft, axis=axis) * H, axis=axis).real]
    on one lane; the product with [H] runs along the samples when [axis]
    is the last axis. *)
Definition oa_iterate (pro : Producer Z) (win : list Z) (mode : string)
  (f : oa_frame) : step :=
  let nfft := optimal_nffts win in
  let M := zlen win in
  let L := oa_L win in
  let nsegments := oa_nsegments pro win in
  match producer_next pro (it_pos f) with
  | Exhausted => mkStep (set_chunksize pro (isize f)) Closed None Stop
  | Failed e => mkStep pro Closed None (Raise e)
  | Chunk subarr pos' =>
      let x := pad_right subarr (M - 1) in
      let y := circ_conv (Z.to_nat nfft) x win in
      let '(y, new_ov) :=
        if segment_num f <? nsegments - 1
        then (firstn (Z.to_nat L) y, Some (skipn (Z.to_nat L) y))
        else (slice_along_axis y 0 (zlen subarr + M - 1), new_overlap f) in
      let y := add_prefix (overlap f) y in
      match new_ov with
      | None => mkStep pro Closed (Some subarr) (Raise UnboundLocalError)
      | Some ov =>
          let f' := mkFrame (isize f) pos' (segment_num f + 1) ov new_ov in
          if (segment_num f =? 0) || (segment_num f =? nsegments - 1) then
            match _oa_mode y (segment_num f) M mode with
            | Err e => mkStep pro Closed (Some subarr) (Raise e)
            | Ok y' => mkStep pro (Suspended f') (Some subarr) (Yield y')
            end
          else mkStep pro (Suspended f') (Some subarr) (Yield y)
      end
  end.

(** [next(g)] for [g = oaconvolve(pro, win, axis, mode)].  The first call
    runs the body from its top: [fft.fft(win, nfft)] refuses [nfft < 1],
    and [pro.shape[axis] / L] a zero [L]. *)
Definition oa_next (pro : Producer Z) (win : list Z) (mode : string)
  (g : oa_gen) : step :=
  match g with
  | Closed => mkStep pro Closed None Stop
  | Suspended f => oa_iterate pro win mode f
  | Created =>
      let isz := chunksize pro in
      let nfft := optimal_nffts win in
      let M := zlen win in
      if nfft <? 1 then mkStep pro Closed None (Raise ValueError)
      else
        let L := oa_L win in
        if L =? 0 then mkStep pro Closed None (Raise ZeroDivisionError)
        else
          let overlap0 := repeat 0 (Z.to_nat (M - 1)) in
          oa_iterate (set_chunksize pro L) win mode
                     (mkFrame isz 0 0 overlap0 None)
  end.

(** [k] successive [next] calls; the yielded segments in order. *)
Fixpoint oa_take (k : nat) (pro : Producer Z) (win : list Z) (mode : string)
  (g : oa_gen) : Producer Z * oa_gen * list (list Z) :=
  match k with
  | O => (pro, g, [])
  | S k' =>
      let s := oa_next pro win mode g in
      match st_event s with
      | Yield y =>
          let '(p, g', ys) := oa_take k' (st_pro s) win mode (st_gen s) in
          (p, g', y :: ys)
      | _ => (st_pro s, st_gen s, [])
      end
  end.

(** How a consumer's [for y in oaconvolve(...)] ends. *)
Inductive run : Type :=
| Completed (pro : Producer Z) (ys : list (list Z))
| Crashed (pro : Producer Z) (ys : list (list Z)) (e : exn)
| OutOfFuel.

Fixpoint oa_run (fuel : nat) (pro : Producer Z) (win : list Z) (mode : string)
  (g : oa_gen) : run :=
  match fuel with
  | O => OutOfFuel
  | S fuel' =>
      let s := oa_next pro win mode g in
      match st_event s with
      | Stop => Completed (st_pro s) []
      | Raise e => Crashed (st_pro s) [] e
      | Yield y =>
          match oa_run fuel' (st_pro s) win mode (st_gen s) with
          | Completed p ys => Completed p (y :: ys)
          | Crashed p ys e => Crashed p (y :: ys) e
          | OutOfFuel => OutOfFuel
          end
      end
  end.

(** Iteration of [oaconvolve(pro, win, axis, mode)] to its end.  Every
    [next] consumes at least one sample, so [length + 1] calls suffice. *)
Definition oaconvolve (pro : Producer Z) (win : list Z) (mode : string) : run :=
  oa_run (S (length (data pro))) pro win mode Created.

(** Discrete convolution of a whole signal, the reference of the modes:
    [np.convolve(a, v, 'full')[k] = sum_j a[j] * v[k - j]]. *)
Definition conv_at (a v : list Z) (k : nat) : Z :=
  zsum (map (fun j => if (j <=? k)%nat then nth j a 0 * nth (k - j) v 0 else 0)
            (seq 0 (length a))).

Definition convolve_full (a v : list Z) : list Z :=
  map (conv_at a v) (seq 0 (length a + length v - 1)).

(** [np.convolve(a, v, mode)] through the module's own [convolve_slicer]. *)
Definition convolve (a v : list Z) (mode : string) : option (list Z) :=
  convolve_slicer (convolve_full a v) (zlen a) (zlen v) mode.

Definition out_len (r : run) : option Z :=
  match r with
  | Completed _ ys => Some (zlen (concat ys))
  | _ => None
  end.

(** What every state reached from [Created] satisfies: while the
    generator is suspended the producer's chunksize is the block stride
    and the caller's chunksize lives in the frame only. *)
Definition oa_inv (pro0 : Producer Z) (win : list Z) (pro : Producer Z)
  (g : oa_gen) : Prop :=
  match g with
  | Created => pro = pro0
  | Suspended f => pro = set_chunksize pro0 (oa_L win) /\ isize f = chunksize pro0
  | Closed => True
  end.

(** The [i]-th block of [L] samples of a signal, and the overlap a
    block leaves behind: the [M - 1] values of its convolution past [L]. *)
Definition oa_block (a : list Z) (L i : nat) : list Z :=
  firstn L (skipn (i * L) a).

Definition oa_tail (b win : list Z) (L : nat) : list Z :=
  map (conv_at b win) (seq L (length win - 1)).

(** The frame of the generator suspended after its segment [i - 1],
    [i >= 1], when every block so far was a full one. *)
Definition oa_frame_at (pro : Producer Z) (win : list Z) (i : nat) : oa_frame :=
  let L := Z.to_nat (oa_L win) in
  let ov := oa_tail (oa_block (data pro) L (i - 1)) win L in
  mkFrame (chunksize pro) (i * L) (Z.of_nat i) ov (Some ov).

(** The samples [_oa_mode] cuts from the front of the first segment and
    from the back of the last one. *)
Definition mode_trim (mode : string) (M : Z) : Z :=
  if String.eqb mode "full" then 0
  else if String.eqb mode "same" then (M - 1) / 2
  else M - 1.

(* ================================================================= *)
(** ** Second-order-section filtering *)

Section SOS.
(** The samples and their arithmetic are left abstract: whatever the
    operations compute (rounded or exact), the filter applies them in
    the same order sample after sample. *)
Variable R : Type.
Variable rzero : R.
Variables radd rsub rmul : R -> R -> R.

(** One row [b0, b1, b2, a0, a1, a2] of the [sos] array. *)
Record sos_row : Type := mkRow {
  b0 : R; b1 : R; b2 : R; a0 : R; a1 : R; a2 : R
}.

(** One sample through the cascade, as [scipy.signal.sosfilt] (direct
    form II transposed) does for a valid [sos] and a [zi] with one
    state pair per section:
      x_new    = b0 * x_cur + z[s,0]
      z[s,0]   = b1 * x_cur - a1 * x_new + z[s,1]
      z[s,1]   = b2 * x_cur - a2 * x_new *)
Fixpoint sos_sample (sos : list sos_row) (z : list (R * R)) (x_cur : R)
  : R * list (R * R) :=
  match sos, z with
  | s :: sos', (z0, z1) :: z' =>
      let x_new := radd (rmul (b0 s) x_cur) z0 in
      let z0' := radd (rsub (rmul (b1 s) x_cur) (rmul (a1 s) x_new)) z1 in
      let z1' := rsub (rmul (b2 s) x_cur) (rmul (a2 s) x_new) in
      let '(y, zs) := sos_sample sos' z' x_new in
      (y, (z0', z1') :: zs)
  | _, _ => (x_cur, z)
  end.

(** [sps.sosfilt(sos, x, axis, zi=z)]: filtered samples and final state. *)
Fixpoint sps_sosfilt (sos : list sos_row) (x : list R) (z : list (R * R))
  : list R * list (R * R) :=
  match x with
  | [] => ([], z)
  | x0 :: x' =>
      let '(y0, z') := sos_sample sos z x0 in
      let '(ys, zf) := sps_sosfilt sos x' z' in
      (y0 :: ys, zf)
  end.

(** The loop [for idx, subarr in enumerate(pro): y, z = ...; yield y]. *)
Fixpoint sosfilt_loop (sos : list sos_row) (z : list (R * R))
  (subarrs : list (list R)) : list (list R) :=
  match subarrs with
  | [] => []
  | subarr :: rest =>
      let '(y, z') := sps_sosfilt sos subarr z in
      y :: sosfilt_loop sos z' rest
  end.

(** [np.zeros((sos.shape[0], *shape))] with [shape[axis] = 2]. *)
Definition sos_zeros (sos : list sos_row) : list (R * R) :=
  map (fun _ => (rzero, rzero)) sos.

(** [sosfilt(pro, sos, chunksize, axis, zi)]: the arrays it yields.  The
    [chunksize] argument is not read by the body. *)
Definition sosfilt (pro : Producer R) (sos : list sos_row) (chunksize : Z)
  (zi : option (list (R * R))) : result (list (list R)) :=
  let z := match zi with None => sos_zeros sos | Some zi' => zi' end in
  match iterate pro with
  | Err e => Err e
  | Ok subarrs => Ok (sosfilt_loop sos z subarrs)
  end.
End SOS.

Arguments mkRow {R} b0 b1 b2 a0 a1 a2.
Arguments sos_sample {R} radd rsub rmul sos z x_cur.
Arguments sps_sosfilt {R} radd rsub rmul sos x z.
Arguments sosfilt_loop {R} radd rsub rmul sos z subarrs.
Arguments sos_zeros {R} rzero sos.
Arguments sosfilt {R} rzero radd rsub rmul pro sos chunksize zi.

(* ================================================================= *)
(** ** Polyphase resampling: the code ahead of the first chunk *)

(** Lines 292-309 of [polyphase_resample]: the guard on the decimation
    factor and the working chunk size [csize].  They read [pro.shape]
    only; the producers over [pro] are built, and the first chunk
    requested, after them.  The filter design between them does not
    touch [csize]. *)
Definition polyphase_resample_csize {A : Type} (pro : Producer A)
  (M chunksize : Z) : result Z :=
  if M >=? shape pro then Err ValueError
  else
    let csize := chunksize in
    let csize := if csize >? shape pro / 3 then shape pro / 3 else csize in
    if M =? 0 then Err ZeroDivisionError
    else
      let csize := if csize mod M >? 0 then ceil_div csize M * M else csize in
      Ok csize.

(** [x] is a multiple of [M] nearest to [c]. *)
Definition nearest_multiple (M c x : Z) : Prop :=
  (M | x) /\ forall y, (M | y) -> Z.abs (x - c) <= Z.abs (y - c).

(* ================================================================= *)
(** ** Spectral estimation *)

(** The numpy and scipy calls of the estimators, over real samples [A],
    complex transform values [C] and real power values [P], for window
    and detrend names the library knows (scipy raises on an unknown one,
    ahead of the scaling check; that is not followed here). *)
Class SignalLib (A C P : Type) : Type := {
  zero_sample : A;
  (** [sps.detrend(arr, axis, type)] *)
  sps_detrend : string -> list A -> list A;
  (** [sps.get_window(window, n)] *)
  sps_get_window : string -> Z -> list A;
  (** [arr * coeffs] *)
  arr_mul : list A -> list A -> list A;
  (** [np.fft.rfft(arr, n, axis)] for [n >= 1] *)
  np_rfft : list A -> Z -> list C;
  (** [1 / np.sum(coeffs)**2] *)
  norm_spectrum : list A -> A;
  (** [1 / (fs * np.sum(coeffs**2))] *)
  norm_density : Z -> list A -> A;
  (** [x * np.sqrt(norm)] *)
  scale_sqrt : A -> C -> C;
  (** [np.real(x)**2 + np.imag(x)**2] *)
  abs2 : C -> P;
  (** [x * 2] *)
  dbl : P -> P
}.

(** numpy's one-sided transform of [n >= 1] points has [n // 2 + 1] bins. *)
Definition rfft_onesided {A C P : Type} (lib : SignalLib A C P) : Prop :=
  forall (x : list A) (n : Z), 1 <= n -> zlen (np_rfft x n) = n / 2 + 1.

(** [np.fft.rfftfreq(n, d)]: [arange(0, n // 2 + 1) * (1 / (n * d))]. *)
Definition rfftfreq (n : Z) (d : Q) : list Q :=
  map (fun k => Qmult (inject_Z (Z.of_nat k)) (Qinv (Qmult (inject_Z n) d)))
      (seq 0 (Z.to_nat (n / 2 + 1))).

(** [arr[start:stop] = f(arr[start:stop])], an in-place update of a slice. *)
Definition update_slice {A : Type} (start stop : option Z) (f : A -> A)
  (l : list A) : list A :=
  let n := zlen l in
  let a := match start with None => 0 | Some i => slice_index n i end in
  let b := match stop with None => n | Some j => slice_index n j end in
  if b <=? a then l
  else firstn (Z.to_nat a) l
       ++ map f (firstn (Z.to_nat (b - a)) (skipn (Z.to_nat a) l))
       ++ skipn (Z.to_nat b) l.

Section Estimators.
Context {A C P : Type} {lib : SignalLib A C P}.

(** [modified_dft(arr, fs, nfft, window, axis, detrend, scaling)] on one
    lane; the crop, written with [axis=-1], and the product with the
    window run along the samples when [axis] is the last axis. *)
Definition modified_dft (arr : list A) (fs nfft : Z)
  (window detrend scaling : string) : result (list Q * list C) :=
  let nsamples := zlen arr in
  let arr := if nfft <? nsamples then slice_along_axis arr 0 nfft else arr in
  let arr := sps_detrend detrend arr in
  let coeffs := sps_get_window window (zlen arr) in
  let arr := arr_mul arr coeffs in
  (* np.fft.rfft refuses a transform of fewer than one point *)
  if nfft <? 1 then Err ValueError
  else
    let X := np_rfft arr nfft in
    let freqs := rfftfreq nfft (Qinv (inject_Z fs)) in
    if String.eqb scaling "spectrum" then
      Ok (freqs, map (scale_sqrt (norm_spectrum coeffs)) X)
    else if String.eqb scaling "density" then
      Ok (freqs, map (scale_sqrt (norm_density fs coeffs)) X)
    else Err ValueError.

(** [arr.shape[axis] if not nfft else int(nfft)] *)
Definition effective_nfft (arr : list A) (nfft : option Z) : Z :=
  match nfft with
  | None => zlen arr
  | Some n => if n =? 0 then zlen arr else n
  end.

(** [periodogram(arr, fs, nfft, window, axis, detrend, scaling)];
    [nfft = None] is the default argument. *)
Definition periodogram (arr : list A) (fs : Z) (nfft : option Z)
  (window detrend scaling : string) : result (list Q * list P) :=
  let nfft := effective_nfft arr nfft in
  match modified_dft arr fs nfft window detrend scaling with
  | Err e => Err e
  | Ok (freqs, X) =>
      let arr := map abs2 X in
      let stop := if negb (nfft mod 2 =? 0) then None else Some (-1) in
      Ok (freqs, update_slice (Some 1) stop dbl arr)
  end.
End Estimators.

(** How the generator [_spectra_estimatives] ends when it is iterated to
    its end: the estimates it yielded, and either exhaustion or the
    exception with the number of input chunks pulled by then. *)
Inductive srun (B : Type) : Type :=
| SDone (ys : list B)
| SRaised (ys : list B) (e : exn) (npulled : nat)
| SFuel.
Arguments SDone {B} ys.
Arguments SRaised {B} ys e npulled.
Arguments SFuel {B}.

Inductive drained (A B : Type) : Type :=
| Drained (ys : list B) (fifo : FIFOArray A)
| DRaised (ys : list B) (e : exn)
| DFuel.
Arguments Drained {A B} ys fifo.
Arguments DRaised {A B} ys e.
Arguments DFuel {A B}.

Definition syield {B : Type} (ys : list B) (r : srun B) : srun B :=
  match r with
  | SDone ys' => SDone (ys ++ ys')
  | SRaised ys' e n => SRaised (ys ++ ys') e n
  | SFuel => SFuel
  end.

Section Resegmenter.
Context {A B : Type}.
Variable nfft : Z.
(** The estimator of one window, [func(x, fs, nfft, window, axis,
    detrend, scaling)] with all but [x] fixed. *)
Variable func : list A -> result B.

(** [while fifo.qsize() >= nfft: x = queue[0:nfft]; y = func(x);
    fifo.get(); yield y] *)
Fixpoint drain (fuel : nat) (fifo : FIFOArray A) : drained A B :=
  match fuel with
  | O => DFuel
  | S fuel' =>
      if nfft <=? qsize fifo then
        let x := slice_along_axis (queue fifo) 0 nfft in
        match func x with
        | Err e => DRaised [] e
        | Ok y =>
            match fifo_get fifo with
            | Err e => DRaised [] e
            | Ok (_, fifo') =>
                match drain fuel' fifo' with
                | Drained ys f => Drained (y :: ys) f
                | DRaised ys e => DRaised (y :: ys) e
                | DFuel => DFuel
                end
            end
        end
      else Drained [] fifo
  end.

(** [for n, arr in enumerate(pro): <drain>; fifo.put(arr)] and the
    final drain of the [else] clause.  A drain releases at least one
    sample per turn unless the stride is not positive, in which case the
    Python loop does not end and the fuel runs out. *)
Fixpoint estimate_loop (arrs : list (list A)) (fifo : FIFOArray A)
  (npulled : nat) : srun B :=
  match arrs with
  | [] =>
      match drain (S (length (queue fifo))) fifo with
      | Drained ys _ => SDone ys
      | DRaised ys e => SRaised ys e npulled
      | DFuel => SFuel
      end
  | arr :: rest =>
      match drain (S (length (queue fifo))) fifo with
      | Drained ys fifo' =>
          syield ys (estimate_loop rest (fifo_put fifo' arr) (S npulled))
      | DRaised ys e => SRaised ys e (S npulled)
      | DFuel => SFuel
      end
  end.
End Resegmenter.

(** [noverlap = int(nfft * overlap); stride = nfft - noverlap], with
    [overlap] an exact fraction; [stride64] is the same line on binary64
    numbers. *)
Definition stride_of (nfft : Z) (overlap : Q) : Z :=
  nfft - py_int (Qmult (inject_Z nfft) overlap).

(** [_spectra_estimatives(pro, fs, nfft, window, overlap, axis, detrend,
    scaling, func)] iterated to its end. *)
Definition _spectra_estimatives {A B : Type} (pro : Producer A) (nfft : Z)
  (overlap : Q) (func : list A -> result B) : srun B :=
  let stride := stride_of nfft overlap in
  match iterate pro with
  | Err e => SRaised [] e 0
  | Ok arrs => estimate_loop nfft func arrs (mkFIFO [] stride) 0
  end.

(** [int((n - nfft) // (nfft * (1 - overlap)) + 1)], the number of
    segments [welch] and [stft] declare in the shape of their result,
    with [overlap] an exact fraction; [declared_nsegs64] is the same
    line on binary64 numbers. *)
Definition declared_nsegs (n nfft : Z) (overlap : Q) : Z :=
  Qfloor (Qdiv (inject_Z (n - nfft))
               (Qmult (inject_Z nfft) (Qminus (inject_Z 1) overlap))) + 1.

Section Welch.
Context {A C P : Type} {lib : SignalLib A C P}.

(** What [welch] returns: the frequencies, the declared number of
    segments and the estimates its result produces.  The result is a
    producer over the generator with chunksize [len(freqs)], the length
    of every estimate, so it hands the estimates on one by one. *)
Record spectra (B : Type) : Type := mkSpectra {
  sp_freqs : list Q;
  sp_nsegs : Z;
  sp_result : srun B
}.

(** [welch(pro, fs, nfft, window, overlap, axis, detrend, scaling)] *)
Definition welch (pro : Producer A) (fs nfft : Z) (window : string)
  (overlap : Q) (detrend scaling : string) : spectra (list Q * list P) :=
  let genfunc :=
    _spectra_estimatives pro nfft overlap
      (fun x => periodogram x fs (Some nfft) window detrend scaling) in
  let freqs := rfftfreq nfft (Qinv (inject_Z fs)) in
  mkSpectra _ freqs (declared_nsegs (shape pro) nfft overlap) genfunc.

(** The producer [stft] hands to the estimator: [pro] padded as
    [boundary] and [padded] ask. *)
Definition stft_data (pro : Producer A) (nfft : Z) (overlap : Q)
  (boundary padded : bool) : result (Producer A) :=
  let stride := stride_of nfft overlap in
  let data := pro in
  let data := if boundary
              then pad_producer data (nfft / 2) (nfft / 2) zero_sample
              else data in
  if padded then
    let nsamples := shape pro in
    if stride =? 0 then Err ZeroDivisionError
    else
      let amt := if negb (nsamples mod stride =? 0) then stride else 0 in
      Ok (pad_producer data 0 amt zero_sample)
  else Ok data.

(** [stft(pro, fs, nfft, window, overlap, axis, detrend, scaling,
    boundary, padded)]; the segment times are left out. *)
Definition stft (pro : Producer A) (fs nfft : Z) (window : string)
  (overlap : Q) (detrend scaling : string) (boundary padded : bool)
  : result (spectra (list Q * list C)) :=
  match stft_data pro nfft overlap boundary padded with
  | Err e => Err e
  | Ok data =>
      let genfunc :=
        _spectra_estimatives data nfft overlap
          (fun x => modified_dft x fs nfft window detrend scaling) in
      let freqs := rfftfreq nfft (Qinv (inject_Z fs)) in
      Ok (mkSpectra _ freqs (declared_nsegs (shape data) nfft overlap) genfunc)
  end.
End Welch.
Arguments mkSpectra {B} sp_freqs sp_nsegs sp_result.
Arguments sp_freqs {B} s.
Arguments sp_nsegs {B} s.
Arguments sp_result {B} s.

(** The segments the estimator function is handed: the generator run
    with the identity as estimator. *)
Definition segments {A : Type} (pro : Producer A) (nfft : Z) (overlap : Q)
  : srun (list A) :=
  _spectra_estimatives pro nfft overlap (fun x => Ok x).

(** The [i]-th window of [nfft] samples over a sequence, windows starting
    [stride] samples apart. *)
Definition window_at {A : Type} (nfft stride : Z) (d : list A) (i : nat) : list A :=
  firstn (Z.to_nat nfft) (skipn (i * Z.to_nat stride) d).

(** [w] is the number of complete windows over [len] samples: the
    window after the last does not fit, the last one does. *)
Definition complete_windows (nfft stride : Z) (len w : nat) : Prop :=
  (len < w * Z.to_nat stride + Z.to_nat nfft)%nat
  /\ (w = 0%nat \/ ((w - 1) * Z.to_nat stride + Z.to_nat nfft <= len)%nat).

(** A library instance to evaluate the estimators on concrete signals:
    integer samples, no detrending, a rectangular window, unit norms, and
    a stand-in transform that keeps the first [n // 2 + 1] of its [n]
    points.  The chunk and window bookkeeping does not look at values. *)
Definition eval_lib : SignalLib Z Z Z := {|
  zero_sample := 0;
  sps_detrend := fun _ x => x;
  sps_get_window := fun _ n => repeat 1 (Z.to_nat n);
  arr_mul := fun x _ => x;
  np_rfft := fun x n => firstn (Z.to_nat (n / 2 + 1)) (fit (Z.to_nat n) x);
  norm_spectrum := fun _ => 1;
  norm_density := fun _ _ => 1;
  scale_sqrt := fun _ x => x;
  abs2 := fun x => x * x;
  dbl := fun x => 2 * x
|}.

(** The samples [1, 2, ..., n]. *)
Definition ramp (n : nat) : list Z := map Z.of_nat (seq 1 n).

(* ================================================================= *)
(** ** Outcomes of calls *)

(** The exceptions of the functions below: those of [exn] and four more
    builtins. *)
Inductive pyexn : Type :=
| Builtin (e : exn)
| RuntimeError
| TypeError
| EOFError
| OverflowError.

(** How a call, or the full iteration of a generator, ends: with a value,
    with an exception, or not at all. *)
Inductive outcome (A : Type) : Type :=
| Returns (a : A)
| Raises (e : pyexn)
| Hangs.
Arguments Returns {A} a.
Arguments Raises {A} e.
Arguments Hangs {A}.

(** Modelled from the spec: [producer(data, chunksize, axis)]
    (openseize.core.producer) is not among the sources.  Spec, data
    model: a producer over the samples of an array, or of another
    producer, that hands them out in chunks of [chunksize] along
    [axis]. *)
Definition producer {A : Type} (data : list A) (chunksize axis : Z) : Producer A :=
  mkProducer data axis chunksize.

(* ================================================================= *)
(** ** Welch's method on binary64 numbers *)

(** A Python float: an IEEE 754 binary64 number, with the operations of
    [SpecFloat] at 53 bits of precision (round to nearest, ties to
    even). *)
Definition binary64 : Type := spec_float.

(** [float(z)], also the conversion of the [int] operand of a mixed
    operation: the nearest binary64 number, [z] itself when
    [abs(z) <= 2 ** 53].  Python refuses an int beyond the binary64
    range, where this is an infinity. *)
Definition float_of_int (z : Z) : binary64 := binary_normalize 53 1024 z 0 false.

(** The binary64 number nearest to the fraction [a / b]: the value of
    [a / b] on two ints and of a decimal literal such as [0.29]. *)
Definition float_ratio (a b : Z) : binary64 :=
  SFdiv 53 1024 (float_of_int a) (float_of_int b).

(** The exact value of a finite binary64 number. *)
Definition float_value (x : binary64) : option Q :=
  match x with
  | S754_zero _ => Some (inject_Z 0)
  | S754_finite s m e =>
      let v := if 0 <=? e then inject_Z (Z.pos m * 2 ^ e)
               else Qmake (Z.pos m) (Z.to_pos (2 ^ (- e))) in
      Some (if s then Qopp v else v)
  | S754_infinity _ => None
  | S754_nan => None
  end.

(** [int(x)]: truncation toward zero; an infinity and a NaN are
    refused. *)
Definition int_of_float (x : binary64) : outcome Z :=
  match x with
  | S754_zero _ => Returns 0
  | S754_finite s m e =>
      let a := if 0 <=? e then Z.pos m * 2 ^ e else Z.pos m / 2 ^ (- e) in
      Returns (if s then - a else a)
  | S754_infinity _ => Raises OverflowError
  | S754_nan => Raises (Builtin ValueError)
  end.

(** The sign bit of a binary64 number. *)
Definition float_sign (x : binary64) : bool :=
  match x with
  | S754_zero s => s
  | S754_infinity s => s
  | S754_finite s _ _ => s
  | S754_nan => false
  end.

(** [a // b] on floats.  A zero divisor is refused first.  Python then
    takes the exact remainder [fmod(a, b)] and rounds
    [(a - remainder) / b] to the nearest whole number: for finite
    operands and a quotient below [2 ** 52] that is the floor of the
    exact quotient, which is what is computed here; a zero result has
    the sign of [a / b].  Against an infinite divisor the result is a
    zero or [-1.0]; a NaN or an infinite dividend gives NaN. *)
Definition py_floordiv (a b : binary64) : outcome binary64 :=
  match b with
  | S754_zero _ => Raises (Builtin ZeroDivisionError)
  | S754_nan => Returns S754_nan
  | S754_infinity sb =>
      match a with
      | S754_zero sa => Returns (S754_zero (xorb sa sb))
      | S754_finite sa _ _ =>
          Returns (if xorb sa sb then float_of_int (-1) else S754_zero false)
      | S754_infinity _ => Returns S754_nan
      | S754_nan => Returns S754_nan
      end
  | S754_finite sb _ _ =>
      match float_value a, float_value b with
      | Some qa, Some qb =>
          let z := Qfloor (Qdiv qa qb) in
          Returns (if z =? 0 then S754_zero (xorb (float_sign a) sb)
                   else float_of_int z)
      | _, _ => Returns S754_nan
      end
  end.

(** What [k] right shifts of the rounding of [SpecFloat] leave of a
    mantissa [M]: the quotient, and a round bit that is set only from
    the half on. *)
Definition shr_inv (M k : Z) (R : shr_record) : Prop :=
  shr_m R = M / 2 ^ k /\ (shr_r R = true -> 2 ^ k <= 2 * (M mod 2 ^ k)).

(** [noverlap = int(nfft * overlap); stride = nfft - noverlap]: the
    product is rounded to binary64, then truncated. *)
Definition stride64 (nfft : Z) (overlap : binary64) : outcome Z :=
  match int_of_float (SFmul 53 1024 (float_of_int nfft) overlap) with
  | Returns noverlap => Returns (nfft - noverlap)
  | Raises e => Raises e
  | Hangs => Hangs
  end.

(** [int((n - nfft) // (nfft * (1 - overlap)) + 1)] with every
    operation on binary64 numbers. *)
Definition declared_nsegs64 (n nfft : Z) (overlap : binary64) : outcome Z :=
  let divisor :=
    SFmul 53 1024 (float_of_int nfft) (SFsub 53 1024 (float_of_int 1) overlap) in
  match py_floordiv (float_of_int (n - nfft)) divisor with
  | Returns q => int_of_float (SFadd 53 1024 q (float_of_int 1))
  | Raises e => Raises e
  | Hangs => Hangs
  end.

(** [_spectra_estimatives] for a binary64 [overlap], iterated to its
    end: the first [next] computes the stride, then the loop is the one
    of [estimate_loop]. *)
Definition _spectra_estimatives64 {A B : Type} (pro : Producer A) (nfft : Z)
  (overlap : binary64) (func : list A -> result B) : outcome (srun B) :=
  match stride64 nfft overlap with
  | Returns stride =>
      Returns (match iterate pro with
               | Err e => SRaised [] e 0
               | Ok arrs => estimate_loop nfft func arrs (mkFIFO [] stride) 0
               end)
  | Raises e => Raises e
  | Hangs => Hangs
  end.

(** What [welch] returns for a binary64 [overlap]: the frequencies, the
    number of segments its result declares, and how iterating the
    result ends. *)
Record spectra64 (B : Type) : Type := mkSpectra64 {
  s64_freqs : list Q;
  s64_nsegs : Z;
  s64_result : outcome (srun B)
}.
Arguments mkSpectra64 {B} s64_freqs s64_nsegs s64_result.
Arguments s64_freqs {B} s.
Arguments s64_nsegs {B} s.
Arguments s64_result {B} s.

Section Welch64.
Context {A C P : Type} {lib : SignalLib A C P}.

(** [welch(pro, fs, nfft, window, overlap, axis, detrend, scaling)] with
    [overlap] a binary64 number.  [1 / fs] refuses a zero rate and
    [rfftfreq] a zero [nfft], before the segment count is taken. *)
Definition welch64 (pro : Producer A) (fs nfft : Z) (window : string)
  (overlap : binary64) (detrend scaling : string)
  : outcome (spectra64 (list Q * list P)) :=
  let genfunc :=
    _spectra_estimatives64 pro nfft overlap
      (fun x => periodogram x fs (Some nfft) window detrend scaling) in
  if (fs =? 0) || (nfft =? 0) then Raises (Builtin ZeroDivisionError)
  else
    let freqs := rfftfreq nfft (Qinv (inject_Z fs)) in
    match declared_nsegs64 (shape pro) nfft overlap with
    | Returns nsegs => Returns (mkSpectra64 freqs nsegs genfunc)
    | Raises e => Raises e
    | Hangs => Hangs
    end.
End Welch64.

(* ================================================================= *)
(** ** Forward-backward filtering *)

Section SOSFiltFilt.
Variable R : Type.
Variable rzero : R.
Variables radd rsub rmul : R -> R -> R.
(** [sps.sosfilt_zi(sos)]: one state pair per section. *)
Variable sps_sosfilt_zi : list (sos_row R) -> list (R * R).

(** [zi * x0] for the one-sample slice [x0]: every state entry times the
    sample. *)
Definition scale_zi (zi : list (R * R)) (x0 : R) : list (R * R) :=
  map (fun z => (rmul (fst z) x0, rmul (snd z) x0)) zi.

(** The body of [for idx, arr in enumerate(forward)]: flip, filter from
    the state scaled by the first flipped sample, flip back.  Producers
    never hand out an empty array; on one the shapes of [zi * y0] and
    [flipped] disagree and scipy raises. *)
Definition sosfiltfilt_backward (sos : list (sos_row R)) (zi : list (R * R))
  (arr : list R) : result (list R) :=
  let flipped := rev arr in
  match slice_along_axis flipped 0 1 with
  | [y0] =>
      let '(revfilt, z) := sps_sosfilt radd rsub rmul sos flipped (scale_zi zi y0) in
      Ok (rev revfilt)
  | _ => Err ValueError
  end.

Fixpoint sosfiltfilt_loop (sos : list (sos_row R)) (zi : list (R * R))
  (forward : list (list R)) : result (list (list R)) :=
  match forward with
  | [] => Ok []
  | arr :: rest =>
      match sosfiltfilt_backward sos zi arr with
      | Err e => Err e
      | Ok y =>
          match sosfiltfilt_loop sos zi rest with
          | Err e => Err e
          | Ok ys => Ok (y :: ys)
          end
      end
  end.

(** [sosfiltfilt(pro, sos, chunksize, axis)] iterated to its end.
    [next(iter(pro))] on a producer without chunks ends the generator
    body with [StopIteration], which Python turns into [RuntimeError]. *)
Definition sosfiltfilt (pro : Producer R) (sos : list (sos_row R))
  (chunksize : Z) : outcome (list (list R)) :=
  match producer_next pro 0 with
  | Exhausted => Raises RuntimeError
  | Failed e => Raises (Builtin e)
  | Chunk subarr _ =>
      match slice_along_axis subarr 0 1 with
      | [x0] =>
          let zi := sps_sosfilt_zi sos in
          match sosfilt rzero radd rsub rmul pro sos chunksize
                        (Some (scale_zi zi x0)) with
          | Err e => Raises (Builtin e)
          | Ok forward =>
              match sosfiltfilt_loop sos zi forward with
              | Err e => Raises (Builtin e)
              | Ok ys => Returns ys
              end
          end
      | _ => Raises (Builtin ValueError)
      end
  end.
End SOSFiltFilt.

Arguments scale_zi {R} rmul zi x0.
Arguments sosfiltfilt_backward {R} radd rsub rmul sos zi arr.
Arguments sosfiltfilt_loop {R} radd rsub rmul sos zi forward.
Arguments sosfiltfilt {R} rzero radd rsub rmul sps_sosfilt_zi pro sos chunksize.

(* ================================================================= *)
(** ** Polyphase resampling: the sections handed to the resampler *)

(** The keyword arguments [polyphase_resample] pops from [kwargs]. *)
Record pp_kwargs : Type := mkKwargs {
  kw_fstop : option Z;
  kw_fpass : option Z;
  kw_gpass : option Z;
  kw_gstop : option Z
}.

(** [kwargs.pop(key, default)] *)
Definition kwargs_pop (v : option Z) (default : Z) : Z :=
  match v with Some x => x | None => default end.

(** [overhang = int(np.ceil((len(h) - 1) / M) * M)] *)
Definition polyphase_overhang {A : Type} (h : list A) (M : Z) : Z :=
  ceil_div (zlen h - 1) M * M.

(** The three arrays concatenated into [padded]. *)
Record pp_section (A : Type) : Type := mkSection {
  pp_left : list A;
  pp_curr : list A;
  pp_right : list A
}.
Arguments mkSection {A} pp_left pp_curr pp_right.
Arguments pp_left {A} p.
Arguments pp_curr {A} p.
Arguments pp_right {A} p.

(** [np.concatenate((left, curr, right), axis=axis)] *)
Definition pp_padded {A : Type} (s : pp_section A) : list A :=
  pp_left s ++ pp_curr s ++ pp_right s.

Section Polyphase.
Context {A B : Type}.
(** The sample [np.zeros] fills with. *)
Variable zero : A.
(** [fir(fpass, fstop, fs, gpass, gstop).coeffs] *)
Variable fir : Z -> Z -> Z -> Z -> Z -> list A.
(** [sps.resample_poly(padded, up, down, axis, window=h)] *)
Variable sps_resample_poly : list A -> Z -> Z -> list A -> list B.

(** [for n, (last, curr, nxt) in enumerate(zip(iprior, icurrent, inext), 1)]:
    the sections of the loop, from turn [n] on. *)
Fixpoint polyphase_loop (n cnt overhang : Z)
  (iprior icurrent inext : list (list A)) : list (pp_section A) :=
  match iprior, icurrent, inext with
  | last :: iprior', curr :: icurrent', nxt :: inext' =>
      let left := py_slice (Some (- overhang)) None last in
      let s :=
        if n <? cnt - 1
        then mkSection left curr (slice_along_axis nxt 0 overhang)
        else mkSection left (curr ++ nxt) (repeat zero (length left)) in
      s :: polyphase_loop (n + 1) cnt overhang iprior' icurrent' inext'
  | _, _, _ => []
  end.

(** Lines 311-354 of [polyphase_resample] up to the calls of the
    resampler: the sections in the order they are resampled.  [np.zeros]
    refuses a negative extent; a [next] past the last chunk ends the
    generator body with [StopIteration], which Python turns into
    [RuntimeError]. *)
Definition polyphase_sections (pro : Producer A) (M csize : Z) (h : list A)
  : outcome (list (pp_section A)) :=
  let x := producer (data pro) csize (axis pro) in
  let overhang := polyphase_overhang h M in
  if overhang <? 0 then Raises (Builtin ValueError)
  else
    let left := repeat zero (Z.to_nat overhang) in
    match iterate x with
    | Err e => Raises (Builtin e)
    | Ok (current :: second :: rest) =>
        let right := slice_along_axis second 0 overhang in
        let cnt := shape pro / csize
                   + (if shape pro mod csize =? 0 then 0 else 1) - 1 in
        Returns (mkSection left current right
                 :: polyphase_loop 1 cnt overhang
                      (current :: second :: rest) (second :: rest) rest)
    | Ok _ => Raises RuntimeError
    end.

(** Lines 303-307: the anti-aliasing filter, designed from the keyword
    arguments or their defaults. *)
Definition polyphase_filter (L M fs : Z) (kwargs : pp_kwargs) : list A :=
  let fstop := kwargs_pop (kw_fstop kwargs) (fs / Z.max L M) in
  let fpass := kwargs_pop (kw_fpass kwargs) (fstop - fstop / 10) in
  let gpass := kwargs_pop (kw_gpass kwargs) 1 in
  let gstop := kwargs_pop (kw_gstop kwargs) 40 in
  fir fpass fstop fs gpass gstop.

(** [polyphase_resample(pro, L, M, fs, chunksize, fir, axis, **kwargs)]
    iterated to its end: the arrays it yields.  The default of [fstop]
    is computed whether or not the keyword is given, and divides by
    [max(L, M)]. *)
Definition polyphase_resample (pro : Producer A) (L M fs chunksize : Z)
  (kwargs : pp_kwargs) : outcome (list (list B)) :=
  match polyphase_resample_csize pro M chunksize with
  | Err e => Raises (Builtin e)
  | Ok csize =>
      if Z.max L M =? 0 then Raises (Builtin ZeroDivisionError)
      else
        let h := polyphase_filter L M fs kwargs in
        let overhang := polyphase_overhang h M in
        let a := Z.quot (overhang * L) M in
        let b := - a in
        match polyphase_sections pro M csize h with
        | Returns secs =>
            Returns (map (fun s =>
                            slice_along_axis
                              (sps_resample_poly (pp_padded s) L M h) a b)
                         secs)
        | Raises e => Raises e
        | Hangs => Hangs
        end
  end.
End Polyphase.

(** [K] chunks of [c] samples cover [len] samples, the last one possibly
    in part. *)
Definition chunk_count (c : Z) (len K : nat) : Prop :=
  (len <= K * Z.to_nat c)%nat
  /\ (K = 0%nat \/ ((K - 1) * Z.to_nat c < len)%nat).

(** The number of samples section [j] of [K - 1] resamples as its own:
    a chunk, and for the last section all that is left. *)
Definition pp_extent (c : Z) (len K j : nat) : nat :=
  if (j <? K - 2)%nat then Z.to_nat c else (len - j * Z.to_nat c)%nat.

(** The signal with [overhang] zeros on either side. *)
Definition zero_extended {A : Type} (zero : A) (overhang : Z) (d : list A) : list A :=
  repeat zero (Z.to_nat overhang) ++ d ++ repeat zero (Z.to_nat overhang).

(* ================================================================= *)
(** ** Welch average ([spectra.estimators.PSD]) *)

(** [result + 1 / cnt * (arr - result)]: [result] is the integer [0] in
    the first turn ([None]) and an array afterwards.  Every estimate of
    [welch] has [len(freqs)] values, so the arrays agree in length.
    The arithmetic is that of exact fractions: how the running mean
    rounds is outside the embedding. *)
Definition psd_update (cnt : Z) (result : option (list Q)) (arr : list Q)
  : list Q :=
  match result with
  | None => map (fun x => 0 + 1 / inject_Z cnt * (x - 0))%Q arr
  | Some r =>
      map (fun rx => fst rx + 1 / inject_Z cnt * (snd rx - fst rx))%Q
          (combine r arr)
  end.

(** [for cnt, arr in enumerate(psd_pro, 1): result = ...]: the last
    [cnt] and [result]; [cnt] is the count of turns taken so far. *)
Fixpoint psd_loop (cnt : Z) (result : option (list Q)) (ests : list (list Q))
  : Z * option (list Q) :=
  match ests with
  | [] => (cnt, result)
  | arr :: rest =>
      psd_loop (cnt + 1) (Some (psd_update (cnt + 1) result arr)) rest
  end.

Section PSD.
Context {A C : Type} {lib : SignalLib A C Q}.

(** [PSD(data, fs, axis, resolution, window, overlap, detrend, scaling)]
    on an array.  [fs / resolution], [1 / fs] and [rfftfreq(0, d)] in
    [welch], and the floor division by [nfft * (1 - overlap)] there,
    divide by zero; a loop that never ran leaves [cnt] unbound. *)
Definition PSD (data : list A) (fs axis : Z) (resolution : Q) (window : string)
  (overlap : Q) (detrend scaling : string) : outcome (Z * list Q * list Q) :=
  let pro := producer data fs axis in
  if Qeq_bool resolution 0 then Raises (Builtin ZeroDivisionError)
  else
    let nfft := py_int (inject_Z fs / resolution) in
    if (fs =? 0) || (nfft =? 0) || Qeq_bool overlap 1
    then Raises (Builtin ZeroDivisionError)
    else
      let w := welch pro fs nfft window overlap detrend scaling in
      match sp_result w with
      | SFuel => Hangs
      | SRaised _ e _ => Raises (Builtin e)
      | SDone ests =>
          match psd_loop 0 None (map snd ests) with
          | (cnt, Some result) => Returns (cnt, sp_freqs w, result)
          | (_, None) => Raises (Builtin UnboundLocalError)
          end
      end.
End PSD.

(** The evaluation library with rational power values. *)
Definition eval_lib_q : SignalLib Z Z Q := {|
  zero_sample := 0;
  sps_detrend := fun _ x => x;
  sps_get_window := fun _ n => repeat 1 (Z.to_nat n);
  arr_mul := fun x _ => x;
  np_rfft := fun x n => firstn (Z.to_nat (n / 2 + 1)) (fit (Z.to_nat n) x);
  norm_spectrum := fun _ => 1;
  norm_density := fun _ _ => 1;
  scale_sqrt := fun _ x => x;
  abs2 := fun x => inject_Z (x * x);
  dbl := fun x => Qmult x (inject_Z 2)
|}.

(* ================================================================= *)
(** ** Segment times of the STFT *)

(** [np.arange(start, stop, step)] on integers, for a non-zero [step]. *)
Definition np_arange (start stop step : Z) : list Z :=
  map (fun k => start + Z.of_nat k * step)
      (seq 0 (Z.to_nat (ceil_div (stop - start) step))).

Section StftTime.
Context {A C P : Type} {lib : SignalLib A C P}.

(** The [time] vector [stft] returns between [freqs] and the result.
    Ahead of it [1 / fs] divides by a zero rate, and [rfftfreq] and the
    floor division of the segment count by zero when the stride is
    zero. *)
Definition stft_time (pro : Producer A) (fs nfft : Z) (overlap : Q)
  (boundary padded : bool) : result (list Q) :=
  match stft_data pro nfft overlap boundary padded with
  | Err e => Err e
  | Ok data =>
      let stride := stride_of nfft overlap in
      if (fs =? 0) || (stride =? 0) then Err ZeroDivisionError
      else
        let ticks :=
          if boundary then np_arange 0 (shape data + 1) stride
          else np_arange (nfft / 2) (shape data + 1 - nfft / 2) stride in
        Ok (map (fun t => (1 / inject_Z fs * inject_Z t)%Q) ticks)
  end.
End StftTime.

(* ================================================================= *)
(** ** EDF reader ([io.edf.Reader]) *)

(** [_find_records] for one channel with [spr] samples per record:
    [(start // spr, ceil(stop / spr))]. *)
Definition find_records (spr start stop : Z) : Z * Z :=
  (start / spr, ceil_div stop spr).

(** [_records(a, b)] followed by [arr[:, record_map[ch]].flatten()]: the
    samples one channel has in the records [a] to [min(b, num_records)],
    where [recs] holds the channel's samples record by record.
    [np.fromfile] with a negative offset or count is not followed. *)
Definition channel_records (recs : list (list Z)) (a b : Z) : option (list Z) :=
  let b := Z.min b (zlen recs) in
  let cnt := b - a in
  if (a <? 0) || (cnt <? 0) then None
  else Some (concat (firstn (Z.to_nat cnt) (skipn (Z.to_nat a) recs))).

(** The body of the loop of [_read_array] for one channel: the samples
    appended to [result]. *)
Definition read_channel (recs : list (list Z)) (spr start stop : Z)
  : option (list Z) :=
  let pts := find_records spr start stop in
  match channel_records recs (fst pts) (snd pts) with
  | None => None
  | Some arr =>
      let a := start - fst pts * spr in
      let b := a + (stop - start) in
      Some (py_slice (Some a) (Some b) arr)
  end.

(** [_read_gen]: the [(start, stop)] pairs handed to [_read_array],
    [zip(starts, starts[1:])] over [range(start, max_samples, chunksize)].
    [range] refuses a zero step. *)
Definition read_gen_spans (start max_samples chunksize : Z)
  : result (list (Z * Z)) :=
  if chunksize =? 0 then Err ValueError
  else
    let starts := np_arange start max_samples chunksize in
    Ok (combine starts (tl starts)).

(* ================================================================= *)
(** * Properties *)

(** ** Integer helpers *)

Lemma ceil_div_bounds (a b : Z) :
  0 < b -> a <= ceil_div a b * b < a + b.
Proof.
  intros Hb. unfold ceil_div.
  pose proof (Z.div_mod (- a) b ltac:(lia)) as Hdm.
  pose proof (Z.mod_pos_bound (- a) b Hb) as Hm.
  nia.
Qed.

Lemma zlen_nonneg {A : Type} (l : list A) : 0 <= zlen l.
Proof. unfold zlen. lia. Qed.

Lemma zlen_map {A B : Type} (f : A -> B) (l : list A) : zlen (map f l) = zlen l.
Proof. unfold zlen. now rewrite length_map. Qed.

(** ** Polyphase resampling *)

(** The working chunk size at the docstring's own example. *)
Example polyphase_csize_docstring :
  polyphase_resample_csize (mkProducer (repeat 0 (Z.to_nat 6000)) (-1) 500) 3 1000 = Ok 1002.
Proof. vm_compute. reflexivity. Qed.

(** C8, as stated, fails: for [M = 3] and a requested chunksize of 1000
    on 6000 samples the working chunk size is 1002, while the multiple of
    3 nearest to 1000 is 999. *)
Lemma polyphase_csize_not_nearest :
  polyphase_resample_csize (mkProducer (repeat 0 (Z.to_nat 6000)) (-1) 500) 3 1000 = Ok 1002
  /\ ~ nearest_multiple 3 1000 1002.
Proof.
  split; [vm_compute; reflexivity |].
  intros [_ Hnear].
  specialize (Hnear 999 ltac:(exists 333; reflexivity)).
  vm_compute in Hnear. apply Hnear. reflexivity.
Qed.

(** C8 (amended): for a decimation factor [1 <= M < shape], the working
    chunk size is the least multiple of [M] that is not below the target
    [min(chunksize, shape // 3)]: it is divisible by [M], at least the
    target and less than the target plus [M]. *)
Theorem polyphase_csize_rounds_up {A : Type} (pro : Producer A) (M chunksize : Z) :
  1 <= M -> M < shape pro ->
  exists csize,
    polyphase_resample_csize pro M chunksize = Ok csize
    /\ (M | csize)
    /\ Z.min chunksize (shape pro / 3) <= csize < Z.min chunksize (shape pro / 3) + M
    /\ (forall y, (M | y) -> Z.min chunksize (shape pro / 3) <= y -> csize <= y).
Proof.
  intros HM HN. unfold polyphase_resample_csize.
  destruct (M >=? shape pro) eqn:Hg; [lia |].
  destruct (M =? 0) eqn:HM0; [lia |].
  set (t := if chunksize >? shape pro / 3 then shape pro / 3 else chunksize).
  assert (Ht : t = Z.min chunksize (shape pro / 3)).
  { unfold t. destruct (chunksize >? shape pro / 3) eqn:Hc; lia. }
  rewrite <- Ht.
  destruct (t mod M >? 0) eqn:Hmod.
  - exists (ceil_div t M * M). split; [reflexivity |].
    pose proof (ceil_div_bounds t M ltac:(lia)) as Hb.
    split; [exists (ceil_div t M); reflexivity |].
    split; [lia |].
    intros y [q ->] Hy.
    destruct (Z_le_gt_dec (ceil_div t M) q) as [Hle | Hgt]; nia.
  - exists t. split; [reflexivity |].
    pose proof (Z.mod_pos_bound t M ltac:(lia)) as Hm.
    assert (Hz : t mod M = 0) by lia.
    split; [apply Z.mod_divide; lia |].
    split; [lia |].
    intros y _ Hy. lia.
Qed.

Lemma polyphase_csize_rounds_up_witness :
  exists csize,
    polyphase_resample_csize (mkProducer (ramp 10) (-1) 5) 9 5 = Ok csize
    /\ (9 | csize)
    /\ Z.min 5 (shape (mkProducer (ramp 10) (-1) 5) / 3) <= csize
        < Z.min 5 (shape (mkProducer (ramp 10) (-1) 5) / 3) + 9
    /\ (forall y, (9 | y) ->
          Z.min 5 (shape (mkProducer (ramp 10) (-1) 5) / 3) <= y -> csize <= y).
Proof.
  apply (polyphase_csize_rounds_up (mkProducer (ramp 10) (-1) 5) 9 5).
  - lia.
  - vm_compute. reflexivity.
Defined.

(** ** Slices *)

Lemma slice_index_range (n i : Z) : 0 <= n -> 0 <= slice_index n i <= n.
Proof. intros Hn. unfold slice_index. destruct (i <? 0); lia. Qed.

(** An in-place update of a slice changes exactly the entries whose
    index lies within the resolved bounds. *)
Lemma nth_error_update_slice {A : Type} (start stop : option Z) (f : A -> A)
  (l : list A) (k : nat) :
  let n := zlen l in
  let a := match start with None => 0 | Some i => slice_index n i end in
  let b := match stop with None => n | Some j => slice_index n j end in
  nth_error (update_slice start stop f l) k =
  if (a <=? Z.of_nat k) && (Z.of_nat k <? b)
  then option_map f (nth_error l k)
  else nth_error l k.
Proof.
  intros n a b. unfold update_slice. fold n. fold a. fold b.
  assert (Hn : 0 <= n) by apply zlen_nonneg.
  assert (Ha : 0 <= a <= n).
  { unfold a. destruct start; [apply slice_index_range; lia | lia]. }
  assert (Hb : 0 <= b <= n).
  { unfold b. destruct stop; [apply slice_index_range; lia | lia]. }
  unfold n, zlen in Ha, Hb.
  destruct (b <=? a) eqn:Hba.
  - destruct ((a <=? Z.of_nat k) && (Z.of_nat k <? b)) eqn:Hc; [lia | reflexivity].
  - destruct (Z.of_nat k <? a) eqn:Hka.
    + rewrite nth_error_app1 by (rewrite length_firstn; lia).
      rewrite nth_error_firstn.
      replace (k <? Z.to_nat a)%nat with true by (symmetry; apply Nat.ltb_lt; lia).
      replace (a <=? Z.of_nat k) with false by lia. reflexivity.
    + rewrite nth_error_app2 by (rewrite length_firstn; lia).
      rewrite length_firstn.
      replace (Nat.min (Z.to_nat a) (length l)) with (Z.to_nat a) by lia.
      replace (a <=? Z.of_nat k) with true by lia. cbn [andb].
      destruct (Z.of_nat k <? b) eqn:Hkb.
      * rewrite nth_error_app1
          by (rewrite length_map, length_firstn, length_skipn; lia).
        rewrite nth_error_map, nth_error_firstn, nth_error_skipn.
        replace (k - Z.to_nat a <? Z.to_nat (b - a))%nat with true
          by (symmetry; apply Nat.ltb_lt; lia).
        replace (Z.to_nat a + (k - Z.to_nat a))%nat with k by lia. reflexivity.
      * rewrite nth_error_app2
          by (rewrite length_map, length_firstn, length_skipn; lia).
        rewrite length_map, length_firstn, length_skipn, nth_error_skipn.
        f_equal. lia.
Qed.

Lemma length_update_slice {A : Type} (start stop : option Z) (f : A -> A)
  (l : list A) : length (update_slice start stop f l) = length l.
Proof.
  unfold update_slice.
  set (n := zlen l).
  set (a := match start with None => 0 | Some i => slice_index n i end).
  set (b := match stop with None => n | Some j => slice_index n j end).
  assert (Hn : 0 <= n) by apply zlen_nonneg.
  assert (Ha : 0 <= a <= n).
  { unfold a. destruct start; [apply slice_index_range; lia | lia]. }
  assert (Hb : 0 <= b <= n).
  { unfold b. destruct stop; [apply slice_index_range; lia | lia]. }
  unfold n, zlen in Ha, Hb.
  destruct (b <=? a) eqn:Hba; [reflexivity |].
  rewrite !length_app, length_map, !length_firstn, !length_skipn. lia.
Qed.

(** ** Periodogram *)

Section PeriodogramFacts.
Context {A C P : Type} {lib : SignalLib A C P}.
Hypothesis rfft_len : rfft_onesided lib.

Lemma modified_dft_ok (arr : list A) (fs n : Z) (window detrend scaling : string)
  (f : list Q) (X : list C) :
  modified_dft arr fs n window detrend scaling = Ok (f, X) ->
  1 <= n /\ zlen X = n / 2 + 1.
Proof.
  unfold modified_dft. intros H.
  destruct (n <? 1) eqn:Hn; [discriminate |].
  split; [lia |].
  destruct (String.eqb scaling "spectrum");
    [| destruct (String.eqb scaling "density"); [| discriminate]];
    inversion H; subst; rewrite zlen_map; apply rfft_len; lia.
Qed.

(** C7: the periodogram is the squared modulus of the modified DFT with
    every bin doubled except bin 0 (DC) and, for an even [nfft], the
    last bin [nfft // 2] (Nyquist); for an odd [nfft] every bin but DC
    is doubled. *)
Theorem periodogram_doubles_all_but_dc_nyquist
  (arr : list A) (fs : Z) (nfft : option Z) (window detrend scaling : string)
  (f : list Q) (X : list C) :
  modified_dft arr fs (effective_nfft arr nfft) window detrend scaling = Ok (f, X) ->
  exists pxx,
    periodogram arr fs nfft window detrend scaling = Ok (f, pxx)
    /\ length pxx = length X
    /\ forall (k : nat) (x : C),
        nth_error X k = Some x ->
        nth_error pxx k =
        Some (if (Z.of_nat k =? 0)
                 || ((effective_nfft arr nfft mod 2 =? 0)
                     && (Z.of_nat k =? effective_nfft arr nfft / 2))
              then abs2 x else dbl (abs2 x)).
Proof.
  intros Hdft. unfold periodogram. rewrite Hdft.
  destruct (modified_dft_ok _ _ _ _ _ _ _ _ Hdft) as [Hn HX].
  set (n := effective_nfft arr nfft) in *.
  eexists. split; [reflexivity |].
  split; [now rewrite length_update_slice, length_map |].
  intros k x Hk.
  rewrite nth_error_update_slice, nth_error_map, Hk. cbn [option_map].
  rewrite zlen_map, HX.
  assert (Hklt : Z.of_nat k < n / 2 + 1).
  { rewrite <- HX. unfold zlen.
    apply Nat2Z.inj_lt, nth_error_Some. congruence. }
  pose proof (Z.div_mod n 2 ltac:(lia)) as Hdm.
  pose proof (Z.mod_pos_bound n 2 ltac:(lia)) as Hmb.
  unfold slice_index.
  change (1 <? 0) with false.
  destruct (n mod 2 =? 0) eqn:Hpar; cbn [negb andb];
    try change (-1 <? 0) with true; cbv iota;
    destruct (Z.of_nat k =? 0) eqn:Hk0;
    destruct (Z.of_nat k =? n / 2) eqn:Hkn; cbn [orb];
    match goal with
    | |- (if ?c then _ else _) = _ => destruct c eqn:Hc
    end; try reflexivity; exfalso; lia.
Qed.
End PeriodogramFacts.

Lemma eval_lib_onesided : rfft_onesided eval_lib.
Proof.
  intros x n Hn. cbn [np_rfft eval_lib]. unfold zlen, fit.
  rewrite length_firstn, length_app, length_firstn, repeat_length.
  pose proof (Z.div_mod n 2 ltac:(lia)) as Hdm.
  pose proof (Z.mod_pos_bound n 2 ltac:(lia)) as Hmb.
  lia.
Qed.

Lemma periodogram_doubles_witness :
  exists pxx,
    @periodogram _ _ _ eval_lib [1; 2; 3; 4; 5; 6] 100 None "hann" "constant" "density"
    = Ok (rfftfreq 6 (Qinv (inject_Z 100)), pxx)
    /\ length pxx = length [1; 2; 3; 4]
    /\ forall (k : nat) (x : Z),
        nth_error [1; 2; 3; 4] k = Some x ->
        nth_error pxx k =
        Some (if (Z.of_nat k =? 0)
                 || ((@effective_nfft Z [1; 2; 3; 4; 5; 6] None mod 2 =? 0)
                     && (Z.of_nat k =? @effective_nfft Z [1; 2; 3; 4; 5; 6] None / 2))
              then @abs2 _ _ _ eval_lib x else @dbl _ _ _ eval_lib (@abs2 _ _ _ eval_lib x)).
Proof.
  apply (@periodogram_doubles_all_but_dc_nyquist _ _ _ eval_lib eval_lib_onesided
           [1; 2; 3; 4; 5; 6] 100 None "hann" "constant" "density").
  vm_compute. reflexivity.
Defined.

(** ** Producer iteration *)

Lemma skipn_chunk_rest {A : Type} (l : list A) (pos c : nat) :
  skipn (pos + length (firstn c (skipn pos l))) l = skipn c (skipn pos l).
Proof.
  rewrite length_firstn, length_skipn, skipn_skipn.
  destruct (Nat.le_gt_cases c (length l - pos)) as [Hle | Hgt].
  - f_equal. lia.
  - rewrite !skipn_all2 by lia. reflexivity.
Qed.

(** Chunk-size invariance: the chunks issued from [pos] concatenate to
    the samples from [pos] on. *)
Lemma chunks_from_concat {A : Type} (pro : Producer A) :
  0 < chunksize pro ->
  forall (fuel pos : nat),
    (length (data pro) - pos <= fuel)%nat ->
    exists cs, chunks_from fuel pro pos = Ok cs /\ concat cs = skipn pos (data pro).
Proof.
  intros Hc. induction fuel as [| fuel IH]; intros pos Hfuel.
  - exists []. split; [reflexivity |].
    cbn [concat]. symmetry. apply skipn_all2. lia.
  - cbn [chunks_from]. unfold producer_next.
    destruct (length (data pro) <=? pos)%nat eqn:Hend.
    + apply Nat.leb_le in Hend. exists []. split; [reflexivity |].
      cbn [concat]. symmetry. apply skipn_all2. lia.
    + apply Nat.leb_gt in Hend.
      replace (chunksize pro <=? 0) with false by lia.
      set (c := firstn (Z.to_nat (chunksize pro)) (skipn pos (data pro))).
      assert (Hlen : (1 <= length c)%nat).
      { unfold c. rewrite length_firstn, length_skipn. lia. }
      destruct (IH (pos + length c)%nat ltac:(lia)) as (cs & Hcs & Hcat).
      rewrite Hcs. exists (c :: cs). split; [reflexivity |].
      cbn [concat]. rewrite Hcat. unfold c.
      rewrite skipn_chunk_rest. apply firstn_skipn.
Qed.

Lemma iterate_concat {A : Type} (pro : Producer A) :
  0 < chunksize pro ->
  exists cs, iterate pro = Ok cs /\ concat cs = data pro.
Proof.
  intros Hc. unfold iterate.
  destruct (chunks_from_concat pro Hc (length (data pro)) 0 ltac:(lia))
    as (cs & Hcs & Hcat).
  exists cs. split; [exact Hcs | exact Hcat].
Qed.

(** ** Second-order-section filtering *)

Section SOSFacts.
Variable R : Type.
Variable rzero : R.
Variables radd rsub rmul : R -> R -> R.

Local Abbreviation filt := (sps_sosfilt radd rsub rmul).
Local Abbreviation loop := (sosfilt_loop radd rsub rmul).

(** Filtering [x1 ++ x2] is filtering [x1], then [x2] from the state
    [x1] left. *)
Lemma sps_sosfilt_app (sos : list (sos_row R)) (x1 x2 : list R) :
  forall z,
    filt sos (x1 ++ x2) z =
    (fst (filt sos x1 z) ++ fst (filt sos x2 (snd (filt sos x1 z))),
     snd (filt sos x2 (snd (filt sos x1 z)))).
Proof.
  induction x1 as [| x0 x1 IH]; intros z.
  - cbn [app sps_sosfilt fst snd]. now destruct (filt sos x2 z).
  - cbn [app sps_sosfilt].
    destruct (sos_sample radd rsub rmul sos z x0) as [y0 z'].
    rewrite IH.
    destruct (filt sos x1 z') as [ys zf]. reflexivity.
Qed.

Lemma sosfilt_loop_concat (sos : list (sos_row R)) (subarrs : list (list R)) :
  forall z, concat (loop sos z subarrs) = fst (filt sos (concat subarrs) z).
Proof.
  induction subarrs as [| c cs IH]; intros z.
  - reflexivity.
  - cbn [sosfilt_loop concat].
    rewrite sps_sosfilt_app.
    destruct (filt sos c z) as [y z'] eqn:Hc.
    cbn [concat fst snd]. now rewrite IH.
Qed.

(** C3: with [zi=None], the arrays [sosfilt] yields concatenate to the
    cascade applied from the zero state to the whole signal in one pass,
    whatever the producer's chunksize; and filtering two chunks in turn,
    the second from the state the first left, is filtering their
    concatenation as one chunk. *)
Theorem sosfilt_chunked_equals_whole (sos : list (sos_row R)) :
  (forall (pro : Producer R) (chunksize' : Z),
      0 < chunksize pro ->
      exists ys,
        sosfilt rzero radd rsub rmul pro sos chunksize' None = Ok ys
        /\ concat ys = fst (filt sos (data pro) (sos_zeros rzero sos)))
  /\ (forall (x1 x2 : list R) (z : list (R * R)),
        fst (filt sos x1 z) ++ fst (filt sos x2 (snd (filt sos x1 z)))
        = fst (filt sos (x1 ++ x2) z)).
Proof.
  split.
  - intros pro chunksize' Hc. unfold sosfilt.
    destruct (iterate_concat pro Hc) as (cs & Hit & Hcat).
    rewrite Hit. eexists. split; [reflexivity |].
    now rewrite sosfilt_loop_concat, Hcat.
  - intros x1 x2 z. now rewrite sps_sosfilt_app.
Qed.
End SOSFacts.

(** A two-section filter on integers, with chunks of three samples. *)
Lemma sosfilt_chunked_witness :
  0 < chunksize (mkProducer [3; 1; 4; 1; 5; 9; 2; 6] (-1) 3)
  /\ exists ys,
      sosfilt 0 Z.add Z.sub Z.mul (mkProducer [3; 1; 4; 1; 5; 9; 2; 6] (-1) 3)
              [mkRow 1 2 1 1 (-1) 0; mkRow 2 0 1 1 1 1] 3 None = Ok ys
      /\ concat ys
         = fst (sps_sosfilt Z.add Z.sub Z.mul
                  [mkRow 1 2 1 1 (-1) 0; mkRow 2 0 1 1 1 1]
                  [3; 1; 4; 1; 5; 9; 2; 6]
                  (sos_zeros 0 [mkRow 1 2 1 1 (-1) 0; mkRow 2 0 1 1 1 1])).
Proof.
  split; [reflexivity |].
  apply (proj1 (sosfilt_chunked_equals_whole Z 0 Z.add Z.sub Z.mul
                  [mkRow 1 2 1 1 (-1) 0; mkRow 2 0 1 1 1 1])
               (mkProducer [3; 1; 4; 1; 5; 9; 2; 6] (-1) 3) 3).
  reflexivity.
Defined.

(** ** The overlap-add generator, step by step *)

Lemma set_chunksize_restore {A : Type} (pro : Producer A) (c : Z) :
  set_chunksize (set_chunksize pro c) (chunksize pro) = pro.
Proof. destruct pro. reflexivity. Qed.

Lemma oa_nsegments_set_chunksize (pro : Producer Z) (win : list Z) (c : Z) :
  oa_nsegments (set_chunksize pro c) win = oa_nsegments pro win.
Proof. reflexivity. Qed.

(** The transform has at least eight points per tap, so the block stride
    is positive. *)
Lemma optimal_nffts_lower (win : list Z) :
  1 <= zlen win -> 8 * zlen win <= optimal_nffts win.
Proof.
  intros HM. unfold optimal_nffts.
  replace (zlen win <=? 0) with false by lia.
  destruct (Z.eq_dec (zlen win) 1) as [-> | Hne].
  - vm_compute. discriminate.
  - pose proof (Z.log2_up_spec (zlen win) ltac:(lia)). lia.
Qed.

Lemma oa_L_lower (win : list Z) :
  1 <= zlen win -> 7 * zlen win + 1 <= oa_L win.
Proof.
  intros HM. unfold oa_L. pose proof (optimal_nffts_lower win HM). lia.
Qed.

(** One turn of the loop from a suspended state that satisfies the
    invariant: a yield keeps the invariant, exhaustion writes the
    caller's chunksize back, an exception leaves the block stride. *)
Lemma oa_iterate_inv (pro0 : Producer Z) (win : list Z) (mode : string)
  (f : oa_frame) :
  isize f = chunksize pro0 ->
  let s := oa_iterate (set_chunksize pro0 (oa_L win)) win mode f in
  match st_event s with
  | Yield _ => oa_inv pro0 win (st_pro s) (st_gen s)
               /\ exists f', st_gen s = Suspended f'
  | Stop => st_pro s = pro0
  | Raise _ => st_pro s = set_chunksize pro0 (oa_L win)
  end.
Proof.
  intros Hsz. unfold oa_iterate.
  destruct (producer_next (set_chunksize pro0 (oa_L win)) (it_pos f))
    as [subarr pos' | | e]; cbn [st_event st_pro st_gen].
  - destruct (segment_num f <? oa_nsegments (set_chunksize pro0 (oa_L win)) win - 1).
    + destruct ((segment_num f =? 0)
                || (segment_num f =? oa_nsegments (set_chunksize pro0 (oa_L win)) win - 1)).
      * destruct (_oa_mode _ _ _ _); cbn [st_event st_pro st_gen oa_inv isize];
          eauto.
      * cbn [st_event st_pro st_gen oa_inv isize]. eauto.
    + destruct (new_overlap f) as [ov |]; cbn [st_event st_pro]; [| reflexivity].
      destruct ((segment_num f =? 0)
                || (segment_num f =? oa_nsegments (set_chunksize pro0 (oa_L win)) win - 1)).
      * destruct (_oa_mode _ _ _ _); cbn [st_event st_pro st_gen oa_inv isize];
          eauto.
      * cbn [st_event st_pro st_gen oa_inv isize]. eauto.
  - rewrite Hsz. apply set_chunksize_restore.
  - reflexivity.
Qed.

Lemma oa_next_inv (pro0 : Producer Z) (win : list Z) (mode : string)
  (pro : Producer Z) (g : oa_gen) :
  oa_inv pro0 win pro g ->
  g <> Closed ->
  let s := oa_next pro win mode g in
  match st_event s with
  | Yield _ => oa_inv pro0 win (st_pro s) (st_gen s)
               /\ exists f', st_gen s = Suspended f'
  | Stop => st_pro s = pro0
  | Raise _ => 1 <= zlen win -> st_pro s = set_chunksize pro0 (oa_L win)
  end.
Proof.
  intros Hinv Hopen.
  destruct g as [| f |]; [| | contradiction]; cbn [oa_inv] in Hinv.
  - subst pro. cbn [oa_next].
    destruct (optimal_nffts win <? 1) eqn:Hn.
    + cbn [st_event st_pro]. intros HM.
      pose proof (optimal_nffts_lower win HM). lia.
    + destruct (oa_L win =? 0) eqn:HL.
      * cbn [st_event st_pro]. intros HM.
        pose proof (oa_L_lower win HM). lia.
      * pose proof (oa_iterate_inv pro0 win mode
                      (mkFrame (chunksize pro0) 0 0
                               (repeat 0 (Z.to_nat (zlen win - 1))) None)
                      eq_refl) as H.
        cbv zeta in H |- *.
        destruct (st_event _); auto.
  - destruct Hinv as [-> Hsz]. cbn [oa_next].
    pose proof (oa_iterate_inv pro0 win mode f Hsz) as H.
    cbv zeta in H |- *.
    destruct (st_event _); auto.
Qed.

Lemma oa_run_restores (pro0 : Producer Z) (win : list Z) (mode : string) :
  forall (fuel : nat) (pro : Producer Z) (g : oa_gen) (pro' : Producer Z)
         (ys : list (list Z)),
    oa_inv pro0 win pro g ->
    g <> Closed ->
    oa_run fuel pro win mode g = Completed pro' ys ->
    pro' = pro0.
Proof.
  induction fuel as [| fuel IH]; intros pro g pro' ys Hinv Hopen Hrun;
    [discriminate |].
  cbn [oa_run] in Hrun.
  pose proof (oa_next_inv pro0 win mode pro g Hinv Hopen) as Hstep.
  cbv zeta in Hstep.
  destruct (st_event (oa_next pro win mode g)) as [y | | e].
  - destruct Hstep as [Hinv' [f' Hf']].
    destruct (oa_run fuel _ win mode _) as [p1 ys1 | p1 ys1 e1 |] eqn:Hrec;
      try discriminate.
    inversion Hrun; subst.
    eapply IH; [exact Hinv' | rewrite Hf'; discriminate | exact Hrec].
  - injection Hrun as <- _. exact Hstep.
  - discriminate.
Qed.

Lemma oa_run_crash_keeps_stride (pro0 : Producer Z) (win : list Z) (mode : string) :
  1 <= zlen win ->
  forall (fuel : nat) (pro : Producer Z) (g : oa_gen) (pro' : Producer Z)
         (ys : list (list Z)) (e : exn),
    oa_inv pro0 win pro g ->
    g <> Closed ->
    oa_run fuel pro win mode g = Crashed pro' ys e ->
    pro' = set_chunksize pro0 (oa_L win).
Proof.
  intros HM.
  induction fuel as [| fuel IH]; intros pro g pro' ys e Hinv Hopen Hrun;
    [discriminate |].
  cbn [oa_run] in Hrun.
  pose proof (oa_next_inv pro0 win mode pro g Hinv Hopen) as Hstep.
  cbv zeta in Hstep.
  destruct (st_event (oa_next pro win mode g)) as [y | | e0].
  - destruct Hstep as [Hinv' [f' Hf']].
    destruct (oa_run fuel _ win mode _) as [p1 ys1 | p1 ys1 e1 |] eqn:Hrec;
      try discriminate.
    inversion Hrun; subst.
    eapply IH; [exact Hinv' | rewrite Hf'; discriminate | exact Hrec].
  - discriminate.
  - injection Hrun as <- _ _. auto.
Qed.

(** A [next] call that does not yield leaves the generator closed. *)
Lemma oa_next_closes (pro : Producer Z) (win : list Z) (mode : string) (g : oa_gen) :
  match st_event (oa_next pro win mode g) with
  | Yield _ => True
  | _ => st_gen (oa_next pro win mode g) = Closed
  end.
Proof.
  assert (Hit : forall p f,
             match st_event (oa_iterate p win mode f) with
             | Yield _ => True
             | _ => st_gen (oa_iterate p win mode f) = Closed
             end).
  { intros p f. unfold oa_iterate.
    destruct (producer_next p (it_pos f)); cbn [st_event st_gen]; try reflexivity.
    destruct (segment_num f <? oa_nsegments p win - 1).
    - destruct ((segment_num f =? 0) || (segment_num f =? oa_nsegments p win - 1));
        [destruct (_oa_mode _ _ _ _) |]; cbn [st_event st_gen]; auto.
    - destruct (new_overlap f); cbn [st_event st_gen]; [| reflexivity].
      destruct ((segment_num f =? 0) || (segment_num f =? oa_nsegments p win - 1));
        [destruct (_oa_mode _ _ _ _) |]; cbn [st_event st_gen]; auto. }
  destruct g as [| f |]; cbn [oa_next].
  - destruct (optimal_nffts win <? 1); [reflexivity |].
    destruct (oa_L win =? 0); [reflexivity |]. apply Hit.
  - apply Hit.
  - reflexivity.
Qed.

Lemma oa_take_inv (pro0 : Producer Z) (win : list Z) (mode : string) :
  forall (k : nat) (pro : Producer Z) (g : oa_gen) (pro' : Producer Z)
         (g' : oa_gen) (ys : list (list Z)),
    oa_inv pro0 win pro g ->
    oa_take k pro win mode g = (pro', g', ys) ->
    oa_inv pro0 win pro' g'.
Proof.
  induction k as [| k IH]; intros pro g pro' g' ys Hinv Htake.
  - injection Htake as <- <- _. exact Hinv.
  - cbn [oa_take] in Htake.
    pose proof (oa_next_closes pro win mode g) as Hcl.
    destruct (st_event (oa_next pro win mode g)) as [y | | e] eqn:Hev.
    + destruct (oa_take k _ win mode _) as [[p1 g1] ys1] eqn:Hrec.
      injection Htake as <- <- _.
      eapply IH; [| exact Hrec].
      destruct g as [| f |].
      * pose proof (oa_next_inv pro0 win mode pro Created Hinv ltac:(discriminate))
          as Hstep. cbv zeta in Hstep. rewrite Hev in Hstep. apply Hstep.
      * pose proof (oa_next_inv pro0 win mode pro (Suspended f) Hinv
                      ltac:(discriminate)) as Hstep.
        cbv zeta in Hstep. rewrite Hev in Hstep. apply Hstep.
      * discriminate.
    + injection Htake as <- <- _. rewrite Hcl. exact I.
    + injection Htake as <- <- _. rewrite Hcl. exact I.
Qed.

(** C9: when the iteration of [oaconvolve] runs to exhaustion, the
    producer is left exactly as it was before: its chunksize is the
    caller's again and no other attribute differs. *)
Theorem oaconvolve_restores_chunksize (pro : Producer Z) (win : list Z)
  (mode : string) (pro' : Producer Z) (ys : list (list Z)) :
  oaconvolve pro win mode = Completed pro' ys ->
  pro' = pro
  /\ chunksize pro' = chunksize pro /\ data pro' = data pro /\ axis pro' = axis pro.
Proof.
  intros Hrun.
  assert (Heq : pro' = pro).
  { eapply (oa_run_restores pro win mode); [| | exact Hrun];
      [reflexivity | discriminate]. }
  subst pro'. repeat split.
Qed.

Lemma oaconvolve_restores_witness :
  oaconvolve (mkProducer (ramp 40) (-1) 7) [1; 2; 1] "same"
  = Completed (mkProducer (ramp 40) (-1) 7)
              [[4; 8; 12; 16; 20; 24; 28; 32; 36; 40; 44; 48; 52; 56; 60; 64; 68;
                72; 76; 80; 84; 88; 92; 96; 100; 104; 108; 112; 116];
               [120; 124; 128; 132; 136; 140; 144; 148; 152; 156; 119]]
  /\ chunksize (mkProducer (ramp 40) (-1) 7) = 7.
Proof.
  assert (H : oaconvolve (mkProducer (ramp 40) (-1) 7) [1; 2; 1] "same"
              = Completed (mkProducer (ramp 40) (-1) 7)
                  [[4; 8; 12; 16; 20; 24; 28; 32; 36; 40; 44; 48; 52; 56; 60; 64;
                    68; 72; 76; 80; 84; 88; 92; 96; 100; 104; 108; 112; 116];
                   [120; 124; 128; 132; 136; 140; 144; 148; 152; 156; 119]])
    by (vm_compute; reflexivity).
  split; [exact H |].
  exact (proj1 (proj2 (oaconvolve_restores_chunksize _ _ _ _ _ H))).
Defined.

(** C10: if the consumer stops after any number of [next] calls that each
    yielded a segment, the generator is still suspended and the producer's
    chunksize is the block stride [nfft - M + 1], a function of the kernel
    alone; the caller's chunksize is kept in the generator's frame only.
    An iteration that ends in an exception leaves the block stride too. *)
Theorem oaconvolve_early_stop_keeps_stride (pro : Producer Z) (win : list Z)
  (mode : string) :
  (forall (k : nat) (pro' : Producer Z) (f : oa_frame) (ys : list (list Z)),
      oa_take k pro win mode Created = (pro', Suspended f, ys) ->
      chunksize pro' = optimal_nffts win - zlen win + 1
      /\ isize f = chunksize pro
      /\ data pro' = data pro)
  /\ (forall (pro' : Producer Z) (ys : list (list Z)) (e : exn),
        1 <= zlen win ->
        oaconvolve pro win mode = Crashed pro' ys e ->
        chunksize pro' = optimal_nffts win - zlen win + 1).
Proof.
  split.
  - intros k pro' f ys Htake.
    pose proof (oa_take_inv pro win mode k pro Created pro' (Suspended f) ys
                  eq_refl Htake) as [-> Hsz].
    repeat split; assumption.
  - intros pro' ys e HM Hrun.
    unfold oaconvolve in Hrun.
    assert (Hinv : oa_inv pro win pro Created) by reflexivity.
    rewrite (oa_run_crash_keeps_stride pro win mode HM _ _ _ _ _ _
               Hinv ltac:(discriminate) Hrun).
    reflexivity.
Qed.

Lemma oaconvolve_early_stop_witness :
  oa_take 1 (mkProducer (ramp 40) (-1) 7) [1; 2; 1] "same" Created
  = (mkProducer (ramp 40) (-1) 30,
     Suspended (mkFrame 7 30 1 [89; 30] (Some [89; 30])),
     [[4; 8; 12; 16; 20; 24; 28; 32; 36; 40; 44; 48; 52; 56; 60; 64; 68;
       72; 76; 80; 84; 88; 92; 96; 100; 104; 108; 112; 116]])
  /\ chunksize (mkProducer (ramp 40) (-1) 30) = optimal_nffts [1; 2; 1] - zlen [1; 2; 1] + 1
  /\ oaconvolve (mkProducer (ramp 5) (-1) 7) [1; 2; 1] "same"
     = Crashed (mkProducer (ramp 5) (-1) 30) [] UnboundLocalError
  /\ chunksize (mkProducer (ramp 5) (-1) 30) = optimal_nffts [1; 2; 1] - zlen [1; 2; 1] + 1.
Proof.
  assert (H1 : oa_take 1 (mkProducer (ramp 40) (-1) 7) [1; 2; 1] "same" Created
               = (mkProducer (ramp 40) (-1) 30,
                  Suspended (mkFrame 7 30 1 [89; 30] (Some [89; 30])),
                  [[4; 8; 12; 16; 20; 24; 28; 32; 36; 40; 44; 48; 52; 56; 60; 64;
                    68; 72; 76; 80; 84; 88; 92; 96; 100; 104; 108; 112; 116]]))
    by (vm_compute; reflexivity).
  assert (H2 : oaconvolve (mkProducer (ramp 5) (-1) 7) [1; 2; 1] "same"
               = Crashed (mkProducer (ramp 5) (-1) 30) [] UnboundLocalError)
    by (vm_compute; reflexivity).
  pose proof (oaconvolve_early_stop_keeps_stride
                (mkProducer (ramp 40) (-1) 7) [1; 2; 1] "same") as [Ha _].
  pose proof (oaconvolve_early_stop_keeps_stride
                (mkProducer (ramp 5) (-1) 7) [1; 2; 1] "same") as [_ Hb].
  split; [exact H1 |].
  split; [exact (proj1 (Ha _ _ _ _ H1)) |].
  split; [exact H2 |].
  apply (Hb _ _ _ ltac:(vm_compute; discriminate) H2).
Defined.

(** ** The FIFO resegmenter *)

Lemma py_slice_prefix {A : Type} (l : list A) (b : Z) :
  0 <= b <= zlen l -> py_slice (Some 0) (Some b) l = firstn (Z.to_nat b) l.
Proof.
  intros Hb. unfold py_slice, slice_index. fold (zlen l).
  replace (0 <? 0) with false by reflexivity.
  destruct (b <? 0) eqn:Hneg; [lia |].
  replace (Z.max 0 (Z.min (zlen l) 0)) with 0 by lia.
  replace (Z.max 0 (Z.min (zlen l) b) - 0) with b by lia.
  reflexivity.
Qed.

Lemma window_at_app {A : Type} (nfft stride : Z) (q r : list A) (i : nat) :
  (i * Z.to_nat stride + Z.to_nat nfft <= length q)%nat ->
  window_at nfft stride (q ++ r) i = window_at nfft stride q i.
Proof.
  intros Hin. unfold window_at.
  rewrite skipn_app, firstn_app, length_skipn.
  replace (Z.to_nat nfft - (length q - i * Z.to_nat stride))%nat with 0%nat by lia.
  rewrite firstn_O, app_nil_r. reflexivity.
Qed.

Lemma window_at_skipn {A : Type} (nfft stride : Z) (d : list A) (w i : nat) :
  window_at nfft stride (skipn (w * Z.to_nat stride) d) i
  = window_at nfft stride d (w + i).
Proof.
  unfold window_at. rewrite skipn_skipn. do 2 f_equal. lia.
Qed.

Lemma length_window_at {A : Type} (nfft stride : Z) (d : list A) (i : nat) :
  (i * Z.to_nat stride + Z.to_nat nfft <= length d)%nat ->
  length (window_at nfft stride d i) = Z.to_nat nfft.
Proof.
  intros Hin. unfold window_at. rewrite length_firstn, length_skipn. lia.
Qed.

Lemma map_seq_offset {B : Type} (f : nat -> B) (w len : nat) :
  map f (seq w len) = map (fun i => f (w + i)%nat) (seq 0 len).
Proof.
  revert f w. induction len as [| len IH]; intros f w; [reflexivity |].
  cbn [seq map]. rewrite Nat.add_0_r. f_equal.
  rewrite (IH f (S w)), (IH (fun i => f (w + i)%nat) 1%nat).
  apply map_ext. intros i. f_equal. lia.
Qed.

Section ResegmenterFacts.
Context {A B : Type}.
Variables nfft stride : Z.
Variable func : list A -> result B.
Variable est : list A -> B.
Hypothesis stride_range : 1 <= stride <= nfft.
Hypothesis func_ok : forall x, zlen x = nfft -> func x = Ok (est x).

Local Abbreviation n := (Z.to_nat nfft).
Local Abbreviation s := (Z.to_nat stride).

(** A drain emits the estimates of the complete windows of the queue
    and releases one stride per window. *)
Lemma drain_windows :
  forall (fuel : nat) (q : list A),
    (length q < fuel)%nat ->
    exists w,
      drain nfft func fuel (mkFIFO q stride)
      = Drained (map (fun i => est (window_at nfft stride q i)) (seq 0 w))
                (mkFIFO (skipn (w * s) q) stride)
      /\ complete_windows nfft stride (length q) w.
Proof.
  induction fuel as [| fuel IH]; intros q Hfuel; [lia |].
  cbn [drain]. unfold qsize, zlen. cbn [queue].
  destruct (nfft <=? Z.of_nat (length q)) eqn:Hfit.
  - unfold slice_along_axis. rewrite py_slice_prefix by (unfold zlen; lia).
    rewrite func_ok by (unfold zlen; rewrite length_firstn; lia).
    unfold fifo_get, qsize, zlen. cbn [queue fifo_chunksize].
    replace (Z.of_nat (length q) <? stride) with false by lia.
    destruct (IH (skipn s q)) as (w & Hdr & Hlt & Hge).
    { rewrite length_skipn. lia. }
    rewrite Hdr. exists (S w). split.
    + cbn [seq map]. f_equal.
      * rewrite <- seq_shift, map_map. f_equal.
        apply map_ext. intros i.
        replace (skipn s q) with (skipn (1 * s) q) by (f_equal; lia).
        now rewrite window_at_skipn.
      * f_equal. rewrite skipn_skipn. f_equal. lia.
    + rewrite length_skipn in Hlt, Hge. split; [lia |]. right.
      destruct Hge as [-> | Hge]; [lia |].
      replace (S w - 1)%nat with (S (w - 1)) by lia. lia.
  - exists 0%nat. split; [reflexivity |]. split; [lia | now left].
Qed.

(** The whole loop emits the estimates of the complete windows of the
    buffered samples followed by the chunks still to come. *)
Lemma estimate_loop_windows :
  forall (arrs : list (list A)) (q : list A) (npulled : nat),
    exists w,
      estimate_loop nfft func arrs (mkFIFO q stride) npulled
      = SDone (map (fun i => est (window_at nfft stride (q ++ concat arrs) i))
                   (seq 0 w))
      /\ complete_windows nfft stride (length (q ++ concat arrs)) w.
Proof.
  induction arrs as [| arr rest IH]; intros q npulled.
  - cbn [estimate_loop concat queue]. rewrite app_nil_r.
    destruct (drain_windows (S (length q)) q ltac:(lia)) as (w & Hdr & Hcw).
    rewrite Hdr. exists w. split; [reflexivity | exact Hcw].
  - cbn [estimate_loop concat queue].
    destruct (drain_windows (S (length q)) q ltac:(lia)) as (w & Hdr & Hlt & Hge).
    rewrite Hdr. unfold fifo_put. cbn [queue fifo_chunksize].
    destruct (IH (skipn (w * s) q ++ arr) (S npulled)) as (w' & Hloop & Hlt' & Hge').
    rewrite Hloop. cbn [syield].
    assert (Hws : (w * s <= length q)%nat).
    { destruct w as [| w0]; [lia |]. destruct Hge as [Hge | Hge]; [lia |].
      replace (S w0 - 1)%nat with w0 in Hge by lia. cbn [Nat.mul]. lia. }
    assert (Hd : (skipn (w * s) q ++ arr) ++ concat rest
                 = skipn (w * s) (q ++ arr ++ concat rest)).
    { rewrite skipn_app.
      replace (w * s - length q)%nat with 0%nat by lia.
      cbn [skipn]. now rewrite app_assoc. }
    rewrite Hd in *. rewrite length_skipn in Hlt', Hge'.
    exists (w + w')%nat. split.
    + f_equal. rewrite seq_app, map_app. f_equal.
      * apply map_ext_in. intros i Hi. apply in_seq in Hi. f_equal.
        symmetry. apply window_at_app.
        destruct Hge as [-> | Hge]; [lia |].
        assert (i * s <= (w - 1) * s)%nat by (apply Nat.mul_le_mono_r; lia).
        lia.
      * cbn [Nat.add]. rewrite (map_seq_offset _ w w').
        apply map_ext. intros i. now rewrite window_at_skipn.
    + split; [rewrite Nat.mul_add_distr_r; lia |].
      destruct w' as [| w0].
      * rewrite Nat.add_0_r. destruct Hge as [-> | Hge]; [now left | right].
        rewrite length_app. lia.
      * right. destruct Hge' as [Hge' | Hge']; [discriminate |].
        replace (w + S w0 - 1)%nat with (w + w0)%nat by lia.
        replace (S w0 - 1)%nat with w0 in Hge' by lia.
        rewrite Nat.mul_add_distr_r. lia.
Qed.
End ResegmenterFacts.

Lemma complete_windows_count (nfft stride : Z) (len w : nat) :
  1 <= stride -> 0 <= nfft <= Z.of_nat len ->
  complete_windows nfft stride len w ->
  Z.of_nat w = (Z.of_nat len - nfft) / stride + 1.
Proof.
  intros Hs Hn [Hlt Hge].
  destruct w as [| w0]; [lia |].
  destruct Hge as [Hge | Hge]; [discriminate |].
  replace (S w0 - 1)%nat with w0 in Hge by lia.
  assert (Hq : Z.of_nat w0 = (Z.of_nat len - nfft) / stride).
  { apply (Z.div_unique_pos _ _ _ (Z.of_nat len - nfft - Z.of_nat w0 * stride));
      nia. }
  lia.
Qed.

(** ** Stride of the spectral segments *)

Lemma stride_of_floor (nfft : Z) (overlap : Q) :
  0 <= nfft -> (0 <= overlap)%Q ->
  stride_of nfft overlap = nfft - Qfloor (Qmult (inject_Z nfft) overlap).
Proof.
  intros Hn Hov. unfold stride_of, py_int, Qfloor.
  destruct overlap as [p q]. unfold Qle in Hov. cbn in Hov |- *.
  rewrite Z.quot_div_nonneg by nia. reflexivity.
Qed.

Lemma stride_of_range (nfft : Z) (overlap : Q) :
  1 <= nfft -> (0 <= overlap)%Q -> (overlap < 1)%Q ->
  1 <= stride_of nfft overlap <= nfft.
Proof.
  intros Hn Hlo Hhi. unfold stride_of, py_int.
  destruct overlap as [p q]. unfold Qle, Qlt in Hlo, Hhi. cbn in Hlo, Hhi |- *.
  rewrite Z.quot_div_nonneg by nia.
  assert (Hq : 0 <= nfft * p / Z.pos q < nfft).
  { split; [apply Z.div_pos; nia |].
    apply Z.div_lt_upper_bound; nia. }
  lia.
Qed.

(** ** Welch *)

Section WelchFacts.
Context {A C P : Type} {lib : SignalLib A C P}.

Lemma modified_dft_total (x : list A) (fs nfft : Z)
  (window detrend scaling : string) :
  1 <= nfft -> scaling = "spectrum"%string \/ scaling = "density"%string ->
  exists y, modified_dft x fs nfft window detrend scaling = Ok y.
Proof.
  intros Hn Hsc. unfold modified_dft.
  replace (nfft <? 1) with false by lia.
  destruct Hsc as [-> | ->]; cbn [String.eqb Ascii.eqb Bool.eqb];
    eexists; reflexivity.
Qed.

Lemma periodogram_total (x : list A) (fs nfft : Z)
  (window detrend scaling : string) :
  1 <= nfft -> scaling = "spectrum"%string \/ scaling = "density"%string ->
  exists y, periodogram x fs (Some nfft) window detrend scaling = Ok y.
Proof.
  intros Hn Hsc. unfold periodogram, effective_nfft.
  replace (nfft =? 0) with false by lia.
  destruct (modified_dft_total x fs nfft window detrend scaling Hn Hsc)
    as [[f X] ->].
  eexists. reflexivity.
Qed.

Lemma zlen_rfftfreq (n : Z) (d : Q) : 0 <= n -> zlen (rfftfreq n d) = n / 2 + 1.
Proof.
  intros Hn. unfold rfftfreq, zlen. rewrite length_map, length_seq.
  pose proof (Z.div_pos n 2 Hn ltac:(lia)). lia.
Qed.
End WelchFacts.

(** ** Rounding to binary64 *)

Lemma fexp_binary64 (x : Z) : fexp 53 1024 x = Z.max (x - 53) (-1074).
Proof. reflexivity. Qed.

Lemma digits2_pos_bounds (m : positive) :
  2 ^ (Z.pos (digits2_pos m) - 1) <= Z.pos m < 2 ^ Z.pos (digits2_pos m).
Proof.
  induction m as [p IH | p IH |]; cbn [digits2_pos].
  - rewrite Pos2Z.inj_succ. change (Z.pos p~1) with (2 * Z.pos p + 1).
    replace (Z.succ (Z.pos (digits2_pos p)) - 1)
      with (Z.succ (Z.pos (digits2_pos p) - 1)) by lia.
    rewrite !Z.pow_succ_r by lia.
    generalize dependent (2 ^ (Z.pos (digits2_pos p) - 1)).
    generalize dependent (2 ^ Z.pos (digits2_pos p)). intros; lia.
  - rewrite Pos2Z.inj_succ. change (Z.pos p~0) with (2 * Z.pos p).
    replace (Z.succ (Z.pos (digits2_pos p)) - 1)
      with (Z.succ (Z.pos (digits2_pos p) - 1)) by lia.
    rewrite !Z.pow_succ_r by lia.
    generalize dependent (2 ^ (Z.pos (digits2_pos p) - 1)).
    generalize dependent (2 ^ Z.pos (digits2_pos p)). intros; lia.
  - cbn. lia.
Qed.

Lemma digits2_pos_le (m : positive) (k : Z) :
  Z.pos m < 2 ^ k -> Z.pos (digits2_pos m) <= k.
Proof.
  intros Hm. destruct (Z.le_gt_cases (Z.pos (digits2_pos m)) k) as [|Hgt]; [assumption |].
  pose proof (digits2_pos_bounds m) as [Hlo _].
  destruct (Z.le_gt_cases 0 k) as [Hk | Hk].
  - pose proof (Z.pow_le_mono_r 2 k (Z.pos (digits2_pos m) - 1) ltac:(lia) ltac:(lia)).
    lia.
  - rewrite Z.pow_neg_r in Hm by lia. lia.
Qed.

Lemma digits2_pos_ge (m : positive) (k : Z) :
  2 ^ (k - 1) <= Z.pos m -> k <= Z.pos (digits2_pos m).
Proof.
  intros Hm. destruct (Z.le_gt_cases k (Z.pos (digits2_pos m))) as [|Hgt]; [assumption |].
  pose proof (digits2_pos_bounds m) as [_ Hhi].
  pose proof (Z.pow_le_mono_r 2 (Z.pos (digits2_pos m)) (k - 1) ltac:(lia) ltac:(lia)).
  lia.
Qed.

Lemma shr_1_spec (R : shr_record) :
  0 <= shr_m R ->
  shr_m (shr_1 R) = shr_m R / 2 /\ shr_r (shr_1 R) = Z.odd (shr_m R).
Proof.
  destruct R as [m r s]. cbn [shr_m]. intros Hm.
  destruct m as [| p | p]; [split; reflexivity | | lia].
  destruct p as [p | p |]; cbn [shr_1 shr_m shr_r].
  - split; [| reflexivity]. apply Z.div_unique with (r := 1); lia.
  - split; [| reflexivity]. apply Z.div_unique with (r := 0); lia.
  - split; reflexivity.
Qed.

Lemma shr_1_inv (M k : Z) (R : shr_record) :
  0 <= M -> 0 <= k -> shr_inv M k R -> shr_inv M (k + 1) (shr_1 R).
Proof.
  intros HM Hk [Hm Hr].
  assert (Hp : 0 < 2 ^ k) by (apply Z.pow_pos_nonneg; lia).
  pose proof (Z.div_mod M (2 ^ k) ltac:(lia)) as Hdm.
  pose proof (Z.mod_pos_bound M (2 ^ k) Hp) as Hmb.
  assert (Hq : 0 <= M / 2 ^ k) by (apply Z.div_pos; lia).
  destruct (shr_1_spec R ltac:(lia)) as [Hm1 Hr1].
  unfold shr_inv. rewrite Hm1, Hr1, Hm.
  remember (M / 2 ^ k) as q eqn:Eq. remember (M mod 2 ^ k) as r0 eqn:Er.
  clear Eq Er Hm Hm1 Hr1.
  pose proof (Z.div_mod q 2 ltac:(lia)) as Hq2.
  pose proof (Z.mod_pos_bound q 2 ltac:(lia)) as Hqb.
  assert (Hpow : 2 ^ (k + 1) = 2 ^ k * 2) by (rewrite Z.pow_add_r by lia; reflexivity).
  rewrite Hpow. split.
  - apply Z.div_unique with (r := (q mod 2) * 2 ^ k + r0); nia.
  - intros Hodd.
    assert (Hq1 : q mod 2 = 1).
    { rewrite Zmod_odd, Hodd. reflexivity. }
    replace (M mod (2 ^ k * 2)) with (2 ^ k + r0); [lia |].
    apply Z.mod_unique with (q := q / 2); nia.
Qed.

Lemma iter_shr_inv (p : positive) :
  forall (M k : Z) (R : shr_record),
    0 <= M -> 0 <= k -> shr_inv M k R ->
    shr_inv M (k + Z.pos p) (iter_pos shr_1 p R).
Proof.
  induction p as [p IH | p IH |]; intros M k R HM Hk HR; cbn [iter_pos].
  - replace (k + Z.pos p~1) with (k + 1 + Z.pos p + Z.pos p) by lia.
    apply IH; [lia | lia |]. apply IH; [lia | lia |]. now apply shr_1_inv.
  - replace (k + Z.pos p~0) with (k + Z.pos p + Z.pos p) by lia.
    apply IH; [lia | lia |]. now apply IH.
  - now apply shr_1_inv.
Qed.

Lemma shr_fexp_exact (m : positive) (e : Z) :
  exists R,
    shr_fexp 53 1024 (Z.pos m) e loc_Exact
    = (R, Z.max e (fexp 53 1024 (Z.pos (digits2_pos m) + e)))
    /\ shr_inv (Z.pos m)
         (Z.max e (fexp 53 1024 (Z.pos (digits2_pos m) + e)) - e) R.
Proof.
  unfold shr_fexp, shr. cbn [Zdigits2 shr_record_of_loc].
  set (E := fexp 53 1024 (Z.pos (digits2_pos m) + e)).
  assert (H0 : shr_inv (Z.pos m) 0
                 {| shr_m := Z.pos m; shr_r := false; shr_s := false |}).
  { split; cbn [shr_m shr_r]; [now rewrite Z.pow_0_r, Z.div_1_r | discriminate]. }
  destruct (E - e) as [| p | p] eqn:Hn.
  - eexists. replace (Z.max e E) with e by lia.
    split; [reflexivity |]. now rewrite Z.sub_diag.
  - eexists. replace (Z.max e E) with (e + Z.pos p) by lia.
    split; [reflexivity |].
    replace (e + Z.pos p - e) with (0 + Z.pos p) by lia.
    apply iter_shr_inv; [lia | lia | exact H0].
  - eexists. replace (Z.max e E) with e by lia.
    split; [reflexivity |]. now rewrite Z.sub_diag.
Qed.

Lemma shr_fexp_settled (m2 E : Z) :
  0 <= m2 < 2 ^ 53 -> -1074 <= E ->
  shr_fexp 53 1024 m2 E loc_Exact
  = ({| shr_m := m2; shr_r := false; shr_s := false |}, E).
Proof.
  intros Hm HE. unfold shr_fexp, shr. cbn [shr_record_of_loc].
  assert (Hn : fexp 53 1024 (Zdigits2 m2 + E) - E <= 0).
  { rewrite fexp_binary64. destruct m2 as [| p | p]; cbn [Zdigits2]; [lia | | lia].
    pose proof (digits2_pos_le p 53 ltac:(lia)). lia. }
  destruct (fexp 53 1024 (Zdigits2 m2 + E) - E); [reflexivity | lia | reflexivity].
Qed.

Lemma shr_fexp_carry (E : Z) :
  -1075 <= E ->
  shr_fexp 53 1024 (2 ^ 53) E loc_Exact
  = ({| shr_m := 2 ^ 52; shr_r := false; shr_s := false |}, E + 1).
Proof.
  intros HE. unfold shr_fexp, shr. cbn [shr_record_of_loc].
  replace (fexp 53 1024 (Zdigits2 (2 ^ 53) + E) - E) with 1.
  - reflexivity.
  - rewrite fexp_binary64. change (Zdigits2 (2 ^ 53)) with 54. lia.
Qed.

(** Rounding an exact product or sum [m * 2 ** e] to binary64, away
    from overflow: the mantissa is cut at the exponent the format
    gives, the cut is rounded by at most half a unit, and a carry out of
    53 bits moves the exponent up by one. *)
Lemma binary_round_aux_exact (s : bool) (m : positive) (e : Z) :
  let E := Z.max e (fexp 53 1024 (Z.pos (digits2_pos m) + e)) in
  E <= 970 ->
  exists m2 : Z,
    Z.pos m / 2 ^ (E - e) <= m2 <= Z.pos m / 2 ^ (E - e) + 1
    /\ 2 * m2 * 2 ^ (E - e) <= 2 * Z.pos m + 2 ^ (E - e)
    /\ (E = e -> m2 = Z.pos m)
    /\ m2 <= 2 ^ 53
    /\ binary_round_aux 53 1024 s (Z.pos m) e loc_Exact
       = if m2 =? 0 then S754_zero s
         else if m2 =? 2 ^ 53 then S754_finite s (2 ^ 52)%positive (E + 1)
         else S754_finite s (Z.to_pos m2) E.
Proof.
  intros E HE.
  destruct (shr_fexp_exact m e) as (R & HR & Hm & Hr). fold E in HR, Hm, Hr.
  assert (HEe : e <= E) by (unfold E; lia).
  assert (HEmin : -1074 <= E) by (unfold E; rewrite fexp_binary64; lia).
  assert (HEd : Z.pos (digits2_pos m) + e - 53 <= E)
    by (unfold E; rewrite fexp_binary64; lia).
  set (k := E - e) in *. assert (Hk : 0 <= k) by lia.
  assert (Hp : 0 < 2 ^ k) by (apply Z.pow_pos_nonneg; lia).
  pose proof (Z.div_mod (Z.pos m) (2 ^ k) ltac:(lia)) as Hdm.
  pose proof (Z.mod_pos_bound (Z.pos m) (2 ^ k) Hp) as Hmb.
  assert (Hq : 0 <= Z.pos m / 2 ^ k) by (apply Z.div_pos; lia).
  assert (Hq53 : Z.pos m / 2 ^ k < 2 ^ 53).
  { apply Z.div_lt_upper_bound; [exact Hp |].
    rewrite <- Z.pow_add_r by lia.
    pose proof (digits2_pos_bounds m) as [_ Hhi].
    pose proof (Z.pow_le_mono_r 2 (Z.pos (digits2_pos m)) (k + 53)
                  ltac:(lia) ltac:(lia)).
    lia. }
  set (m2 := round_nearest_even (shr_m R) (loc_of_shr_record R)).
  assert (Hm2 : shr_m R <= m2 <= shr_m R + 1 /\ (m2 = shr_m R \/ shr_r R = true)).
  { unfold m2. destruct R as [m1 [|] [|]]; cbn [shr_m shr_r loc_of_shr_record round_nearest_even];
      try destruct (Z.even m1); split; auto; lia. }
  destruct Hm2 as [Hb Hcase]. rewrite Hm in Hb, Hcase.
  exists m2. split; [exact Hb |]. split.
  { destruct Hcase as [-> | Hrt]; [nia |]. specialize (Hr Hrt). nia. }
  split.
  { intros HEq. destruct Hcase as [-> | Hrt].
    - replace k with 0 by lia. now rewrite Z.pow_0_r, Z.div_1_r.
    - specialize (Hr Hrt). replace k with 0 in Hr, Hmb by lia.
      rewrite Z.pow_0_r in Hr, Hmb. lia. }
  split; [lia |].
  unfold binary_round_aux. rewrite HR. fold m2.
  destruct (Z.eq_dec m2 (2 ^ 53)) as [H53 | H53].
  - rewrite H53. rewrite shr_fexp_carry by lia. cbn [shr_m].
    change (2 ^ 52) with (Z.pos (2 ^ 52)).
    cbv iota beta. replace (E + 1 <=? 1024 - 53) with true by lia.
    reflexivity.
  - rewrite shr_fexp_settled by lia. cbn [shr_m].
    replace (m2 =? 2 ^ 53) with false by lia.
    destruct m2 as [| p | p]; [reflexivity | | lia].
    replace (E <=? 1024 - 53) with true by lia. reflexivity.
Qed.

Lemma pos_iter_xO (m d : positive) :
  Z.pos (Pos.iter xO m d) = Z.pos m * 2 ^ Z.pos d.
Proof.
  induction d as [| d IH] using Pos.peano_ind.
  - cbn [Pos.iter]. change (2 ^ 1) with 2. lia.
  - rewrite Pos.iter_succ, Pos2Z.inj_succ, Z.pow_succ_r by lia.
    change (Z.pos (Pos.iter xO m d)~0) with (2 * Z.pos (Pos.iter xO m d)).
    rewrite IH. ring.
Qed.

Lemma digits2_pos_unique (m : positive) (k : Z) :
  2 ^ (k - 1) <= Z.pos m < 2 ^ k -> Z.pos (digits2_pos m) = k.
Proof.
  intros [Hlo Hhi].
  pose proof (digits2_pos_le m k Hhi). pose proof (digits2_pos_ge m k Hlo). lia.
Qed.

(** Rounding [m * 2 ** e] to binary64 in the normal range: a 53-bit
    mantissa at the exponent of the leading bit, or one above after a
    carry; nothing is lost when [m] has at most 53 bits. *)
Lemma binary_round_aux_normal (s : bool) (m : positive) (e : Z) :
  let D := Z.pos (digits2_pos m) + e in
  53 <= Z.pos (digits2_pos m) -> -1021 <= D <= 1022 ->
  exists m' e',
    binary_round_aux 53 1024 s (Z.pos m) e loc_Exact = S754_finite s m' e'
    /\ 2 ^ 52 <= Z.pos m' < 2 ^ 53
    /\ D - 53 <= e' <= D - 52
    /\ (Z.pos (digits2_pos m) = 53 -> m' = m /\ e' = e).
Proof.
  intros D Hd HD.
  pose proof (digits2_pos_bounds m) as [Hlo Hhi].
  destruct (binary_round_aux_exact s m e) as (m2 & Hb & _ & Hex & H53 & Hres).
  { rewrite fexp_binary64. fold D. lia. }
  rewrite fexp_binary64 in Hb, Hex, Hres. fold D in Hb, Hex, Hres.
  replace (Z.max e (Z.max (D - 53) (-1074))) with (D - 53) in Hb, Hex, Hres by lia.
  set (k := D - 53 - e) in *.
  assert (Hk : 0 <= k) by (unfold k, D; lia).
  assert (Hp : 0 < 2 ^ k) by (apply Z.pow_pos_nonneg; lia).
  assert (Hq : 2 ^ 52 <= Z.pos m / 2 ^ k).
  { apply Z.div_le_lower_bound; [exact Hp |].
    rewrite <- Z.pow_add_r by lia.
    replace (k + 52) with (Z.pos (digits2_pos m) - 1) by (unfold k, D; lia).
    exact Hlo. }
  rewrite Hres. replace (m2 =? 0) with false by lia.
  destruct (Z.eq_dec m2 (2 ^ 53)) as [Hc | Hc].
  - rewrite Hc. cbn [Z.eqb Pos.eqb Z.pow Z.pow_pos Pos.iter Z.mul Pos.mul].
    do 2 eexists. split; [reflexivity |].
    split; [cbn; lia |]. split; [clear; lia |].
    intros Hd53. assert (Hk0 : D - 53 = e) by (unfold D; lia).
    specialize (Hex Hk0). rewrite Hd53 in Hhi. lia.
  - replace (m2 =? 2 ^ 53) with false by lia.
    do 2 eexists. split; [reflexivity |].
    rewrite Z2Pos.id by lia. split; [lia |]. split; [lia |].
    intros Hd53. assert (Hk0 : D - 53 = e) by (unfold D; lia).
    specialize (Hex Hk0). subst m2. rewrite Pos2Z.id. split; [reflexivity | lia].
Qed.

Lemma binary_round_normal (s : bool) (m : positive) (e : Z) :
  let D := Z.pos (digits2_pos m) + e in
  -1021 <= D <= 1022 ->
  exists m' e',
    binary_round 53 1024 s m e = S754_finite s m' e'
    /\ 2 ^ 52 <= Z.pos m' < 2 ^ 53
    /\ D - 53 <= e' <= D - 52
    /\ (Z.pos (digits2_pos m) <= 53 ->
        e' = D - 53 /\ Z.pos m' = Z.pos m * 2 ^ (e - e')).
Proof.
  intros D HD. unfold binary_round, shl_align.
  rewrite fexp_binary64. fold D.
  replace (Z.max (D - 53) (-1074)) with (D - 53) by lia.
  pose proof (digits2_pos_bounds m) as [Hlo Hhi].
  destruct (D - 53 - e) as [| p | p] eqn:Hn.
  - destruct (binary_round_aux_normal s m e ltac:(unfold D in Hn; lia) HD)
      as (m' & e' & Hres & Hm' & He' & Hex).
    exists m', e'. split; [exact Hres |]. split; [exact Hm' |]. split; [exact He' |].
    intros _. destruct (Hex ltac:(unfold D in Hn; lia)) as [-> ->].
    split; [fold D; lia |]. rewrite Z.sub_diag. cbn. lia.
  - destruct (binary_round_aux_normal s m e ltac:(unfold D in Hn; lia) HD)
      as (m' & e' & Hres & Hm' & He' & Hex).
    exists m', e'. split; [exact Hres |]. split; [exact Hm' |]. split; [exact He' |].
    intros Hle. unfold D in Hn. lia.
  - assert (Hdig : Z.pos (digits2_pos (Pos.iter xO m p)) = 53).
    { apply digits2_pos_unique. rewrite pos_iter_xO.
      assert (Hpp : Z.pos p = 53 - Z.pos (digits2_pos m)) by (unfold D in Hn; lia).
      assert (H52 : 2 ^ (53 - 1) = 2 ^ (Z.pos (digits2_pos m) - 1) * 2 ^ Z.pos p)
        by (rewrite <- Z.pow_add_r by lia; f_equal; lia).
      assert (H53 : 2 ^ 53 = 2 ^ Z.pos (digits2_pos m) * 2 ^ Z.pos p)
        by (rewrite <- Z.pow_add_r by lia; f_equal; lia).
      rewrite H52, H53.
      assert (0 < 2 ^ Z.pos p) by (apply Z.pow_pos_nonneg; lia).
      nia. }
    destruct (binary_round_aux_normal s (Pos.iter xO m p) (D - 53)
                ltac:(lia) ltac:(rewrite Hdig; lia))
      as (m' & e' & Hres & Hm' & He' & Hex).
    rewrite Hdig in He'.
    exists m', e'. split; [exact Hres |]. split; [exact Hm' |]. split; [lia |].
    intros _. destruct (Hex Hdig) as [-> ->]. split; [reflexivity |].
    rewrite pos_iter_xO. f_equal. f_equal. lia.
Qed.

(** An int of at most 53 bits is converted exactly. *)
Lemma float_of_int_exact (z : Z) :
  1 <= z < 2 ^ 53 ->
  exists m e,
    float_of_int z = S754_finite false m e
    /\ 2 ^ 52 <= Z.pos m < 2 ^ 53
    /\ -52 <= e <= 0
    /\ Z.pos m = z * 2 ^ (- e).
Proof.
  intros Hz. destruct z as [| p | p]; try lia.
  unfold float_of_int, binary_normalize.
  pose proof (digits2_pos_le p 53 ltac:(lia)) as Hd.
  assert (Hd1 : 1 <= Z.pos (digits2_pos p)) by lia.
  destruct (binary_round_normal false p 0 ltac:(lia))
    as (m & e & Hres & Hm & He & Hex).
  destruct (Hex Hd) as [He' Hm'].
  exists m, e. split; [exact Hres |]. split; [exact Hm |]. split; [lia |].
  rewrite Hm'. f_equal.
Qed.

Lemma float_value_finite (s : bool) (m : positive) (e : Z) :
  float_value (S754_finite s m e)
  = Some (if 0 <=? e
          then (if s then Qopp (inject_Z (Z.pos m * 2 ^ e))
                else inject_Z (Z.pos m * 2 ^ e))
          else (if s then Qopp (Qmake (Z.pos m) (Z.to_pos (2 ^ (- e))))
                else Qmake (Z.pos m) (Z.to_pos (2 ^ (- e))))).
Proof. unfold float_value. destruct (0 <=? e); reflexivity. Qed.

(** A binary64 number whose value lies in [0, 1). *)
Lemma float_value_unit (x : binary64) (q : Q) :
  valid_binary 53 1024 x = true ->
  float_value x = Some q -> (0 <= q)%Q -> (q < 1)%Q ->
  (exists s, x = S754_zero s)
  \/ exists m e,
       x = S754_finite false m e
       /\ -1074 <= e < 0 /\ Z.pos m < 2 ^ (- e) /\ Z.pos m < 2 ^ 53.
Proof.
  intros Hv Hq H0 H1.
  destruct x as [s | s | | s m e]; try discriminate.
  - left. now exists s.
  - right. rewrite float_value_finite in Hq.
    assert (Hq' : forall a b : Q, Some a = Some b -> b = a) by congruence.
    apply Hq' in Hq. clear Hq'. subst q.
    cbn [valid_binary] in Hv. unfold bounded, canonical_mantissa in Hv.
    apply andb_prop in Hv. destruct Hv as [Hc _].
    apply Z.eqb_eq in Hc. rewrite fexp_binary64 in Hc.
    pose proof (digits2_pos_bounds m) as [_ Hhi].
    assert (Hm53 : Z.pos m < 2 ^ 53).
    { pose proof (Z.pow_le_mono_r 2 (Z.pos (digits2_pos m)) 53 ltac:(lia) ltac:(lia)).
      lia. }
    destruct (0 <=? e) eqn:He.
    + exfalso. apply Z.leb_le in He.
      assert (Hv : 1 <= Z.pos m * 2 ^ e)
        by (pose proof (Z.pow_pos_nonneg 2 e ltac:(lia) He); nia).
      remember (Z.pos m * 2 ^ e) as v eqn:Ev. clear Ev.
      destruct s; unfold Qle, Qlt, Qopp, inject_Z in *; cbn [Qnum Qden] in H0, H1; lia.
    + apply Z.leb_gt in He.
      assert (Hp : 0 < 2 ^ (- e)) by (apply Z.pow_pos_nonneg; lia).
      destruct s; unfold Qle, Qlt, Qopp, inject_Z in *; cbn [Qnum Qden] in H0, H1; [lia |].
      rewrite Z2Pos.id in H1 by exact Hp.
      exists m, e. repeat split; lia.
Qed.

(** Truncation of [m * 2 ** e] stays below a whole number the value is
    below; both sides are compared at a common scale [2 ** s]. *)
Lemma int_of_float_lt (m : positive) (e s K : Z) :
  0 <= s -> 0 <= e + s ->
  Z.pos m * 2 ^ (e + s) < K * 2 ^ s ->
  exists a, int_of_float (S754_finite false m e) = Returns a /\ 0 <= a < K.
Proof.
  intros Hs Hes Hlt. cbn [int_of_float]. eexists. split; [reflexivity |].
  assert (Hps : 0 < 2 ^ s) by (apply Z.pow_pos_nonneg; lia).
  destruct (0 <=? e) eqn:He.
  - apply Z.leb_le in He.
    assert (Hpe : 0 < 2 ^ e) by (apply Z.pow_pos_nonneg; lia).
    rewrite Z.pow_add_r in Hlt by lia. split; [lia | nia].
  - apply Z.leb_gt in He.
    assert (Hpe : 0 < 2 ^ (- e)) by (apply Z.pow_pos_nonneg; lia).
    assert (Hpes : 0 < 2 ^ (e + s)) by (apply Z.pow_pos_nonneg; lia).
    assert (Hsplit : 2 ^ s = 2 ^ (- e) * 2 ^ (e + s))
      by (rewrite <- Z.pow_add_r by lia; f_equal; lia).
    split; [apply Z.div_pos; lia |].
    apply Z.div_lt_upper_bound; [exact Hpe |].
    rewrite Hsplit in Hlt. nia.
Qed.

(** For a binary64 [overlap] in [0, 1) the rounded product
    [nfft * overlap] stays below [nfft]: the stride lies in
    [1, nfft]. *)
Lemma stride64_range (nfft : Z) (overlap : binary64) (q : Q) :
  1 <= nfft < 2 ^ 53 ->
  valid_binary 53 1024 overlap = true ->
  float_value overlap = Some q -> (0 <= q)%Q -> (q < 1)%Q ->
  exists stride, stride64 nfft overlap = Returns stride /\ 1 <= stride <= nfft.
Proof.
  intros Hn Hv Hq H0 H1.
  destruct (float_of_int_exact nfft Hn) as (mn & en & Hfn & Hmn & Hen & Hmn').
  unfold stride64. rewrite Hfn.
  destruct (float_value_unit overlap q Hv Hq H0 H1)
    as [[s ->] | (mo & eo & -> & Heo & Hmo & Hmo53)].
  { cbn [SFmul int_of_float]. exists nfft. split; [f_equal; lia | lia]. }
  cbn [SFmul xorb].
  assert (HM : Z.pos (mn * mo) = Z.pos mn * Z.pos mo) by apply Pos2Z.inj_mul.
  pose proof (digits2_pos_bounds (mn * mo)) as [HdMlo HdMhi].
  assert (HdM : Z.pos (digits2_pos (mn * mo)) <= 106).
  { apply digits2_pos_le. rewrite HM. change (2 ^ 106) with (2 ^ 53 * 2 ^ 53). nia. }
  destruct (binary_round_aux_exact false (mn * mo) (en + eo))
    as (m2 & Hb & Hhalf & Hex & H53 & Hres).
  { rewrite fexp_binary64. lia. }
  rewrite fexp_binary64 in Hb, Hhalf, Hex, Hres.
  set (dM := Z.pos (digits2_pos (mn * mo))) in *.
  set (e := en + eo) in *.
  set (E := Z.max e (Z.max (dM + e - 53) (-1074))) in *.
  set (k := E - e) in *.
  assert (Hk : 0 <= k) by (unfold k, E; lia).
  assert (Hpk : 0 < 2 ^ k) by (apply Z.pow_pos_nonneg; lia).
  set (P := 2 ^ (- eo)) in *.
  assert (HP : 0 < P) by (apply Z.pow_pos_nonneg; lia).
  assert (Hscale : nfft * 2 ^ (- e) = Z.pos mn * P).
  { unfold e, P. replace (- (en + eo)) with (- en + - eo) by lia.
    rewrite Z.pow_add_r by lia. rewrite Hmn'. ring. }
  assert (Hmain : m2 * 2 ^ k < Z.pos mn * P).
  { destruct (Z.eq_dec k 0) as [Hk0 | Hk0].
    - rewrite Hk0, Z.pow_0_r. rewrite (Hex ltac:(unfold k in Hk0; lia)), HM. nia.
    - assert (Hsmall : 2 ^ k < 2 * Z.pos mn * (P - Z.pos mo)).
      { destruct (Z.le_gt_cases (-1074) (dM + e - 53)) as [Hnorm | Hsub].
        + assert (Hk' : k + 52 = dM - 1) by (unfold k, E; lia).
          assert (Hpow : 2 ^ k * 2 ^ 52 <= Z.pos mn * Z.pos mo).
          { rewrite <- Z.pow_add_r, Hk', <- HM by lia. exact HdMlo. }
          assert (Hstep : Z.pos mn * Z.pos mo < Z.pos mn * (2 ^ 53 * (P - Z.pos mo)))
            by (apply Z.mul_lt_mono_pos_l; nia).
          nia.
        + assert (Hk' : k <= 52) by (unfold k, E, e; lia).
          pose proof (Z.pow_le_mono_r 2 k 52 ltac:(lia) Hk'). nia. }
      rewrite HM in Hhalf. nia. }
  rewrite Hres.
  match goal with
  | |- context [int_of_float ?x] =>
      assert (Hfin : exists a, int_of_float x = Returns a /\ 0 <= a < nfft)
  end.
  { assert (Hm2 : 0 <= m2) by (pose proof (Z.div_pos (Z.pos (mn * mo)) (2 ^ k)
                                 ltac:(lia) Hpk); lia).
    destruct (Z.eqb_spec m2 0) as [Hz | Hz].
    - exists 0. split; [reflexivity | lia].
    - destruct (Z.eqb_spec m2 (2 ^ 53)) as [Hc | Hc].
      + apply (int_of_float_lt (2 ^ 52) (E + 1) (- e) nfft); [lia | lia |].
        replace (E + 1 + - e) with (k + 1) by (unfold k; lia).
        rewrite Hscale, Z.pow_add_r by lia.
        rewrite Hc in Hmain. change (2 ^ 53) with (2 ^ 52 * 2) in Hmain.
        change (Z.pos (2 ^ 52)) with (2 ^ 52). change (2 ^ 1) with 2. nia.
      + apply (int_of_float_lt (Z.to_pos m2) E (- e) nfft); [lia | lia |].
        replace (E + - e) with k by (unfold k; lia).
        rewrite Z2Pos.id, Hscale by lia. exact Hmain. }
  destruct Hfin as (a & -> & Ha).
  exists (nfft - a). split; [reflexivity | lia].
Qed.

Lemma shl_align_value (m : positive) (e e' : Z) :
  e' <= e -> Z.pos (fst (shl_align m e e')) = Z.pos m * 2 ^ (e - e').
Proof.
  intros He. unfold shl_align.
  destruct (e' - e) as [| d | d] eqn:Hd; cbn [fst].
  - replace (e - e') with 0 by lia. rewrite Z.pow_0_r. lia.
  - lia.
  - rewrite pos_iter_xO. f_equal. f_equal. lia.
Qed.

(** [1 - overlap] for a binary64 [overlap] in [0, 1): a normal number
    between [2 ** -53] and 1. *)
Lemma one_minus_overlap (overlap : binary64) (q : Q) :
  valid_binary 53 1024 overlap = true ->
  float_value overlap = Some q -> (0 <= q)%Q -> (q < 1)%Q ->
  exists m e,
    SFsub 53 1024 (float_of_int 1) overlap = S754_finite false m e
    /\ 2 ^ 52 <= Z.pos m < 2 ^ 53 /\ -105 <= e <= -52.
Proof.
  intros Hv Hq H0 H1.
  change (float_of_int 1) with (S754_finite false (2 ^ 52) (-52)).
  destruct (float_value_unit overlap q Hv Hq H0 H1)
    as [[s ->] | (mo & eo & -> & Heo & Hmo & Hmo53)].
  { cbn [SFsub]. do 2 eexists. split; [reflexivity |]. cbn. lia. }
  cbn [SFsub cond_Zopp].
  set (ez := Z.min (-52) eo).
  rewrite !shl_align_value by (unfold ez; lia).
  change (Z.pos (2 ^ 52)) with (2 ^ 52).
  rewrite <- Z.pow_add_r by (unfold ez; lia).
  replace (52 + (-52 - ez)) with (- ez) by lia.
  set (A := 2 ^ (- ez)). set (B := Z.pos mo * 2 ^ (eo - ez)).
  assert (HA : 0 < A) by (apply Z.pow_pos_nonneg; unfold ez; lia).
  assert (HBA : B < A).
  { unfold A, B. replace (- ez) with (- eo + (eo - ez)) by lia.
    rewrite Z.pow_add_r by (unfold ez; lia).
    assert (0 < 2 ^ (eo - ez)) by (apply Z.pow_pos_nonneg; unfold ez; lia).
    nia. }
  assert (Hlow : 2 ^ (- ez - 53) <= A - B).
  { destruct (Z.le_gt_cases (-52) eo) as [Hbig | Hsmall].
    - replace (- ez - 53) with (-1) by (unfold ez; lia).
      change (2 ^ (-1)) with 0. lia.
    - assert (Hez : ez = eo) by (unfold ez; lia).
      unfold A, B. rewrite Hez, Z.sub_diag, Z.pow_0_r.
      replace (- eo) with (- eo - 53 + 53) at 2 by lia.
      rewrite Z.pow_add_r by lia.
      assert (1 <= 2 ^ (- eo - 53)) by (apply (Z.pow_le_mono_r 2 0); lia).
      nia. }
  destruct (A - B) as [| p | p] eqn:Hp; try lia.
  cbn [binary_normalize].
  pose proof (digits2_pos_le p (- ez) ltac:(fold A; lia)) as Hdhi.
  pose proof (digits2_pos_ge p (- ez - 52)
                ltac:(replace (- ez - 52 - 1) with (- ez - 53) by lia; exact Hlow))
    as Hdlo.
  destruct (binary_round_normal false p ez ltac:(unfold ez in *; lia))
    as (m & e & Hres & Hm & He & _).
  exists m, e. split; [exact Hres |]. split; [exact Hm |]. unfold ez in *. lia.
Qed.

(** The divisor [nfft * (1 - overlap)] of the segment count: a
    positive normal number, at least [2 ** -53]. *)
Lemma welch_divisor (nfft : Z) (overlap : binary64) (q : Q) :
  1 <= nfft < 2 ^ 53 ->
  valid_binary 53 1024 overlap = true ->
  float_value overlap = Some q -> (0 <= q)%Q -> (q < 1)%Q ->
  exists m e,
    SFmul 53 1024 (float_of_int nfft)
      (SFsub 53 1024 (float_of_int 1) overlap) = S754_finite false m e
    /\ 2 ^ 52 <= Z.pos m < 2 ^ 53 /\ -105 <= e <= 2.
Proof.
  intros Hn Hv Hq H0 H1.
  destruct (float_of_int_exact nfft Hn) as (mn & en & -> & Hmn & Hen & _).
  destruct (one_minus_overlap overlap q Hv Hq H0 H1) as (m1 & e1 & -> & Hm1 & He1).
  cbn [SFmul xorb].
  assert (HM : Z.pos (mn * m1) = Z.pos mn * Z.pos m1) by apply Pos2Z.inj_mul.
  pose proof (digits2_pos_le (mn * m1) 106
                ltac:(rewrite HM; change (2 ^ 106) with (2 ^ 53 * 2 ^ 53); nia)) as Hdhi.
  pose proof (digits2_pos_ge (mn * m1) 105
                ltac:(rewrite HM; change (2 ^ (105 - 1)) with (2 ^ 52 * 2 ^ 52); nia))
    as Hdlo.
  destruct (binary_round_aux_normal false (mn * m1) (en + e1) ltac:(lia) ltac:(lia))
    as (m & e & Hres & Hm & He & _).
  exists m, e. split; [exact Hres |]. split; [exact Hm |]. lia.
Qed.

Lemma float_of_int_value (z : Z) :
  0 <= z < 2 ^ 53 ->
  exists qa,
    float_value (float_of_int z) = Some qa
    /\ (0 <= qa)%Q /\ (qa <= inject_Z (2 ^ 53))%Q.
Proof.
  intros Hz. destruct (Z.eq_dec z 0) as [-> | Hnz].
  { exists (inject_Z 0). split; [reflexivity |]. split; [apply Qle_refl |].
    unfold Qle, inject_Z. cbn [Qnum Qden]. lia. }
  destruct (float_of_int_exact z ltac:(lia)) as (m & e & -> & Hm & He & Hmz).
  rewrite float_value_finite. eexists. split; [reflexivity |].
  destruct (0 <=? e) eqn:Hle.
  - apply Z.leb_le in Hle. replace e with 0 by lia. rewrite Z.pow_0_r, Z.mul_1_r.
    unfold Qle, inject_Z. cbn [Qnum Qden]. lia.
  - assert (Hp : 0 < 2 ^ (- e)) by (apply Z.pow_pos_nonneg; lia).
    unfold Qle, inject_Z. cbn [Qnum Qden]. rewrite Z2Pos.id by exact Hp. nia.
Qed.

(** The quotient of the segment count: the dividend is below
    [2 ** 53] and the divisor at least [2 ** -53]. *)
Lemma floor_quotient_bounds (qa : Q) (m : positive) (e : Z) :
  (0 <= qa)%Q -> (qa <= inject_Z (2 ^ 53))%Q ->
  2 ^ 52 <= Z.pos m -> -105 <= e ->
  exists qb,
    float_value (S754_finite false m e) = Some qb
    /\ 0 <= Qfloor (Qdiv qa qb) <= 2 ^ 106.
Proof.
  intros Ha0 Ha1 Hm He. rewrite float_value_finite. eexists. split; [reflexivity |].
  set (qb := if 0 <=? e then inject_Z (Z.pos m * 2 ^ e)
             else Qmake (Z.pos m) (Z.to_pos (2 ^ (- e)))).
  assert (Hqb : (0 < qb)%Q /\ (inject_Z 1 <= qb * inject_Z (2 ^ 53))%Q).
  { unfold qb. destruct (0 <=? e) eqn:Hle.
    - apply Z.leb_le in Hle.
      assert (0 < 2 ^ e) by (apply Z.pow_pos_nonneg; lia).
      unfold Qlt, Qle, Qmult, inject_Z. cbn [Qnum Qden Pos.mul]. split; nia.
    - apply Z.leb_gt in Hle.
      assert (Hp : 0 < 2 ^ (- e)) by (apply Z.pow_pos_nonneg; lia).
      pose proof (Z.pow_le_mono_r 2 (- e) 105 ltac:(lia) ltac:(lia)) as Hpe.
      change (2 ^ 105) with (2 ^ 52 * 2 ^ 53) in Hpe.
      unfold Qlt, Qle, Qmult, inject_Z. cbn [Qnum Qden].
      rewrite Pos.mul_1_r, Z2Pos.id by exact Hp. split; nia. }
  destruct Hqb as [Hpos Hlow]. clearbody qb.
  split.
  - rewrite <- (Qfloor_Z 0). apply Qfloor_resp_le.
    apply Qle_shift_div_l; [exact Hpos |]. rewrite Qmult_0_l. exact Ha0.
  - rewrite <- (Qfloor_Z (2 ^ 106)). apply Qfloor_resp_le.
    apply Qle_shift_div_r; [exact Hpos |].
    destruct qa as [na da], qb as [nb db].
    unfold Qlt, Qle, Qmult, inject_Z in *. cbn [Qnum Qden] in *.
    rewrite ?Pos.mul_1_r, ?Z.mul_1_r, ?Z.mul_1_l in *.
    change (2 ^ 106) with (2 ^ 53 * 2 ^ 53).
    rewrite Pos2Z.inj_mul.
    assert (Hs1 : na * Z.pos db <= 2 ^ 53 * Z.pos da * Z.pos db) by nia.
    assert (Hs2 : 2 ^ 53 * Z.pos da * Z.pos db <= 2 ^ 53 * Z.pos da * (nb * 2 ^ 53)) by nia.
    nia.
Qed.

Lemma int_of_float_ge_1 (m : positive) (e : Z) :
  2 ^ 52 <= Z.pos m -> -52 <= e ->
  exists a, int_of_float (S754_finite false m e) = Returns a /\ 1 <= a.
Proof.
  intros Hm He. cbn [int_of_float]. eexists. split; [reflexivity |].
  destruct (0 <=? e) eqn:Hle.
  - apply Z.leb_le in Hle.
    assert (0 < 2 ^ e) by (apply Z.pow_pos_nonneg; lia). nia.
  - apply Z.leb_gt in Hle.
    assert (Hp : 0 < 2 ^ (- e)) by (apply Z.pow_pos_nonneg; lia).
    pose proof (Z.pow_le_mono_r 2 (- e) 52 ltac:(lia) ltac:(lia)).
    apply Z.div_le_lower_bound; lia.
Qed.

(** For [nfft <= n] and a binary64 [overlap] in [0, 1) the segment
    count of the first lines of [welch] is computed without error and
    is at least one. *)
Lemma declared_nsegs64_returns (n nfft : Z) (overlap : binary64) (q : Q) :
  1 <= nfft <= n -> n < 2 ^ 53 ->
  valid_binary 53 1024 overlap = true ->
  float_value overlap = Some q -> (0 <= q)%Q -> (q < 1)%Q ->
  exists nsegs, declared_nsegs64 n nfft overlap = Returns nsegs /\ 1 <= nsegs.
Proof.
  intros Hn Hn53 Hv Hq H0 H1. unfold declared_nsegs64.
  destruct (welch_divisor nfft overlap q ltac:(lia) Hv Hq H0 H1)
    as (m & e & -> & Hm & He).
  destruct (float_of_int_value (n - nfft) ltac:(lia)) as (qa & Hqa & Ha0 & Ha1).
  destruct (floor_quotient_bounds qa m e Ha0 Ha1 ltac:(lia) ltac:(lia))
    as (qb & Hqb & Hz).
  unfold py_floordiv. rewrite Hqa, Hqb. cbv zeta.
  change (float_of_int 1) with (S754_finite false (2 ^ 52) (-52)).
  destruct (Z.eqb_spec (Qfloor (Qdiv qa qb)) 0) as [Hz0 | Hz0].
  { cbn [SFadd]. apply int_of_float_ge_1; [cbn; lia | lia]. }
  destruct (Qfloor (Qdiv qa qb)) as [| p | p]; try lia.
  unfold float_of_int, binary_normalize.
  pose proof (digits2_pos_le p 107 ltac:(change (2 ^ 107) with (2 * 2 ^ 106); lia))
    as Hdp.
  destruct (binary_round_normal false p 0 ltac:(lia))
    as (mq & eq & -> & Hmq & Heq & _).
  cbn [SFadd cond_Zopp].
  replace (Z.min eq (-52)) with (-52) by lia.
  rewrite !shl_align_value by lia.
  change (Z.pos (2 ^ 52)) with (2 ^ 52). rewrite Z.sub_diag, Z.pow_0_r, Z.mul_1_r.
  assert (Hpe : 0 < 2 ^ (eq - -52)) by (apply Z.pow_pos_nonneg; lia).
  pose proof (Z.pow_le_mono_r 2 (eq - -52) 107 ltac:(lia) ltac:(lia)) as Hpe'.
  destruct (Z.pos mq * 2 ^ (eq - -52) + 2 ^ 52) as [| s | s] eqn:Hs; try lia.
  cbn [binary_normalize].
  pose proof (digits2_pos_le s 161
                ltac:(change (2 ^ 161) with (2 * (2 ^ 53 * 2 ^ 107)); nia)) as Hshi.
  pose proof (digits2_pos_ge s 53 ltac:(change (2 ^ (53 - 1)) with (2 ^ 52); nia))
    as Hslo.
  destruct (binary_round_normal false s (-52) ltac:(lia))
    as (m' & e' & -> & Hm' & He' & _).
  apply int_of_float_ge_1; lia.
Qed.

Section Welch64Facts.
Context {A C P : Type} {lib : SignalLib A C P}.

(** Once the first lines of [welch] have gone through and the stride
    they computed lies in [1, nfft], the estimates are the periodograms
    of the complete windows of the signal at that stride, in order. *)
Lemma welch64_windows (pro : Producer A) (fs nfft : Z) (window : string)
  (overlap : binary64) (detrend scaling : string) (stride nsegs : Z) :
  scaling = "spectrum"%string \/ scaling = "density"%string ->
  0 < chunksize pro -> 1 <= nfft -> fs <> 0 ->
  stride64 nfft overlap = Returns stride -> 1 <= stride <= nfft ->
  declared_nsegs64 (shape pro) nfft overlap = Returns nsegs ->
  exists ests w,
    welch64 pro fs nfft window overlap detrend scaling
    = Returns (mkSpectra64 (rfftfreq nfft (Qinv (inject_Z fs))) nsegs
                           (Returns (SDone ests)))
    /\ complete_windows nfft stride (length (data pro)) w
    /\ length ests = w
    /\ forall k e,
        nth_error ests k = Some e ->
        periodogram (window_at nfft stride (data pro) k)
                    fs (Some nfft) window detrend scaling = Ok e.
Proof.
  intros Hsc Hc Hn Hfs Hstride Hs Hdecl.
  unfold welch64, _spectra_estimatives64. rewrite Hstride, Hdecl.
  replace (fs =? 0) with false by lia.
  replace (nfft =? 0) with false by lia.
  cbn [orb].
  destruct (iterate_concat pro Hc) as (arrs & -> & Hcat).
  set (func := fun x : list A => periodogram x fs (Some nfft) window detrend scaling).
  set (est := fun x : list A =>
                match func x with Ok y => y | Err _ => ([], []) end).
  assert (Hok : forall x, zlen x = nfft -> func x = Ok (est x)).
  { intros x _. unfold est.
    destruct (periodogram_total x fs nfft window detrend scaling Hn Hsc)
      as [y Hy]. unfold func. now rewrite Hy. }
  destruct (estimate_loop_windows nfft stride func est Hs Hok arrs [] 0%nat)
    as (w & Hloop & Hcw).
  cbn [app] in Hloop, Hcw. rewrite Hcat in Hloop, Hcw.
  rewrite Hloop. eexists. exists w. split; [reflexivity |].
  split; [exact Hcw |]. split; [now rewrite length_map, length_seq |].
  intros k e Hk. rewrite nth_error_map, nth_error_seq in Hk.
  destruct (k <? w)%nat; [| discriminate].
  cbn in Hk. injection Hk as <-.
  unfold est.
  destruct (periodogram_total (window_at nfft stride (data pro) k)
              fs nfft window detrend scaling Hn Hsc) as [y Hy].
  unfold func. now rewrite Hy.
Qed.

End Welch64Facts.



(** ** STFT padding *)

(** C4 at [nfft = 8], [overlap = 1/4] (stride 6), [N = 12],
    [boundary=False], [padded=True]: 12 is a multiple of the stride, so
    nothing is appended; the only window that fits is samples 0..7 and
    [stft] emits one estimate; samples 8..11 (values 9..12 of the ramp)
    are in no segment.  With [boundary=True] the same happens at
    [nfft = 7], [overlap = 0], [N = 14]: the last three samples (values
    12..14) are in no segment. *)
Theorem stft_padded_drops_tail :
  @stft_data Z Z Z eval_lib (mkProducer (ramp 12) (-1) 5) 8 (1 # 4)%Q false true
  = Ok (mkProducer (ramp 12) (-1) 5)
  /\ segments (mkProducer (ramp 12) (-1) 5) 8 (1 # 4)%Q
     = SDone [[1; 2; 3; 4; 5; 6; 7; 8]]
  /\ (exists s e,
        @stft Z Z Z eval_lib (mkProducer (ramp 12) (-1) 5) 100 8 "hann" (1 # 4)%Q
              "constant" "density" false true = Ok s
        /\ sp_result s = SDone [e])
  /\ ~ In 9 (concat [[1; 2; 3; 4; 5; 6; 7; 8]])
  /\ ~ In 12 (concat [[1; 2; 3; 4; 5; 6; 7; 8]])
  /\ (exists d,
        @stft_data Z Z Z eval_lib (mkProducer (ramp 14) (-1) 5) 7 (0 # 1)%Q true true
        = Ok d
        /\ data d = [0; 0; 0] ++ ramp 14 ++ [0; 0; 0]
        /\ segments d 7 (0 # 1)%Q
           = SDone [[0; 0; 0; 1; 2; 3; 4]; [5; 6; 7; 8; 9; 10; 11]]
        /\ ~ In 12 (concat [[0; 0; 0; 1; 2; 3; 4]; [5; 6; 7; 8; 9; 10; 11]])).
Proof.
  split; [vm_compute; reflexivity |].
  split; [vm_compute; reflexivity |].
  split; [do 2 eexists; split; vm_compute; reflexivity |].
  assert (Hnotin : forall (x : Z) (l : list Z),
             forallb (fun y => negb (y =? x)) l = true -> ~ In x l).
  { intros x l Hall Hin. rewrite forallb_forall in Hall.
    specialize (Hall x Hin). rewrite Z.eqb_refl in Hall. discriminate. }
  split; [apply Hnotin; reflexivity |].
  split; [apply Hnotin; reflexivity |].
  eexists. split; [vm_compute; reflexivity |].
  split; [reflexivity |].
  split; [vm_compute; reflexivity |].
  apply Hnotin. reflexivity.
Qed.

(** ** When a bad configuration is reported *)

Lemma ceil_div_ge_2 (a b : Z) : 0 < b -> b < a -> 2 <= ceil_div a b.
Proof.
  intros Hb Hab. pose proof (ceil_div_bounds a b Hb) as Hbd.
  destruct (Z_lt_le_dec (ceil_div a b) 2) as [Hlt | Hge]; [nia | exact Hge].
Qed.

Lemma _oa_mode_invalid (segment : list Z) (idx win_len : Z) (mode : string) :
  mode <> "full"%string -> mode <> "same"%string -> mode <> "valid"%string ->
  _oa_mode segment idx win_len mode = Err ValueError.
Proof.
  intros Hf Hs Hv. unfold _oa_mode.
  apply String.eqb_neq in Hf, Hs, Hv. now rewrite Hf, Hs, Hv.
Qed.

(** With an unknown mode and a signal longer than one block, the first
    [next] pulls the first block, convolves it and only then fails. *)
Lemma oa_invalid_mode_first_next (pro : Producer Z) (win : list Z) (mode : string) :
  mode <> "full"%string -> mode <> "same"%string -> mode <> "valid"%string ->
  1 <= zlen win -> oa_L win < shape pro ->
  oa_next pro win mode Created
  = mkStep (set_chunksize pro (oa_L win)) Closed
           (Some (firstn (Z.to_nat (oa_L win)) (data pro))) (Raise ValueError).
Proof.
  intros Hf Hs Hv HM HN.
  pose proof (optimal_nffts_lower win HM) as Hnfft.
  pose proof (oa_L_lower win HM) as HL.
  cbn [oa_next].
  replace (optimal_nffts win <? 1) with false by lia.
  replace (oa_L win =? 0) with false by lia.
  unfold oa_iterate, producer_next.
  cbn [it_pos segment_num new_overlap overlap isize data chunksize set_chunksize skipn].
  unfold shape, zlen in HN.
  replace (length (data pro) <=? 0)%nat with false
    by (symmetry; apply Nat.leb_gt; lia).
  replace (oa_L win <=? 0) with false by lia.
  rewrite oa_nsegments_set_chunksize.
  assert (Hseg : 2 <= oa_nsegments pro win).
  { unfold oa_nsegments. apply ceil_div_ge_2; [lia | unfold shape, zlen; lia]. }
  replace (0 <? oa_nsegments pro win - 1) with true by lia.
  cbn [orb Z.eqb]. now rewrite _oa_mode_invalid.
Qed.

Section LateScalingCheck.
Context {A B : Type}.
Variables nfft stride : Z.
Variable func : list A -> result B.
Variable e : exn.
Hypothesis func_err : forall x, func x = Err e.

(** With an estimator that rejects every window, the loop yields
    nothing and fails as soon as [nfft] samples are buffered: one chunk
    at least has been pulled by then. *)
Lemma estimate_loop_raises :
  forall (arrs : list (list A)) (q : list A) (npulled : nat),
    nfft <= zlen (q ++ concat arrs) ->
    exists k,
      estimate_loop nfft func arrs (mkFIFO q stride) npulled = SRaised [] e k
      /\ (npulled <= k)%nat
      /\ (zlen q < nfft -> (npulled < k)%nat).
Proof.
  induction arrs as [| arr rest IH]; intros q npulled Hlen.
  - cbn [concat] in Hlen. rewrite app_nil_r in Hlen.
    cbn [estimate_loop drain queue]. unfold qsize. cbn [queue].
    replace (nfft <=? zlen q) with true by lia.
    rewrite func_err. exists npulled. split; [reflexivity |]. split; lia.
  - cbn [estimate_loop drain queue]. unfold qsize. cbn [queue].
    destruct (nfft <=? zlen q) eqn:Hfit.
    + rewrite func_err. exists (S npulled). split; [reflexivity |]. split; lia.
    + unfold fifo_put. cbn [queue fifo_chunksize].
      destruct (IH (q ++ arr) (S npulled)) as (k & Hk & Hle & _).
      { cbn [concat] in Hlen. now rewrite <- app_assoc. }
      rewrite Hk. cbn [syield app]. exists k. split; [reflexivity |]. split; lia.
Qed.
End LateScalingCheck.

Lemma modified_dft_bad_scaling {A C P : Type} {lib : SignalLib A C P}
  (x : list A) (fs nfft : Z) (window detrend scaling : string) :
  scaling <> "spectrum"%string -> scaling <> "density"%string ->
  modified_dft x fs nfft window detrend scaling = Err ValueError.
Proof.
  intros Hs Hd. unfold modified_dft.
  apply String.eqb_neq in Hs, Hd. rewrite Hs, Hd.
  now destruct (nfft <? 1).
Qed.

Lemma periodogram_bad_scaling {A C P : Type} {lib : SignalLib A C P}
  (x : list A) (fs : Z) (nfft : option Z) (window detrend scaling : string) :
  scaling <> "spectrum"%string -> scaling <> "density"%string ->
  periodogram x fs nfft window detrend scaling = Err ValueError.
Proof.
  intros Hs Hd. unfold periodogram. now rewrite modified_dft_bad_scaling.
Qed.


Section ConfigurationErrors.
Context {A C P : Type} {lib : SignalLib A C P}.

Lemma spectra_raises {B : Type} (pro : Producer A) (nfft : Z) (overlap : Q)
  (func : list A -> result B) (e : exn) :
  (forall x, func x = Err e) ->
  0 < chunksize pro -> 1 <= nfft <= shape pro ->
  exists k,
    _spectra_estimatives pro nfft overlap func = SRaised [] e k /\ (1 <= k)%nat.
Proof.
  intros Herr Hc Hn. unfold _spectra_estimatives.
  destruct (iterate_concat pro Hc) as (arrs & -> & Hcat).
  destruct (estimate_loop_raises nfft (stride_of nfft overlap) func e
              Herr arrs [] 0%nat) as (k & Hk & _ & Hlt).
  { cbn [app]. rewrite Hcat. apply Hn. }
  exists k. split; [exact Hk |].
  specialize (Hlt ltac:(cbn; lia)). lia.
Qed.

End ConfigurationErrors.


(** ** Overlap-add against the whole-signal convolution *)

Lemma ceil_div_one_block (a b : Z) : 1 <= a <= b -> ceil_div a b = 1.
Proof.
  intros Hab. pose proof (ceil_div_bounds a b ltac:(lia)) as Hbd.
  destruct (Z_lt_le_dec (ceil_div a b) 1) as [Hlt | Hge]; [nia |].
  destruct (Z_lt_le_dec 1 (ceil_div a b)) as [Hgt | Hle]; [nia | lia].
Qed.

(** A signal that fits in one block: the only segment is the last one,
    its branch does not bind [new_overlap], and [overlap = new_overlap]
    fails before anything is yielded, whatever the mode. *)
Lemma oaconvolve_single_block_crashes (pro : Producer Z) (win : list Z)
  (mode : string) :
  1 <= zlen win -> 1 <= shape pro <= oa_L win ->
  oaconvolve pro win mode
  = Crashed (set_chunksize pro (oa_L win)) [] UnboundLocalError.
Proof.
  intros HM HN.
  pose proof (optimal_nffts_lower win HM) as Hnfft.
  unfold oaconvolve. cbn [oa_run oa_next].
  replace (optimal_nffts win <? 1) with false by lia.
  replace (oa_L win =? 0) with false by lia.
  unfold oa_iterate, producer_next.
  cbn [it_pos segment_num new_overlap overlap isize data chunksize set_chunksize skipn].
  unfold shape, zlen in HN.
  replace (length (data pro) <=? 0)%nat with false
    by (symmetry; apply Nat.leb_gt; lia).
  replace (oa_L win <=? 0) with false by lia.
  rewrite oa_nsegments_set_chunksize.
  unfold oa_nsegments. rewrite ceil_div_one_block by (unfold shape, zlen; lia).
  cbn [Z.sub Z.add Z.opp Z.ltb Z.compare Z.pos_sub st_event st_pro]. reflexivity.
Qed.

(** C2 on the code: for the even kernel length [M = 2] and [N = 16],
    mode ['same'] yields 17 samples where the claim has 16, while
    ['full'] and ['valid'] yield [N + M - 1 = 17] and [N - M + 1 = 15];
    and a signal of 3 samples, which fits in one block of 15, yields
    nothing in any mode: the iteration ends in [UnboundLocalError]. *)
Theorem oaconvolve_lengths_at_even_kernel :
  out_len (oaconvolve (mkProducer (ramp 16) (-1) 5) [1; 1] "same") = Some 17
  /\ out_len (oaconvolve (mkProducer (ramp 16) (-1) 5) [1; 1] "full") = Some 17
  /\ out_len (oaconvolve (mkProducer (ramp 16) (-1) 5) [1; 1] "valid") = Some 15
  /\ option_map zlen (convolve (ramp 16) [1; 1] "same") = Some 16
  /\ (forall mode,
        oaconvolve (mkProducer (ramp 3) (-1) 5) [1; 1] mode
        = Crashed (mkProducer (ramp 3) (-1) 15) [] UnboundLocalError).
Proof.
  repeat (split; [vm_compute; reflexivity |]).
  intros mode.
  apply (oaconvolve_single_block_crashes (mkProducer (ramp 3) (-1) 5) [1; 1] mode);
    [vm_compute; discriminate | vm_compute; split; discriminate].
Qed.

(** C1 on the code: with the kernel [[1; 1]] and mode ['same'] the
    concatenated segments of a 16 sample ramp are the 17 samples
    [3, 5, ..., 31, 16], while the convolution of the whole signal under
    ['same'] is the 16 samples [1, 3, ..., 31]; and on a 3 sample signal
    the iteration yields nothing and ends in [UnboundLocalError]. *)
Theorem oaconvolve_differs_from_whole_convolution :
  (exists ys ref,
      oaconvolve (mkProducer (ramp 16) (-1) 5) [1; 1] "same"
      = Completed (mkProducer (ramp 16) (-1) 5) ys
      /\ convolve (ramp 16) [1; 1] "same" = Some ref
      /\ concat ys = [1; 3; 5; 7; 9; 11; 13; 15; 17; 19; 21; 23; 25; 27; 29; 31; 16]
      /\ ref = [1; 3; 5; 7; 9; 11; 13; 15; 17; 19; 21; 23; 25; 27; 29; 31]
      /\ concat ys <> ref)
  /\ oaconvolve (mkProducer [1; 2; 3] (-1) 5) [1; 1] "full"
     = Crashed (mkProducer [1; 2; 3] (-1) 15) [] UnboundLocalError
  /\ convolve [1; 2; 3] [1; 1] "full" = Some [1; 3; 5; 3].
Proof.
  split; [| split; vm_compute; reflexivity].
  do 2 eexists.
  split; [vm_compute; reflexivity |].
  split; [vm_compute; reflexivity |].
  split; [vm_compute; reflexivity |].
  split; [reflexivity | discriminate].
Qed.

(** *** Sums and the whole-signal convolution *)

Lemma zsum_app (l1 l2 : list Z) : zsum (l1 ++ l2) = zsum l1 + zsum l2.
Proof.
  induction l1 as [| x l1 IH]; [reflexivity |].
  cbn [app zsum fold_right] in *. fold (zsum (l1 ++ l2)). fold (zsum l1).
  rewrite IH. ring.
Qed.

Lemma zsum_map_zero {X : Type} (f : X -> Z) (l : list X) :
  (forall x, In x l -> f x = 0) -> zsum (map f l) = 0.
Proof.
  induction l as [| x l IH]; intros Hz; [reflexivity |].
  cbn [map zsum fold_right]. fold (zsum (map f l)).
  rewrite IH by (intros y Hy; apply Hz; now right).
  rewrite (Hz x) by now left. reflexivity.
Qed.

(** The convolution of a concatenation splits into the convolutions of
    its parts, the second shifted by the length of the first. *)
Lemma conv_at_app (a1 a2 v : list Z) (k : nat) :
  conv_at (a1 ++ a2) v k
  = conv_at a1 v k
    + (if (length a1 <=? k)%nat then conv_at a2 v (k - length a1) else 0).
Proof.
  unfold conv_at. rewrite length_app, seq_app, map_app, zsum_app. f_equal.
  - f_equal. apply map_ext_in. intros j Hj. apply in_seq in Hj.
    now rewrite app_nth1 by lia.
  - cbn [Nat.add]. rewrite map_seq_offset.
    destruct (length a1 <=? k)%nat eqn:Hk.
    + apply Nat.leb_le in Hk. f_equal. apply map_ext_in. intros j Hj.
      rewrite app_nth2 by lia.
      replace (length a1 + j - length a1)%nat with j by lia.
      replace (k - (length a1 + j))%nat with (k - length a1 - j)%nat by lia.
      destruct (j <=? k - length a1)%nat eqn:Hjk.
      * apply Nat.leb_le in Hjk.
        replace (length a1 + j <=? k)%nat with true
          by (symmetry; apply Nat.leb_le; lia).
        reflexivity.
      * apply Nat.leb_gt in Hjk.
        replace (length a1 + j <=? k)%nat with false
          by (symmetry; apply Nat.leb_gt; lia).
        reflexivity.
    + apply Nat.leb_gt in Hk. apply zsum_map_zero. intros j Hj.
      replace (length a1 + j <=? k)%nat with false
        by (symmetry; apply Nat.leb_gt; lia).
      reflexivity.
Qed.

(** Past the last overlap of signal and kernel the convolution is zero. *)
Lemma conv_at_vanish (a v : list Z) (k : nat) :
  (length a + length v <= k + 1)%nat -> conv_at a v k = 0.
Proof.
  intros Hk. unfold conv_at. apply zsum_map_zero. intros j Hj.
  apply in_seq in Hj.
  destruct (j <=? k)%nat; [| reflexivity].
  rewrite (nth_overflow v) by lia. ring.
Qed.

Lemma nth_fit (n : nat) (x : list Z) (j : nat) :
  (j < n)%nat -> nth j (fit n x) 0 = nth j x 0.
Proof.
  intros Hj. unfold fit.
  destruct (Nat.lt_ge_cases j (length (firstn n x))) as [Hin | Hout].
  - rewrite app_nth1 by exact Hin. rewrite nth_firstn.
    now replace (j <? n)%nat with true by (symmetry; apply Nat.ltb_lt; lia).
  - rewrite app_nth2 by lia. rewrite nth_repeat.
    rewrite length_firstn in Hout. symmetry. apply nth_overflow. lia.
Qed.

Lemma nth_pad_right (b : list Z) (amt : Z) (j : nat) :
  nth j (pad_right b amt) 0 = nth j b 0.
Proof.
  unfold pad_right.
  destruct (Nat.lt_ge_cases j (length b)) as [Hin | Hout].
  - now rewrite app_nth1.
  - rewrite app_nth2 by lia. rewrite nth_repeat.
    symmetry. now apply nth_overflow.
Qed.

(** A block and the kernel that fit in one period together: the circular
    convolution is the linear one, nothing wraps around. *)
Lemma circ_conv_linear (n : nat) (b h : list Z) (amt : Z) :
  (length b + length h <= n + 1)%nat -> (1 <= length h)%nat ->
  circ_conv n (pad_right b amt) h = map (conv_at b h) (seq 0 n).
Proof.
  intros Hfit Hh. unfold circ_conv. apply map_ext_in. intros k Hk.
  apply in_seq in Hk. unfold conv_at.
  assert (Hn : n = (length b + (n - length b))%nat) by lia.
  rewrite Hn at 1. rewrite seq_app, map_app, zsum_app.
  rewrite (zsum_map_zero _ (seq (0 + length b) (n - length b))).
  - rewrite Z.add_0_r. f_equal. apply map_ext_in. intros j Hj.
    apply in_seq in Hj.
    rewrite nth_fit by lia. rewrite nth_pad_right.
    destruct (j <=? k)%nat eqn:Hjk.
    + apply Nat.leb_le in Hjk.
      replace ((k + n - j) mod n)%nat with (k - j)%nat.
      * rewrite nth_fit by lia. reflexivity.
      * replace (k + n - j)%nat with ((k - j) + 1 * n)%nat by lia.
        rewrite Nat.Div0.mod_add. symmetry. apply Nat.mod_small. lia.
    + apply Nat.leb_gt in Hjk.
      rewrite Nat.mod_small by lia.
      rewrite nth_fit by lia.
      rewrite (nth_overflow h) by lia. ring.
  - intros j Hj. apply in_seq in Hj.
    rewrite nth_fit by lia. rewrite nth_pad_right.
    rewrite (nth_overflow b) by lia. ring.
Qed.

Lemma nth_map_seq (f : nat -> Z) (start len k : nat) :
  (k < len)%nat -> nth k (map f (seq start len)) 0 = f (start + k)%nat.
Proof.
  intros Hk. apply nth_error_nth.
  rewrite nth_error_map, nth_error_seq.
  now replace (k <? len)%nat with true by (symmetry; apply Nat.ltb_lt; lia).
Qed.

Lemma nth_convolve_full (a v : list Z) (k : nat) :
  nth k (convolve_full a v) 0 = conv_at a v k.
Proof.
  unfold convolve_full.
  destruct (Nat.lt_ge_cases k (length a + length v - 1)) as [Hin | Hout].
  - now rewrite nth_map_seq.
  - rewrite nth_overflow by (rewrite length_map, length_seq; lia).
    symmetry. apply conv_at_vanish. lia.
Qed.

Lemma length_convolve_full (a v : list Z) :
  length (convolve_full a v) = (length a + length v - 1)%nat.
Proof. unfold convolve_full. now rewrite length_map, length_seq. Qed.

Lemma length_add_prefix (o y : list Z) : length (add_prefix o y) = length y.
Proof.
  revert y. induction o as [| x o IH]; intros [| v y]; cbn [add_prefix length];
    try reflexivity.
  now rewrite IH.
Qed.

Lemma nth_add_prefix (o y : list Z) (k : nat) :
  (length o <= length y)%nat ->
  nth k (add_prefix o y) 0 = nth k y 0 + nth k o 0.
Proof.
  revert y k. induction o as [| x o IH]; intros y k Hlen.
  - cbn [add_prefix]. destruct k; cbn [nth]; ring.
  - destruct y as [| v y]; [cbn [length] in Hlen; lia |].
    cbn [add_prefix]. destruct k as [| k]; cbn [nth]; [reflexivity |].
    apply IH. cbn [length] in Hlen. lia.
Qed.

(** In a signal cut as [pre ++ bp ++ b ++ post] with [bp] at least as
    long as the kernel's reach, a convolution value over [b] takes its
    terms from [bp] and [b] only, as long as [post] is out of reach. *)
Lemma conv_at_two_blocks (pre bp b post v : list Z) (k : nat) :
  (length v <= length bp + 1)%nat ->
  post = [] \/ (k < length b)%nat ->
  conv_at (pre ++ bp ++ b ++ post) v (length pre + length bp + k)
  = conv_at b v k + conv_at bp v (length bp + k).
Proof.
  intros Hv Hpost.
  rewrite conv_at_app.
  rewrite (conv_at_vanish pre) by lia.
  replace (length pre <=? length pre + length bp + k)%nat with true
    by (symmetry; apply Nat.leb_le; lia).
  replace (length pre + length bp + k - length pre)%nat
    with (length bp + k)%nat by lia.
  rewrite conv_at_app.
  replace (length bp <=? length bp + k)%nat with true
    by (symmetry; apply Nat.leb_le; lia).
  replace (length bp + k - length bp)%nat with k by lia.
  rewrite conv_at_app.
  assert (Hp : (if (length b <=? k)%nat
                then conv_at post v (k - length b) else 0) = 0).
  { destruct Hpost as [-> | Hk].
    - destruct (length b <=? k)%nat; reflexivity.
    - now replace (length b <=? k)%nat with false
        by (symmetry; apply Nat.leb_gt; lia). }
  rewrite Hp. ring.
Qed.

Lemma conv_at_first_block (b post v : list Z) (k : nat) :
  (k < length b)%nat -> conv_at (b ++ post) v k = conv_at b v k.
Proof.
  intros Hk. rewrite conv_at_app.
  replace (length b <=? k)%nat with false by (symmetry; apply Nat.leb_gt; lia).
  ring.
Qed.

(** The cut of a signal around its blocks [i - 1] and [i]. *)
Lemma oa_block_cut (a : list Z) (L i : nat) :
  (1 <= i)%nat ->
  a = firstn ((i - 1) * L) a ++ oa_block a L (i - 1) ++ oa_block a L i
      ++ skipn ((i + 1) * L) a.
Proof.
  intros Hi. unfold oa_block.
  rewrite <- (firstn_skipn ((i - 1) * L) a) at 1. f_equal.
  rewrite <- (firstn_skipn L (skipn ((i - 1) * L) a)) at 1. f_equal.
  rewrite skipn_skipn.
  replace (L + (i - 1) * L)%nat with (i * L)%nat by nia.
  rewrite <- (firstn_skipn L (skipn (i * L) a)) at 1. f_equal.
  rewrite skipn_skipn. f_equal. lia.
Qed.

Lemma length_oa_block (a : list Z) (L i : nat) :
  length (oa_block a L i) = Nat.min L (length a - i * L).
Proof. unfold oa_block. now rewrite length_firstn, length_skipn. Qed.

Lemma firstn_seq (n start len : nat) :
  firstn n (seq start len) = seq start (Nat.min n len).
Proof.
  revert n start. induction len as [| len IH]; intros n start.
  - rewrite Nat.min_0_r. apply firstn_nil.
  - destruct n as [| n]; [reflexivity |].
    cbn [seq firstn Nat.min]. now rewrite IH.
Qed.

Lemma skipn_seq (n start len : nat) :
  skipn n (seq start len) = seq (start + n) (len - n).
Proof.
  revert n start. induction len as [| len IH]; intros n start.
  - now rewrite skipn_nil.
  - destruct n as [| n]; [cbn [skipn]; f_equal; lia |].
    cbn [seq skipn Nat.sub]. rewrite IH. f_equal. lia.
Qed.

Lemma add_prefix_zeros (p : nat) (y : list Z) : add_prefix (repeat 0 p) y = y.
Proof.
  revert y. induction p as [| p IH]; intros [| v y]; cbn [repeat add_prefix];
    try reflexivity.
  rewrite IH. f_equal. ring.
Qed.

(** What the generator yields for segment [i >= 1] before the mode is
    applied: the previous block's overlap added onto the head of this
    block's convolution is the whole-signal convolution from [i * L] on,
    over [len = L] values for a full block followed by more signal, over
    all that is left for the last block. *)
Lemma oa_segment_value (a win : list Z) (L i len : nat) :
  (1 <= i)%nat -> (i * L <= length a)%nat ->
  (1 <= length win <= L + 1)%nat ->
  (len = L /\ ((i + 1) * L <= length a)%nat)
  \/ ((length a <= (i + 1) * L)%nat
      /\ len = (length a - i * L + length win - 1)%nat) ->
  add_prefix (oa_tail (oa_block a L (i - 1)) win L)
             (map (conv_at (oa_block a L i) win) (seq 0 len))
  = firstn len (skipn (i * L) (convolve_full a win)).
Proof.
  intros Hi HiL Hwin Hcase.
  assert (Hbp : length (oa_block a L (i - 1)) = L).
  { rewrite length_oa_block. nia. }
  assert (Hpre : length (firstn ((i - 1) * L) a) = ((i - 1) * L)%nat).
  { rewrite length_firstn. nia. }
  assert (HiL' : (i * L = (i - 1) * L + L)%nat) by nia.
  assert (Hlen : (len <= length a + length win - 1 - i * L)%nat).
  { destruct Hcase as [[-> Hfull] | [Hlast ->]]; nia. }
  assert (Hov : (length win - 1 <= len)%nat).
  { destruct Hcase as [[-> Hfull] | [Hlast ->]]; lia. }
  apply (nth_ext _ _ 0 0).
  - rewrite length_add_prefix, length_map, length_seq, length_firstn,
      length_skipn, length_convolve_full. lia.
  - intros k Hk.
    rewrite length_add_prefix, length_map, length_seq in Hk.
    rewrite nth_add_prefix
      by (unfold oa_tail; rewrite !length_map, !length_seq; lia).
    rewrite nth_map_seq by exact Hk. cbn [Nat.add].
    rewrite nth_firstn.
    replace (k <? len)%nat with true by (symmetry; apply Nat.ltb_lt; lia).
    rewrite nth_skipn, nth_convolve_full.
    assert (Htail : nth k (oa_tail (oa_block a L (i - 1)) win L) 0
                    = conv_at (oa_block a L (i - 1)) win (L + k)).
    { unfold oa_tail.
      destruct (Nat.lt_ge_cases k (length win - 1)) as [Hin | Hout].
      - now rewrite nth_map_seq.
      - rewrite nth_overflow by (rewrite length_map, length_seq; lia).
        symmetry. apply conv_at_vanish. lia. }
    rewrite Htail. symmetry.
    transitivity
      (conv_at (firstn ((i - 1) * L) a ++ oa_block a L (i - 1) ++ oa_block a L i
                ++ skipn ((i + 1) * L) a) win
               (length (firstn ((i - 1) * L) a)
                + length (oa_block a L (i - 1)) + k)).
    + rewrite Hbp, Hpre, <- HiL'. f_equal. now apply oa_block_cut.
    + rewrite conv_at_two_blocks; [now rewrite Hbp | lia |].
      destruct Hcase as [[-> Hfull] | [Hlast ->]].
      * right. rewrite length_oa_block. nia.
      * left. apply skipn_all2. exact Hlast.
Qed.

(** The first segment, a full block followed by more signal. *)
Lemma oa_first_value (a win : list Z) (L : nat) :
  (L <= length a)%nat -> (1 <= length win)%nat ->
  map (conv_at (oa_block a L 0) win) (seq 0 L)
  = firstn L (convolve_full a win).
Proof.
  intros HL Hwin. apply (nth_ext _ _ 0 0).
  - rewrite length_map, length_seq, length_firstn, length_convolve_full. lia.
  - intros k Hk. rewrite length_map, length_seq in Hk.
    rewrite nth_map_seq by exact Hk. cbn [Nat.add].
    rewrite nth_firstn.
    replace (k <? L)%nat with true by (symmetry; apply Nat.ltb_lt; lia).
    rewrite nth_convolve_full. symmetry.
    transitivity (conv_at (oa_block a L 0 ++ skipn L a) win k).
    + f_equal. unfold oa_block. cbn [Nat.mul skipn]. symmetry. apply firstn_skipn.
    + apply conv_at_first_block. rewrite length_oa_block. lia.
Qed.

(** *** Slices with bounds inside the list *)

Lemma py_slice_all {A : Type} (l : list A) : py_slice None None l = l.
Proof.
  unfold py_slice. rewrite Z.sub_0_r, Nat2Z.id. cbn [Z.to_nat skipn].
  apply firstn_all.
Qed.

Lemma py_slice_from {A : Type} (l : list A) (s : Z) :
  0 <= s -> py_slice (Some s) None l = skipn (Z.to_nat s) l.
Proof.
  intros Hs. unfold py_slice, slice_index.
  replace (s <? 0) with false by lia.
  destruct (Z_le_gt_dec s (Z.of_nat (length l))) as [Hin | Hout].
  - replace (Z.max 0 (Z.min (Z.of_nat (length l)) s)) with s by lia.
    apply firstn_all2. rewrite length_skipn. lia.
  - replace (Z.max 0 (Z.min (Z.of_nat (length l)) s))
      with (Z.of_nat (length l)) by lia.
    rewrite Nat2Z.id, !skipn_all2 by lia. apply firstn_nil.
Qed.

Lemma py_slice_upto {A : Type} (l : list A) (b : Z) :
  0 <= b <= zlen l -> py_slice None (Some b) l = firstn (Z.to_nat b) l.
Proof.
  intros Hb. unfold py_slice, slice_index. unfold zlen in Hb.
  replace (b <? 0) with false by lia.
  replace (Z.max 0 (Z.min (Z.of_nat (length l)) b) - 0) with b by lia.
  reflexivity.
Qed.

Lemma py_slice_range {A : Type} (l : list A) (a b : Z) :
  0 <= a <= b -> b <= zlen l ->
  py_slice (Some a) (Some b) l = firstn (Z.to_nat (b - a)) (skipn (Z.to_nat a) l).
Proof.
  intros Ha Hb. unfold py_slice, slice_index. unfold zlen in Hb.
  replace (a <? 0) with false by lia. replace (b <? 0) with false by lia.
  replace (Z.max 0 (Z.min (Z.of_nat (length l)) a)) with a by lia.
  replace (Z.max 0 (Z.min (Z.of_nat (length l)) b)) with b by lia.
  reflexivity.
Qed.

(** *** The mode cuts *)

Lemma mode_trim_range (mode : string) (M : Z) :
  1 <= M -> 0 <= mode_trim mode M <= M - 1.
Proof.
  intros HM. unfold mode_trim.
  destruct (String.eqb mode "full"); [lia |].
  destruct (String.eqb mode "same"); [| lia].
  pose proof (Z.div_mod (M - 1) 2 ltac:(lia)).
  pose proof (Z.mod_pos_bound (M - 1) 2 ltac:(lia)). lia.
Qed.

Lemma _oa_mode_first (y : list Z) (M : Z) (mode : string) :
  mode = "full"%string \/ mode = "same"%string \/ mode = "valid"%string ->
  1 <= M ->
  _oa_mode y 0 M mode = Ok (skipn (Z.to_nat (mode_trim mode M)) y).
Proof.
  intros Hmode HM. pose proof (mode_trim_range mode M HM) as Htr.
  unfold _oa_mode, mode_trim in *.
  destruct Hmode as [-> | [-> | ->]]; cbn [String.eqb Ascii.eqb Bool.eqb orb negb
    Z.ltb Z.compare fst snd] in *.
  - now rewrite py_slice_all.
  - now rewrite py_slice_from by lia.
  - now rewrite py_slice_from by lia.
Qed.

Lemma _oa_mode_last (y : list Z) (idx M : Z) (mode : string) :
  mode = "full"%string \/ mode = "same"%string \/ mode = "valid"%string ->
  0 < idx -> 1 <= M <= zlen y ->
  _oa_mode y idx M mode
  = Ok (firstn (length y - Z.to_nat (mode_trim mode M)) y).
Proof.
  intros Hmode Hidx HM. pose proof (mode_trim_range mode M ltac:(lia)) as Htr.
  unfold _oa_mode, mode_trim in *. unfold zlen in *.
  replace (0 <? idx) with true by lia.
  destruct Hmode as [-> | [-> | ->]]; cbn [String.eqb Ascii.eqb Bool.eqb orb negb
    fst snd] in *.
  - rewrite py_slice_all. cbn [Z.to_nat]. rewrite Nat.sub_0_r.
    now rewrite firstn_all.
  - rewrite py_slice_upto by (unfold zlen; lia). do 2 f_equal. lia.
  - rewrite py_slice_upto by (unfold zlen; lia). do 2 f_equal. lia.
Qed.

Lemma ceil_div_lt (a b k : Z) : 0 < b -> (k < ceil_div a b <-> k * b < a).
Proof.
  intros Hb. pose proof (ceil_div_bounds a b Hb) as Hbd. split; intros H; nia.
Qed.

Lemma oa_sizes (win : list Z) :
  1 <= zlen win ->
  Z.of_nat (Z.to_nat (oa_L win)) = oa_L win
  /\ Z.to_nat (optimal_nffts win)
     = (Z.to_nat (oa_L win) + length win - 1)%nat
  /\ (7 * length win + 1 <= Z.to_nat (oa_L win))%nat
  /\ (1 <= length win)%nat.
Proof.
  intros HM. pose proof (oa_L_lower win HM) as HL.
  pose proof (optimal_nffts_lower win HM) as Hn.
  unfold oa_L, zlen in *. repeat split; lia.
Qed.

(** *** The generator on a signal of two blocks or more *)

Section OverlapAddRun.
Variable pro : Producer Z.
Variable win : list Z.
Variable mode : string.
Hypothesis HM : 1 <= zlen win.
Hypothesis Hmode :
  mode = "full"%string \/ mode = "same"%string \/ mode = "valid"%string.

Local Abbreviation a := (data pro).
Local Abbreviation L := (Z.to_nat (oa_L win)).
Local Abbreviation p := (set_chunksize pro (oa_L win)).
Local Abbreviation full := (convolve_full (data pro) win).
Local Abbreviation trim := (Z.to_nat (mode_trim mode (zlen win))).

Lemma oa_pull_block (i : nat) :
  (i * L < length a)%nat ->
  producer_next p (i * L) = Chunk (oa_block a L i) (i * L + length (oa_block a L i)).
Proof.
  intros Hi. destruct (oa_sizes win HM) as (HL & _ & HL7 & _).
  unfold producer_next. cbn [data chunksize set_chunksize].
  replace (length a <=? i * L)%nat with false by (symmetry; apply Nat.leb_gt; lia).
  replace (oa_L win <=? 0) with false by lia.
  reflexivity.
Qed.

Lemma oa_block_conv (i : nat) :
  circ_conv (Z.to_nat (optimal_nffts win))
            (pad_right (oa_block a L i) (zlen win - 1)) win
  = map (conv_at (oa_block a L i) win) (seq 0 (L + length win - 1)).
Proof.
  destruct (oa_sizes win HM) as (HL & Hnf & HL7 & Hw).
  rewrite circ_conv_linear.
  - now rewrite Hnf.
  - rewrite length_oa_block, Hnf. lia.
  - exact Hw.
Qed.

(** A segment in the middle: a full block that is neither the first nor
    the last. *)
Lemma oa_iterate_middle (i : nat) :
  (1 <= i)%nat -> ((i + 1) * L < length a)%nat ->
  oa_iterate p win mode (oa_frame_at pro win i)
  = mkStep p (Suspended (oa_frame_at pro win (i + 1)))
           (Some (oa_block a L i))
           (Yield (firstn L (skipn (i * L) full))).
Proof.
  intros Hi Hnext. destruct (oa_sizes win HM) as (HL & Hnf & HL7 & Hw).
  assert (HiL : (i * L < length a)%nat) by nia.
  unfold oa_iterate. cbn [it_pos oa_frame_at segment_num overlap new_overlap isize].
  rewrite oa_pull_block by exact HiL.
  rewrite oa_block_conv, oa_nsegments_set_chunksize.
  assert (Hseg : Z.of_nat i + 1 < oa_nsegments pro win).
  { unfold oa_nsegments. apply ceil_div_lt; [lia |]. unfold shape, zlen. nia. }
  replace (Z.of_nat i <? oa_nsegments pro win - 1) with true by lia.
  replace (Z.of_nat i =? 0) with false by lia.
  replace (Z.of_nat i =? oa_nsegments pro win - 1) with false by lia.
  cbn [orb].
  rewrite firstn_map, firstn_seq, skipn_map, skipn_seq.
  replace (Nat.min L (L + length win - 1)) with L by lia.
  replace (L + length win - 1 - L)%nat with (length win - 1)%nat by lia.
  cbn [Nat.add]. fold (oa_tail (oa_block a L i) win L).
  rewrite (oa_segment_value a win L i L) by (try lia; left; split; lia).
  f_equal. f_equal. unfold oa_frame_at.
  replace (i + 1 - 1)%nat with i by lia.
  f_equal; [| lia].
  rewrite length_oa_block. nia.
Qed.
(** The last segment: what is left of the signal, at most one block. *)
Lemma oa_iterate_last (i : nat) :
  (1 <= i)%nat -> (i * L < length a)%nat -> (length a <= (i + 1) * L)%nat ->
  exists f,
    oa_iterate p win mode (oa_frame_at pro win i)
    = mkStep p (Suspended f) (Some (oa_block a L i))
             (Yield (firstn (length (skipn (i * L) full) - trim)
                            (skipn (i * L) full)))
    /\ it_pos f = length a /\ isize f = chunksize pro.
Proof.
  intros Hi HiL Hlast. destruct (oa_sizes win HM) as (HL & Hnf & HL7 & Hw).
  unfold oa_iterate. cbn [it_pos oa_frame_at segment_num overlap new_overlap isize].
  rewrite oa_pull_block by exact HiL.
  rewrite oa_block_conv, oa_nsegments_set_chunksize.
  assert (Hseg : oa_nsegments pro win = Z.of_nat i + 1).
  { unfold oa_nsegments.
    pose proof (proj2 (ceil_div_lt (shape pro) (oa_L win) (Z.of_nat i) ltac:(lia))
                  ltac:(unfold shape, zlen; nia)) as Hlo.
    destruct (Z_lt_le_dec (Z.of_nat i + 1) (ceil_div (shape pro) (oa_L win)))
      as [Hgt | Hle]; [| lia].
    apply (ceil_div_lt (shape pro) (oa_L win)) in Hgt; [| lia].
    unfold shape, zlen in Hgt. nia. }
  rewrite Hseg.
  replace (Z.of_nat i <? Z.of_nat i + 1 - 1) with false by lia.
  replace (Z.of_nat i =? Z.of_nat i + 1 - 1) with true by lia.
  rewrite orb_true_r.
  assert (Hb : length (oa_block a L i) = (length a - i * L)%nat).
  { rewrite length_oa_block. nia. }
  unfold slice_along_axis. rewrite py_slice_prefix
    by (unfold zlen; rewrite length_map, length_seq, Hb; lia).
  rewrite firstn_map, firstn_seq.
  replace (Nat.min (Z.to_nat (zlen (oa_block a L i) + zlen win - 1))
                   (L + length win - 1))
    with (length a - i * L + length win - 1)%nat
    by (unfold zlen; rewrite Hb; lia).
  rewrite (oa_segment_value a win L i (length a - i * L + length win - 1))
    by (try lia; right; split; lia).
  assert (Hrest : firstn (length a - i * L + length win - 1) (skipn (i * L) full)
                  = skipn (i * L) full).
  { apply firstn_all2. rewrite length_skipn, length_convolve_full. lia. }
  rewrite Hrest.
  rewrite _oa_mode_last;
    [| exact Hmode | lia
     | unfold zlen; rewrite length_skipn, length_convolve_full; lia].
  eexists. split; [reflexivity |].
  cbn [it_pos isize]. split; [rewrite Hb; lia | reflexivity].
Qed.

(** The first segment of a signal longer than one block. *)
Lemma oa_next_first :
  (L < length a)%nat ->
  oa_next pro win mode Created
  = mkStep p (Suspended (oa_frame_at pro win 1)) (Some (oa_block a L 0))
           (Yield (skipn trim (firstn L full))).
Proof.
  intros HN. destruct (oa_sizes win HM) as (HL & Hnf & HL7 & Hw).
  pose proof (optimal_nffts_lower win HM) as Hnfft.
  cbn [oa_next].
  replace (optimal_nffts win <? 1) with false by lia.
  replace (oa_L win =? 0) with false by lia.
  unfold oa_iterate. cbn [it_pos segment_num overlap new_overlap isize].
  change 0%nat with (0 * L)%nat at 1.
  rewrite oa_pull_block by (cbn [Nat.mul]; lia).
  rewrite oa_block_conv, oa_nsegments_set_chunksize.
  assert (Hseg : 1 < oa_nsegments pro win).
  { unfold oa_nsegments. apply ceil_div_lt; [lia |]. unfold shape, zlen. lia. }
  replace (0 <? oa_nsegments pro win - 1) with true by lia.
  cbn [Z.eqb orb].
  rewrite firstn_map, firstn_seq, skipn_map, skipn_seq.
  replace (Nat.min L (L + length win - 1)) with L by lia.
  replace (L + length win - 1 - L)%nat with (length win - 1)%nat by lia.
  cbn [Nat.add]. fold (oa_tail (oa_block a L 0) win L).
  rewrite add_prefix_zeros, oa_first_value by lia.
  rewrite _oa_mode_first by (try exact Hmode; lia).
  f_equal. f_equal. unfold oa_frame_at. cbn [Nat.sub].
  f_equal. rewrite length_oa_block. lia.
Qed.

(** Past the end of the input the loop is left and the chunksize reset. *)
Lemma oa_iterate_stop (f : oa_frame) :
  (length a <= it_pos f)%nat ->
  oa_iterate p win mode f = mkStep (set_chunksize p (isize f)) Closed None Stop.
Proof.
  intros Hend. unfold oa_iterate, producer_next. cbn [data set_chunksize].
  now replace (length a <=? it_pos f)%nat with true
    by (symmetry; apply Nat.leb_le; lia).
Qed.

Lemma firstn_drop_tail {X : Type} (r : list X) (n e : nat) :
  (n + e <= length r)%nat ->
  firstn n r ++ firstn (length (skipn n r) - e) (skipn n r)
  = firstn (length r - e) r.
Proof.
  intros Hne. rewrite length_skipn.
  rewrite <- (firstn_app_2 (length r - n - e) (firstn n r) (skipn n r)).
  rewrite firstn_skipn, length_firstn. f_equal. lia.
Qed.

(** From the suspension after segment [i - 1] on, the generator runs to
    exhaustion, restores the producer and has yielded the rest of the
    whole-signal convolution less the cut of the mode at its end. *)
Lemma oa_run_rest :
  forall (fuel i : nat),
    (1 <= i)%nat -> (i * L < length a)%nat ->
    (length a <= (i + fuel - 1) * L)%nat ->
    exists ys,
      oa_run fuel p win mode (Suspended (oa_frame_at pro win i))
      = Completed pro ys
      /\ concat ys = firstn (length (skipn (i * L) full) - trim)
                            (skipn (i * L) full).
Proof.
  destruct (oa_sizes win HM) as (HL & Hnf & HL7 & Hw).
  pose proof (mode_trim_range mode (zlen win) HM) as Htr. unfold zlen in Htr.
  induction fuel as [| fuel IH]; intros i Hi HiL Hfuel; [nia |].
  cbn [oa_run oa_next].
  destruct (Nat.lt_ge_cases ((i + 1) * L) (length a)) as [Hmid | Hlast].
  - rewrite oa_iterate_middle by assumption. cbn [st_event st_pro st_gen].
    destruct (IH (i + 1)%nat ltac:(lia) Hmid
                 ltac:(replace (i + 1 + fuel - 1)%nat with (i + S fuel - 1)%nat
                         by lia; exact Hfuel))
      as (ys & Hrun & Hcat).
    rewrite Hrun. eexists. split; [reflexivity |].
    cbn [concat]. rewrite Hcat.
    replace (skipn ((i + 1) * L) full) with (skipn L (skipn (i * L) full))
      by (rewrite skipn_skipn; f_equal; lia).
    apply firstn_drop_tail.
    rewrite length_skipn, length_convolve_full.
    assert (Hexp : ((i + 1) * L = i * L + L)%nat) by lia.
    rewrite Hexp in Hmid. unfold zlen. lia.
  - destruct (oa_iterate_last i Hi HiL Hlast) as (f & Hstep & Hpos & Hsz).
    rewrite Hstep. cbn [st_event st_pro st_gen].
    destruct fuel as [| fuel]; [nia |].
    cbn [oa_run oa_next].
    rewrite oa_iterate_stop by lia. cbn [st_event st_pro].
    rewrite Hsz, set_chunksize_restore.
    eexists. split; [reflexivity |].
    cbn [concat]. now rewrite app_nil_r.
Qed.

(** The whole iteration on a signal longer than one block. *)
Lemma oaconvolve_two_blocks :
  (L < length a)%nat ->
  exists ys,
    oaconvolve pro win mode = Completed pro ys
    /\ concat ys = skipn trim (firstn (length full - trim) full).
Proof.
  intros HN. destruct (oa_sizes win HM) as (HL & Hnf & HL7 & Hw).
  pose proof (mode_trim_range mode (zlen win) HM) as Htr. unfold zlen in Htr.
  unfold oaconvolve. cbn [oa_run].
  rewrite oa_next_first by exact HN. cbn [st_event st_pro st_gen].
  destruct (oa_run_rest (length a) 1 ltac:(lia) ltac:(lia) ltac:(nia))
    as (ys & Hrun & Hcat).
  rewrite Hrun. eexists. split; [reflexivity |].
  cbn [concat]. rewrite Hcat. rewrite Nat.mul_1_l.
  rewrite <- (firstn_drop_tail full L trim)
    by (rewrite length_convolve_full; unfold zlen; lia).
  rewrite skipn_app, length_firstn, length_convolve_full.
  replace (trim - Nat.min L (length a + length win - 1))%nat with 0%nat
    by (unfold zlen; lia).
  reflexivity.
Qed.
End OverlapAddRun.

(** Two windows [firstn x (skipn y l)] over the same list, with bounds
    equal by linear arithmetic. *)
Ltac same_window :=
  match goal with
  | |- firstn ?x (skipn ?y ?l) = firstn ?x' (skipn ?y' ?l) =>
      replace x with x' by lia; replace y with y' by lia; reflexivity
  end.



(** X2: for a producer whose sample axis is the last one ([axis = -1]),
    called with that axis: the lengths the generator produces along the
    axis on a signal longer than one block are [N + M - 1] for
    ['full'], [N - M + 1] for ['valid'], and for ['same'] [N] when [M]
    is odd but [N + 1] when [M] is even. *)
Lemma oaconvolve_lengths (pro : Producer Z) (win : list Z) (mode : string) :
  axis pro = -1 ->
  1 <= zlen win -> oa_L win < shape pro ->
  mode = "full"%string \/ mode = "same"%string \/ mode = "valid"%string ->
  exists ys,
    oaconvolve pro win mode = Completed pro ys
    /\ zlen (concat ys)
       = if String.eqb mode "full" then shape pro + zlen win - 1
         else if String.eqb mode "valid" then shape pro - zlen win + 1
         else if Z.odd (zlen win) then shape pro else shape pro + 1.
Proof.
  intros _ HM HN Hmode.
  destruct (oa_sizes win HM) as (HL & Hnf & HL7 & Hw).
  destruct (oaconvolve_two_blocks pro win mode HM Hmode
              ltac:(unfold shape, zlen in HN; lia)) as (ys & Hrun & Hcat).
  exists ys. split; [exact Hrun |]. rewrite Hcat.
  unfold zlen at 1. rewrite length_skipn, length_firstn, length_convolve_full.
  unfold mode_trim, shape, zlen in *.
  pose proof (Z.div_mod (Z.of_nat (length win) - 1) 2 ltac:(lia)) as Hdm.
  pose proof (Z.mod_pos_bound (Z.of_nat (length win) - 1) 2 ltac:(lia)) as Hmb.
  destruct Hmode as [-> | [-> | ->]]; cbn [String.eqb Ascii.eqb Bool.eqb].
  - lia.
  - destruct (Z.odd (Z.of_nat (length win))) eqn:Hodd.
    + rewrite Z.odd_spec in Hodd. destruct Hodd as [c Hc].
      assert ((Z.of_nat (length win) - 1) / 2 = c).
      { rewrite Hc. replace (2 * c + 1 - 1) with (c * 2) by ring.
        apply Z.div_mul. lia. }
      lia.
    + rewrite <- Z.negb_even in Hodd. apply negb_false_iff in Hodd.
      rewrite Z.even_spec in Hodd. destruct Hodd as [c Hc].
      assert ((Z.of_nat (length win) - 1) / 2 = c - 1).
      { rewrite Hc. replace (2 * c - 1) with (1 + (c - 1) * 2) by ring.
        rewrite Z.div_add by lia. reflexivity. }
      lia.
  - lia.
Qed.

(** *** Where the padding of [stft] does cover the signal *)

(** The segments handed to the estimator are the complete windows of the
    producer's samples. *)
Lemma segments_windows {A : Type} (pro : Producer A) (nfft : Z) (overlap : Q) :
  0 < chunksize pro -> 1 <= nfft -> (0 <= overlap)%Q -> (overlap < 1)%Q ->
  exists w,
    segments pro nfft overlap
    = SDone (map (window_at nfft (stride_of nfft overlap) (data pro)) (seq 0 w))
    /\ complete_windows nfft (stride_of nfft overlap) (length (data pro)) w.
Proof.
  intros Hc Hn Hlo Hhi.
  pose proof (stride_of_range nfft overlap Hn Hlo Hhi) as Hs.
  unfold segments, _spectra_estimatives.
  destruct (iterate_concat pro Hc) as (arrs & -> & Hcat).
  destruct (estimate_loop_windows nfft (stride_of nfft overlap)
              (fun x : list A => Ok x) (fun x => x) Hs ltac:(reflexivity)
              arrs [] 0%nat) as (w & Hloop & Hcw).
  cbn [app] in Hloop, Hcw. rewrite Hcat in Hloop, Hcw.
  exists w. split; [exact Hloop | exact Hcw].
Qed.

(** X7: with [boundary=False] and [padded=True] the last window emitted ends
    at or past the last input sample exactly when [N] is not a multiple
    of the stride or [nfft] is one; when [N] is a multiple of the stride
    and [nfft] is not, the last window ends before the last sample. *)
Lemma stft_padded_coverage {A C P : Type} {lib : SignalLib A C P}
  (pro : Producer A) (nfft : Z) (overlap : Q) :
  0 < chunksize pro -> 1 <= nfft <= shape pro ->
  (0 <= overlap)%Q -> (overlap < 1)%Q ->
  let stride := stride_of nfft overlap in
  exists d w,
    stft_data pro nfft overlap false true = Ok d
    /\ segments d nfft overlap
       = SDone (map (window_at nfft stride (data d)) (seq 0 w))
    /\ (1 <= w)%nat
    /\ (shape pro mod stride <> 0 \/ nfft mod stride = 0 ->
        shape pro <= (Z.of_nat w - 1) * stride + nfft)
    /\ (shape pro mod stride = 0 -> nfft mod stride <> 0 ->
        (Z.of_nat w - 1) * stride + nfft < shape pro).
Proof.
  intros Hc Hn Hlo Hhi stride.
  pose proof (stride_of_range nfft overlap ltac:(lia) Hlo Hhi) as Hs.
  fold stride in Hs.
  unfold stft_data. fold stride.
  replace (stride =? 0) with false by lia.
  eexists.
  destruct (segments_windows
              (pad_producer pro 0
                 (if negb (shape pro mod stride =? 0) then stride else 0)
                 zero_sample)
              nfft overlap Hc ltac:(lia) Hlo Hhi) as (w & Hseg & Hlt & Hge).
  fold stride in Hseg, Hlt, Hge.
  exists w. split; [reflexivity |]. split; [exact Hseg |].
  unfold pad_producer in Hlt, Hge. cbn [data Z.to_nat repeat app] in Hlt, Hge.
  rewrite length_app, repeat_length in Hlt, Hge.
  unfold shape, zlen in *.
  set (N := length (data pro)) in *.
  pose proof (Z.div_mod (Z.of_nat N) stride ltac:(lia)) as HdN.
  pose proof (Z.div_mod nfft stride ltac:(lia)) as Hdn.
  pose proof (Z.mod_pos_bound (Z.of_nat N) stride ltac:(lia)) as HmN.
  pose proof (Z.mod_pos_bound nfft stride ltac:(lia)) as Hmn.
  assert (Hw : (1 <= w)%nat).
  { destruct w as [| w0]; [| lia]. cbn [Nat.mul Nat.add] in Hlt. lia. }
  destruct Hge as [Hge | Hge]; [lia |].
  assert (HgeZ : (Z.of_nat w - 1) * stride + nfft
                 <= Z.of_nat N
                    + (if negb (Z.of_nat N mod stride =? 0) then stride else 0)).
  { destruct (negb (Z.of_nat N mod stride =? 0)); nia. }
  assert (HltZ : Z.of_nat N
                 + (if negb (Z.of_nat N mod stride =? 0) then stride else 0)
                 < Z.of_nat w * stride + nfft).
  { destruct (negb (Z.of_nat N mod stride =? 0)); nia. }
  split; [exact Hw |].
  destruct (Z.of_nat N mod stride =? 0) eqn:Hpad; cbn [negb] in HgeZ, HltZ.
  - split.
    + intros [Hne | Hz]; [lia |].
      destruct (Z_lt_le_dec ((Z.of_nat w - 1) * stride + nfft) (Z.of_nat N))
        as [Hlt' | Hle]; [| exact Hle].
      exfalso.
      assert (Hq : Z.of_nat N / stride < Z.of_nat w + nfft / stride) by nia.
      assert (Hq' : Z.of_nat w - 1 + nfft / stride < Z.of_nat N / stride) by nia.
      lia.
    + intros _ Hnz.
      destruct (Z.eq_dec ((Z.of_nat w - 1) * stride + nfft) (Z.of_nat N))
        as [Heq | Hneq]; [| lia].
      exfalso. apply Hnz.
      replace nfft with (Z.of_nat N + (1 - Z.of_nat w) * stride) by lia.
      rewrite Z.mod_add by lia. lia.
  - split; [intros _; lia | intros Hz; lia].
Qed.

(** *** The iteration always ends *)

(** X13: whatever the producer, the kernel and the mode, the fuel given to
    [oaconvolve] is enough: the iteration ends by exhaustion or by an
    exception. *)
Lemma oaconvolve_total (pro : Producer Z) (win : list Z) (mode : string) :
  oaconvolve pro win mode <> OutOfFuel.
Proof.
  destruct (Z_lt_le_dec (zlen win) 1) as [HM0 | HM].
  - unfold oaconvolve. cbn [oa_run oa_next].
    assert (Hn : (optimal_nffts win <? 1) = true).
    { unfold optimal_nffts. now replace (zlen win <=? 0) with true by lia. }
    rewrite Hn. cbn [st_event]. discriminate.
  - pose proof (oa_L_lower win HM) as HL0.
    destruct (Z_lt_le_dec (oa_L win) (shape pro)) as [Hlong | Hshort].
    + destruct (string_dec mode "full") as [Hf | Hf];
        [| destruct (string_dec mode "same") as [Hs | Hs];
           [| destruct (string_dec mode "valid") as [Hv | Hv]]].
      * destruct (oaconvolve_two_blocks pro win mode HM (or_introl Hf)
                    ltac:(unfold shape, zlen in Hlong; lia)) as (ys & -> & _).
        discriminate.
      * destruct (oaconvolve_two_blocks pro win mode HM (or_intror (or_introl Hs))
                    ltac:(unfold shape, zlen in Hlong; lia)) as (ys & -> & _).
        discriminate.
      * destruct (oaconvolve_two_blocks pro win mode HM (or_intror (or_intror Hv))
                    ltac:(unfold shape, zlen in Hlong; lia)) as (ys & -> & _).
        discriminate.
      * unfold oaconvolve. cbn [oa_run].
        rewrite (oa_invalid_mode_first_next pro win mode Hf Hs Hv HM Hlong).
        cbn [st_event]. discriminate.
    + destruct (Z_lt_le_dec (shape pro) 1) as [Hempty | Hsome].
      * pose proof (optimal_nffts_lower win HM) as Hnfft.
        pose proof (oa_L_lower win HM) as HL.
        unfold oaconvolve. cbn [oa_run oa_next].
        replace (optimal_nffts win <? 1) with false by lia.
        replace (oa_L win =? 0) with false by lia.
        unfold oa_iterate, producer_next. cbn [it_pos data set_chunksize].
        unfold shape, zlen in Hempty.
        replace (length (data pro) <=? 0)%nat with true
          by (symmetry; apply Nat.leb_le; lia).
        cbn [st_event]. discriminate.
      * rewrite oaconvolve_single_block_crashes by (try exact HM; lia).
        discriminate.
Qed.

(* ================================================================= *)
(** * Further properties of the module *)

(** ** Overlap-add: witnesses and edge cases *)


Lemma oaconvolve_lengths_witness :
  exists ys,
    oaconvolve (mkProducer (ramp 40) (-1) 7) [1; 2; 1; 3] "same"
    = Completed (mkProducer (ramp 40) (-1) 7) ys
    /\ zlen (concat ys) = 41.
Proof.
  apply (oaconvolve_lengths (mkProducer (ramp 40) (-1) 7) [1; 2; 1; 3] "same").
  - reflexivity.
  - vm_compute. discriminate.
  - vm_compute. reflexivity.
  - right. left. reflexivity.
Defined.




(** X5: on a producer without samples the loop body never runs: the
    iteration ends at once with nothing yielded and the producer as it
    was, and the mode is never looked at, so an unknown mode raises
    nothing. *)
Theorem oaconvolve_empty_input (pro : Producer Z) (win : list Z) (mode : string) :
  1 <= zlen win -> data pro = [] ->
  oaconvolve pro win mode = Completed pro [].
Proof.
  intros HM Hempty.
  pose proof (optimal_nffts_lower win HM) as Hnfft.
  pose proof (oa_L_lower win HM) as HL.
  unfold oaconvolve. cbn [oa_run oa_next].
  replace (optimal_nffts win <? 1) with false by lia.
  replace (oa_L win =? 0) with false by lia.
  unfold oa_iterate, producer_next. cbn [it_pos data set_chunksize isize].
  rewrite Hempty. cbn [length Nat.leb st_event st_pro].
  f_equal. destruct pro as [d ax c]. cbn in Hempty |- *. now subst d.
Qed.

Lemma oaconvolve_empty_input_witness :
  oaconvolve (mkProducer [] (-1) 5) [1; 1] "bogus"
  = Completed (mkProducer [] (-1) 5) [].
Proof.
  apply (oaconvolve_empty_input (mkProducer [] (-1) 5) [1; 1] "bogus").
  - vm_compute. discriminate.
  - reflexivity.
Defined.

(** ** The segment generator *)

Lemma complete_windows_unique (nfft stride : Z) (len w1 w2 : nat) :
  1 <= stride ->
  complete_windows nfft stride len w1 -> complete_windows nfft stride len w2 ->
  w1 = w2.
Proof.
  intros Hs [Hlt1 Hge1] [Hlt2 Hge2].
  assert (Hs' : (1 <= Z.to_nat stride)%nat) by lia.
  destruct (Nat.lt_trichotomy w1 w2) as [Hlt | [Heq | Hgt]]; [| exact Heq |].
  - exfalso. destruct Hge2 as [-> | Hge2]; [lia |].
    assert (w1 * Z.to_nat stride <= (w2 - 1) * Z.to_nat stride)%nat
      by (apply Nat.mul_le_mono_r; lia).
    lia.
  - exfalso. destruct Hge1 as [-> | Hge1]; [lia |].
    assert (w2 * Z.to_nat stride <= (w1 - 1) * Z.to_nat stride)%nat
      by (apply Nat.mul_le_mono_r; lia).
    lia.
Qed.

(** X6: the estimates [_spectra_estimatives] yields do not depend on how
    the producer chunks the signal: two producers over the same samples
    with any positive chunksizes give the same run, for every estimator
    that accepts windows of [nfft] samples. *)
Theorem spectra_chunksize_independent {A B : Type} (d : list A)
  (ax1 ax2 c1 c2 nfft : Z) (overlap : Q) (func : list A -> result B)
  (est : list A -> B) :
  0 < c1 -> 0 < c2 -> 1 <= nfft ->
  (0 <= overlap)%Q -> (overlap < 1)%Q ->
  (forall x, zlen x = nfft -> func x = Ok (est x)) ->
  _spectra_estimatives (mkProducer d ax1 c1) nfft overlap func
  = _spectra_estimatives (mkProducer d ax2 c2) nfft overlap func
  /\ exists w,
       _spectra_estimatives (mkProducer d ax1 c1) nfft overlap func
       = SDone (map (fun i => est (window_at nfft (stride_of nfft overlap) d i))
                    (seq 0 w)).
Proof.
  intros Hc1 Hc2 Hn Hlo Hhi Hok.
  pose proof (stride_of_range nfft overlap Hn Hlo Hhi) as Hs.
  unfold _spectra_estimatives.
  destruct (iterate_concat (mkProducer d ax1 c1) Hc1) as (arrs1 & -> & Hcat1).
  destruct (iterate_concat (mkProducer d ax2 c2) Hc2) as (arrs2 & -> & Hcat2).
  cbn [data] in Hcat1, Hcat2.
  destruct (estimate_loop_windows nfft (stride_of nfft overlap) func est Hs Hok
              arrs1 [] 0%nat) as (w1 & Hl1 & Hw1).
  destruct (estimate_loop_windows nfft (stride_of nfft overlap) func est Hs Hok
              arrs2 [] 0%nat) as (w2 & Hl2 & Hw2).
  cbn [app] in Hl1, Hl2, Hw1, Hw2.
  rewrite Hcat1 in Hl1, Hw1. rewrite Hcat2 in Hl2, Hw2.
  assert (w1 = w2)
    by (apply (complete_windows_unique nfft (stride_of nfft overlap) (length d));
        [lia | exact Hw1 | exact Hw2]).
  subst w2. rewrite Hl1, Hl2. split; [reflexivity |].
  exists w1. reflexivity.
Qed.

Lemma spectra_chunksize_independent_witness :
  _spectra_estimatives (mkProducer (ramp 20) (-1) 3) 8 (1 # 2)%Q
                       (fun x => Ok (zsum x))
  = _spectra_estimatives (mkProducer (ramp 20) 0 7) 8 (1 # 2)%Q
                         (fun x => Ok (zsum x))
  /\ exists w,
       _spectra_estimatives (mkProducer (ramp 20) (-1) 3) 8 (1 # 2)%Q
                            (fun x => Ok (zsum x))
       = SDone (map (fun i => zsum (window_at 8 (stride_of 8 (1 # 2)%Q) (ramp 20) i))
                    (seq 0 w)).
Proof.
  apply (spectra_chunksize_independent (ramp 20) (-1) 0 3 7 8 (1 # 2)%Q
           (fun x => Ok (zsum x)) zsum).
  - reflexivity.
  - reflexivity.
  - lia.
  - vm_compute. discriminate.
  - reflexivity.
  - intros x _. reflexivity.
Defined.

Lemma stft_padded_coverage_witness :
  exists d w,
    @stft_data Z Z Z eval_lib (mkProducer (ramp 13) (-1) 5) 8 (1 # 4)%Q false true
    = Ok d
    /\ segments d 8 (1 # 4)%Q
       = SDone (map (window_at 8 (stride_of 8 (1 # 4)%Q) (data d)) (seq 0 w))
    /\ (1 <= w)%nat
    /\ (13 mod 6 <> 0 \/ 8 mod 6 = 0 -> 13 <= (Z.of_nat w - 1) * 6 + 8)
    /\ (13 mod 6 = 0 -> 8 mod 6 <> 0 -> (Z.of_nat w - 1) * 6 + 8 < 13).
Proof.
  apply (@stft_padded_coverage Z Z Z eval_lib (mkProducer (ramp 13) (-1) 5)
           8 (1 # 4)%Q).
  - reflexivity.
  - vm_compute. split; discriminate.
  - vm_compute. discriminate.
  - reflexivity.
Defined.

Section ShortSignal.
Context {A B : Type}.
Variable nfft : Z.
Variable func : list A -> result B.

Lemma estimate_loop_short (s : Z) :
  forall (arrs : list (list A)) (q : list A) (npulled : nat),
    zlen (q ++ concat arrs) < nfft ->
    estimate_loop nfft func arrs (mkFIFO q s) npulled = SDone [].
Proof.
  induction arrs as [| arr rest IH]; intros q npulled Hlen;
    cbn [estimate_loop drain queue concat] in *; unfold qsize; cbn [queue].
  - rewrite app_nil_r in Hlen.
    now replace (nfft <=? zlen q) with false by lia.
  - assert (zlen q < nfft).
    { unfold zlen in *. rewrite length_app in Hlen. lia. }
    replace (nfft <=? zlen q) with false by lia.
    unfold fifo_put. cbn [queue fifo_chunksize].
    rewrite IH by (now rewrite <- app_assoc). reflexivity.
Qed.
End ShortSignal.



(** ** FFT size and mode slices *)

(** X10: for a kernel of [M >= 1] taps the FFT size is eight times the
    least power of two that is at least [M]; so it lies in [8M, 16M). *)
Theorem optimal_nffts_power_of_two (win : list Z) :
  1 <= zlen win ->
  exists k,
    0 <= k /\ optimal_nffts win = 8 * 2 ^ k
    /\ zlen win <= 2 ^ k < 2 * zlen win
    /\ 8 * zlen win <= optimal_nffts win < 16 * zlen win.
Proof.
  intros HM. unfold optimal_nffts.
  replace (zlen win <=? 0) with false by lia.
  exists (Z.log2_up (zlen win)).
  pose proof (Z.log2_up_nonneg (zlen win)) as Hk.
  assert (Hb : zlen win <= 2 ^ Z.log2_up (zlen win) < 2 * zlen win).
  { destruct (Z.eq_dec (zlen win) 1) as [-> | Hne]; [cbn; lia |].
    pose proof (Z.log2_up_spec (zlen win) ltac:(lia)) as [Hlo Hhi].
    split; [exact Hhi |].
    replace (Z.log2_up (zlen win)) with (Z.succ (Z.pred (Z.log2_up (zlen win))))
      by lia.
    rewrite Z.pow_succ_r; [lia |].
    assert (0 < Z.log2_up (zlen win)) by (apply Z.log2_up_pos; lia). lia. }
  repeat split; lia.
Qed.

Lemma optimal_nffts_power_of_two_witness :
  exists k,
    0 <= k /\ optimal_nffts [1; 2; 3; 4; 5] = 8 * 2 ^ k
    /\ zlen [1; 2; 3; 4; 5] <= 2 ^ k < 2 * zlen [1; 2; 3; 4; 5]
    /\ 8 * zlen [1; 2; 3; 4; 5] <= optimal_nffts [1; 2; 3; 4; 5]
       < 16 * zlen [1; 2; 3; 4; 5].
Proof.
  apply (optimal_nffts_power_of_two [1; 2; 3; 4; 5]).
  vm_compute. discriminate.
Defined.

Lemma zlen_py_slice_range {A : Type} (l : list A) (a b : Z) :
  0 <= a <= b -> b <= zlen l ->
  zlen (py_slice (Some a) (Some b) l) = b - a.
Proof.
  intros Ha Hb. rewrite py_slice_range by assumption.
  unfold zlen in *. rewrite length_firstn, length_skipn. lia.
Qed.

(** X11: on a full convolution of length [m + n - 1], [convolve_slicer]
    returns the array itself for 'full', [max(m, n)] samples for 'same'
    and [max(m, n) - min(m, n) + 1] samples for 'valid'; it does not
    depend on the order of the two lengths, and for any other mode it
    returns nothing rather than raising. *)
Theorem convolve_slicer_lengths (arr : list Z) (m n : Z) :
  1 <= m -> 1 <= n -> zlen arr = m + n - 1 ->
  convolve_slicer arr m n "full" = Some arr
  /\ (exists s, convolve_slicer arr m n "same" = Some s /\ zlen s = Z.max m n)
  /\ (exists v, convolve_slicer arr m n "valid" = Some v
                /\ zlen v = Z.max m n - Z.min m n + 1)
  /\ (forall mode, convolve_slicer arr m n mode = convolve_slicer arr n m mode)
  /\ (forall mode, mode <> "full"%string -> mode <> "same"%string ->
                   mode <> "valid"%string ->
                   convolve_slicer arr m n mode = None).
Proof.
  intros Hm Hn Hlen. split; [reflexivity |].
  assert (Hq : 0 <= (Z.min m n - 1) / 2 <= Z.min m n - 1).
  { split; [apply Z.div_pos; lia |].
    apply Z.div_le_upper_bound; lia. }
  split; [| split; [| split]].
  - eexists. split; [reflexivity |].
    unfold slice_along_axis. rewrite zlen_py_slice_range; lia.
  - eexists. split; [reflexivity |].
    unfold slice_along_axis. rewrite zlen_py_slice_range; lia.
  - intros mode. unfold convolve_slicer.
    now rewrite (Z.max_comm n m), (Z.min_comm n m), (Z.add_comm m n).
  - intros mode Hf Hs Hv. unfold convolve_slicer.
    apply String.eqb_neq in Hf, Hs, Hv. now rewrite Hf, Hs, Hv.
Qed.

Lemma convolve_slicer_lengths_witness :
  convolve_slicer (ramp 8) 6 3 "full" = Some (ramp 8)
  /\ (exists s, convolve_slicer (ramp 8) 6 3 "same" = Some s /\ zlen s = 6)
  /\ (exists v, convolve_slicer (ramp 8) 6 3 "valid" = Some v /\ zlen v = 4)
  /\ (forall mode, convolve_slicer (ramp 8) 6 3 mode
                   = convolve_slicer (ramp 8) 3 6 mode)
  /\ (forall mode, mode <> "full"%string -> mode <> "same"%string ->
                   mode <> "valid"%string ->
                   convolve_slicer (ramp 8) 6 3 mode = None).
Proof.
  apply (convolve_slicer_lengths (ramp 8) 6 3).
  - lia.
  - lia.
  - reflexivity.
Defined.

(** ** The declared number of segments *)

(** A mantissa that ends in the bits to cut is rounded to itself. *)
Lemma binary_round_aux_divisible (s : bool) (m : positive) (e c : Z) :
  let E := Z.max e (fexp 53 1024 (Z.pos (digits2_pos m) + e)) in
  E <= 970 -> Z.pos m = c * 2 ^ (E - e) ->
  binary_round_aux 53 1024 s (Z.pos m) e loc_Exact = S754_finite s (Z.to_pos c) E.
Proof.
  intros E HE Hc.
  destruct (binary_round_aux_exact s m e HE) as (m2 & Hb & Hhalf & _ & _ & Hres).
  fold E in Hb, Hhalf, Hres.
  assert (HEd : Z.pos (digits2_pos m) + e - 53 <= E)
    by (unfold E; rewrite fexp_binary64; lia).
  set (k := E - e) in *. assert (Hk : 0 <= k) by (unfold k, E; lia).
  assert (Hp : 0 < 2 ^ k) by (apply Z.pow_pos_nonneg; lia).
  assert (Hdiv : Z.pos m / 2 ^ k = c) by (rewrite Hc; apply Z.div_mul; lia).
  rewrite Hdiv in Hb.
  assert (Hm2 : m2 = c) by nia.
  assert (Hc0 : 0 < c) by nia.
  assert (Hc53 : c < 2 ^ 53).
  { pose proof (digits2_pos_bounds m) as [_ Hhi].
    pose proof (Z.pow_le_mono_r 2 (Z.pos (digits2_pos m)) (k + 53)
                  ltac:(lia) ltac:(lia)) as Hle.
    rewrite Z.pow_add_r in Hle by lia. nia. }
  rewrite Hres, Hm2.
  replace (c =? 0) with false by lia. replace (c =? 2 ^ 53) with false by lia.
  reflexivity.
Qed.

Lemma float_ratio_half : float_ratio 1 2 = S754_finite false (2 ^ 52) (-53).
Proof. vm_compute. reflexivity. Qed.

(** Half of a normal number: the exponent goes down by one. *)
Lemma mul_half (m : positive) (e : Z) :
  2 ^ 52 <= Z.pos m < 2 ^ 53 -> -1020 <= e <= 900 ->
  SFmul 53 1024 (S754_finite false m e) (S754_finite false (2 ^ 52) (-53))
  = S754_finite false m (e - 1).
Proof.
  intros Hm He. cbn [SFmul xorb].
  assert (HM : Z.pos (m * 2 ^ 52) = Z.pos m * 2 ^ 52) by apply Pos2Z.inj_mul.
  assert (Hd : Z.pos (digits2_pos (m * 2 ^ 52)) = 105).
  { apply digits2_pos_unique. rewrite HM.
    change (2 ^ (105 - 1)) with (2 ^ 52 * 2 ^ 52).
    change (2 ^ 105) with (2 ^ 53 * 2 ^ 52). lia. }
  rewrite (binary_round_aux_divisible false (m * 2 ^ 52) (e + -53) (Z.pos m)).
  - rewrite Hd, fexp_binary64, Pos2Z.id. f_equal. lia.
  - rewrite Hd, fexp_binary64. lia.
  - rewrite Hd, fexp_binary64, HM. f_equal. f_equal. lia.
Qed.

(** At [overlap = 0.5] the stride is [nfft - nfft // 2]. *)
Lemma stride64_half (nfft : Z) :
  1 <= nfft < 2 ^ 53 ->
  stride64 nfft (float_ratio 1 2) = Returns (nfft - nfft / 2).
Proof.
  intros Hn. unfold stride64. rewrite float_ratio_half.
  destruct (float_of_int_exact nfft Hn) as (mn & en & -> & Hmn & Hen & Hmn').
  rewrite mul_half by lia. cbn [int_of_float].
  replace (0 <=? en - 1) with false by lia.
  f_equal. f_equal. rewrite Hmn'.
  replace (- (en - 1)) with (1 + - en) by lia.
  rewrite Z.pow_add_r by lia. change (2 ^ 1) with 2.
  assert (0 < 2 ^ (- en)) by (apply Z.pow_pos_nonneg; lia).
  rewrite Z.div_mul_cancel_r by lia. reflexivity.
Qed.

Lemma float_of_int_value_eq (z : Z) :
  0 <= z < 2 ^ 53 ->
  exists qa, float_value (float_of_int z) = Some qa /\ (qa == inject_Z z)%Q.
Proof.
  intros Hz. destruct (Z.eq_dec z 0) as [-> | Hnz].
  { exists (inject_Z 0). split; reflexivity. }
  destruct (float_of_int_exact z ltac:(lia)) as (m & e & -> & Hm & He & Hmz).
  rewrite float_value_finite. eexists. split; [reflexivity |].
  destruct (0 <=? e) eqn:Hle.
  - apply Z.leb_le in Hle. replace e with 0 in * by lia.
    rewrite Z.pow_0_r, Z.mul_1_r. rewrite Hmz. cbn [Z.opp]. rewrite Z.pow_0_r, Z.mul_1_r.
    reflexivity.
  - assert (Hp : 0 < 2 ^ (- e)) by (apply Z.pow_pos_nonneg; lia).
    unfold Qeq, inject_Z. cbn [Qnum Qden]. rewrite Z2Pos.id by exact Hp. lia.
Qed.

(** An int of at most 53 bits comes back from its conversion. *)
Lemma int_of_float_of_int (z : Z) :
  1 <= z < 2 ^ 53 -> int_of_float (float_of_int z) = Returns z.
Proof.
  intros Hz. destruct (float_of_int_exact z Hz) as (m & e & -> & Hm & He & Hmz).
  cbn [int_of_float]. f_equal. rewrite Hmz.
  destruct (0 <=? e) eqn:Hle.
  - apply Z.leb_le in Hle. replace e with 0 by lia.
    cbn [Z.opp]. rewrite Z.pow_0_r. lia.
  - assert (Hp : 0 < 2 ^ (- e)) by (apply Z.pow_pos_nonneg; lia).
    apply Z.div_mul. lia.
Qed.

(** Adding [1.0] to a converted int of fewer than 53 bits is exact. *)
Lemma add_one_exact (z : Z) :
  1 <= z -> z + 1 < 2 ^ 53 ->
  SFadd 53 1024 (float_of_int z) (float_of_int 1) = float_of_int (z + 1).
Proof.
  intros Hz Hz1.
  destruct (float_of_int_exact z ltac:(lia)) as (m & e & -> & Hm & He & Hmz).
  change (float_of_int 1) with (S754_finite false (2 ^ 52) (-52)).
  cbn [SFadd cond_Zopp].
  replace (Z.min e (-52)) with (-52) by lia.
  rewrite !shl_align_value by lia.
  change (Z.pos (2 ^ 52)) with (2 ^ 52). rewrite Z.sub_diag, Z.pow_0_r, Z.mul_1_r.
  assert (Hsum : Z.pos m * 2 ^ (e - -52) + 2 ^ 52 = (z + 1) * 2 ^ 52).
  { rewrite Hmz. rewrite <- Z.mul_assoc, <- Z.pow_add_r by lia.
    replace (- e + (e - -52)) with 52 by lia. ring. }
  rewrite Hsum.
  destruct (z + 1) as [| p | p] eqn:Hp; try lia.
  unfold float_of_int.
  change (Z.pos p * 2 ^ 52) with (Z.pos (p * 2 ^ 52)).
  cbn [binary_normalize].
  pose proof (digits2_pos_bounds p) as [Hlo Hhi].
  pose proof (digits2_pos_le p 53 ltac:(lia)) as Hd53.
  set (d := Z.pos (digits2_pos p)) in *.
  assert (Hd1 : 1 <= d) by (unfold d; lia).
  assert (HM : Z.pos (p * 2 ^ 52) = Z.pos p * 2 ^ 52) by apply Pos2Z.inj_mul.
  assert (Hd : Z.pos (digits2_pos (p * 2 ^ 52)) = d + 52).
  { apply digits2_pos_unique. rewrite HM.
    replace (d + 52 - 1) with (d - 1 + 52) by lia.
    rewrite !Z.pow_add_r by lia. nia. }
  assert (Hp53 : 0 < 2 ^ (53 - d)) by (apply Z.pow_pos_nonneg; lia).
  (* the sum, already wider than 53 bits, is cut *)
  assert (Hl : binary_round 53 1024 false (p * 2 ^ 52) (-52)
               = S754_finite false (Z.to_pos (Z.pos p * 2 ^ (53 - d))) (d - 53)).
  { unfold binary_round, shl_align. rewrite Hd, fexp_binary64.
    replace (Z.max (d + 52 + -52 - 53) (-1074)) with (d - 53) by lia.
    destruct (d - 53 - -52) as [| k | k] eqn:Hk; try lia.
    - rewrite (binary_round_aux_divisible false (p * 2 ^ 52) (-52)
                 (Z.pos p * 2 ^ (53 - d))).
      + rewrite Hd, fexp_binary64. f_equal. lia.
      + rewrite Hd, fexp_binary64. lia.
      + rewrite Hd, fexp_binary64, HM.
        replace (Z.max (-52) (Z.max (d + 52 + -52 - 53) (-1074)) - -52) with 0 by lia.
        replace (53 - d) with 52 by lia. rewrite Z.pow_0_r. lia.
    - rewrite (binary_round_aux_divisible false (p * 2 ^ 52) (-52)
                 (Z.pos p * 2 ^ (53 - d))).
      + rewrite Hd, fexp_binary64. f_equal. lia.
      + rewrite Hd, fexp_binary64. lia.
      + rewrite Hd, fexp_binary64, HM.
        replace (Z.max (-52) (Z.max (d + 52 + -52 - 53) (-1074)) - -52)
          with (d - 1) by lia.
        rewrite <- Z.mul_assoc, <- Z.pow_add_r by lia. f_equal. f_equal. lia. }
  (* the int, of at most 53 bits, is shifted up *)
  assert (Hr : binary_round 53 1024 false p 0
               = S754_finite false (Z.to_pos (Z.pos p * 2 ^ (53 - d))) (d - 53)).
  { destruct (binary_round_normal false p 0 ltac:(fold d; lia))
      as (m' & e' & -> & Hm' & He' & Hex).
    destruct (Hex ltac:(fold d; lia)) as [He'' Hm''].
    fold d in He''. f_equal; [| lia].
    apply Pos2Z.inj. rewrite Hm'', Z2Pos.id by nia. f_equal. f_equal. lia. }
  now rewrite Hl, Hr.
Qed.

(** At [overlap = 0.5] the declared number of segments is
    [2 * (n - nfft) // nfft + 1]. *)
Lemma declared_nsegs64_half (n nfft : Z) :
  1 <= nfft <= n -> n < 2 ^ 52 ->
  declared_nsegs64 n nfft (float_ratio 1 2) = Returns (2 * (n - nfft) / nfft + 1).
Proof.
  intros Hn Hn52. unfold declared_nsegs64.
  replace (SFsub 53 1024 (float_of_int 1) (float_ratio 1 2))
    with (S754_finite false (2 ^ 52) (-53)) by (vm_compute; reflexivity).
  destruct (float_of_int_exact nfft ltac:(lia)) as (mn & en & -> & Hmn & Hen & Hmn').
  rewrite mul_half by lia.
  destruct (float_of_int_value_eq (n - nfft) ltac:(lia)) as (qa & Hqa & Heq).
  unfold py_floordiv. rewrite Hqa, float_value_finite.
  replace (0 <=? en - 1) with false by lia. cbv zeta.
  set (qb := Qmake (Z.pos mn) (Z.to_pos (2 ^ (- (en - 1))))).
  assert (Hz : Qfloor (Qdiv qa qb) = 2 * (n - nfft) / nfft).
  { rewrite Zdiv_Qdiv. apply Qfloor_comp. rewrite Heq.
    assert (Hp : 0 < 2 ^ (- (en - 1))) by (apply Z.pow_pos_nonneg; lia).
    assert (Hp2 : 2 ^ (- (en - 1)) = 2 * 2 ^ (- en)).
    { replace (- (en - 1)) with (1 + - en) by lia.
      rewrite Z.pow_add_r by lia. reflexivity. }
    destruct nfft as [| pn | pn]; try lia.
    unfold qb, Qeq, Qdiv, Qmult, Qinv, inject_Z. cbn [Qnum Qden].
    rewrite !Pos2Z.inj_mul, Z2Pos.id by exact Hp.
    rewrite Hp2, Hmn'. ring. }
  rewrite Hz.
  assert (Hz0 : 0 <= 2 * (n - nfft) / nfft) by (apply Z.div_pos; lia).
  assert (Hz1 : 2 * (n - nfft) / nfft <= 2 * (n - nfft))
    by (apply Z.div_le_upper_bound; nia).
  change (2 ^ 52) with 4503599627370496 in Hn52.
  destruct (Z.eqb_spec (2 * (n - nfft) / nfft) 0) as [H0 | H0].
  - rewrite H0. vm_compute. reflexivity.
  - rewrite add_one_exact by (change (2 ^ 53) with 9007199254740992; lia).
    rewrite int_of_float_of_int by (change (2 ^ 53) with 9007199254740992; lia).
    reflexivity.
Qed.



(* ================================================================= *)
(** * Polyphase resampling *)

(** ** Chunks of a producer as blocks of the signal *)

Lemma chunks_from_exhausted {A : Type} (pro : Producer A) (fuel pos : nat) :
  (length (data pro) <= pos)%nat -> chunks_from fuel pro pos = Ok [].
Proof.
  intros Hpos. destruct fuel as [| fuel]; [reflexivity |].
  cbn [chunks_from]. unfold producer_next.
  now replace (length (data pro) <=? pos)%nat with true
    by (symmetry; apply Nat.leb_le; lia).
Qed.

Lemma chunks_from_blocks {A : Type} (d : list A) (ax c : Z) (K : nat) :
  0 < c -> chunk_count c (length d) K ->
  forall (fuel i : nat),
    (length d - i * Z.to_nat c <= fuel)%nat -> (i <= K)%nat ->
    chunks_from fuel (mkProducer d ax c) (i * Z.to_nat c)
    = Ok (map (window_at c c d) (seq i (K - i))).
Proof.
  intros Hc [Hup Hlo].
  assert (Hc' : (1 <= Z.to_nat c)%nat) by lia.
  induction fuel as [| fuel IH]; intros i Hfuel Hi.
  - destruct (Nat.eq_dec i K) as [-> | Hne]; [now rewrite Nat.sub_diag |].
    exfalso. destruct Hlo as [-> | Hlo]; [lia |].
    assert (i * Z.to_nat c <= (K - 1) * Z.to_nat c)%nat
      by (apply Nat.mul_le_mono_r; lia).
    lia.
  - destruct (Nat.eq_dec i K) as [-> | Hne].
    + rewrite Nat.sub_diag. apply chunks_from_exhausted. cbn [data]. exact Hup.
    + assert (HiK : (i <= K - 1)%nat) by lia.
      assert (Hpos : (i * Z.to_nat c < length d)%nat).
      { destruct Hlo as [-> | Hlo]; [lia |].
        assert (i * Z.to_nat c <= (K - 1) * Z.to_nat c)%nat
          by (apply Nat.mul_le_mono_r; lia).
        lia. }
      cbn [chunks_from]. unfold producer_next. cbn [data chunksize].
      replace (length d <=? i * Z.to_nat c)%nat with false
        by (symmetry; apply Nat.leb_gt; lia).
      replace (c <=? 0) with false by lia.
      replace (K - i)%nat with (S (K - S i)) by lia. cbn [seq map].
      fold (window_at c c d i).
      assert (Hlen : length (window_at c c d i)
                     = Nat.min (Z.to_nat c) (length d - i * Z.to_nat c)).
      { unfold window_at. now rewrite length_firstn, length_skipn. }
      destruct (Nat.le_gt_cases (S i * Z.to_nat c) (length d)) as [Hfull | Hpart].
      * replace (i * Z.to_nat c + length (window_at c c d i))%nat
          with (S i * Z.to_nat c)%nat by (rewrite Hlen; cbn [Nat.mul]; lia).
        rewrite IH by (cbn [Nat.mul] in *; lia). reflexivity.
      * assert (HK : K = S i).
        { destruct Hlo as [-> | Hlo]; [lia |].
          destruct (Nat.eq_dec K (S i)) as [-> | Hne']; [reflexivity |].
          assert (S i * Z.to_nat c <= (K - 1) * Z.to_nat c)%nat
            by (apply Nat.mul_le_mono_r; lia).
          lia. }
        rewrite HK, Nat.sub_diag. cbn [seq map].
        rewrite chunks_from_exhausted; [reflexivity |].
        cbn [data]. rewrite Hlen. cbn [Nat.mul] in Hpart. lia.
Qed.

Lemma iterate_blocks {A : Type} (d : list A) (ax c : Z) (K : nat) :
  0 < c -> chunk_count c (length d) K ->
  iterate (mkProducer d ax c) = Ok (map (window_at c c d) (seq 0 K)).
Proof.
  intros Hc HK. unfold iterate. cbn [data].
  pose proof (chunks_from_blocks d ax c K Hc HK (length d) 0%nat) as H.
  cbn [Nat.mul] in H. rewrite H by lia. now rewrite Nat.sub_0_r.
Qed.

Lemma chunk_count_exists (c : Z) (len : nat) :
  0 < c -> exists K, chunk_count c len K.
Proof.
  intros Hc.
  assert (Hc' : (1 <= Z.to_nat c)%nat) by lia.
  induction len as [| len (K & Hup & Hlo)].
  - exists 0%nat. split; [lia | now left].
  - destruct (Nat.eq_dec len (K * Z.to_nat c)) as [Heq | Hne].
    + exists (S K). split; [cbn [Nat.mul]; lia | right].
      replace (S K - 1)%nat with K by lia. lia.
    + exists K. split; [lia |]. destruct Hlo as [-> | Hlo]; [lia | right; lia].
Qed.

Lemma chunk_count_Z (c : Z) (len K : nat) :
  0 < c -> chunk_count c len K ->
  Z.of_nat len / c + (if Z.of_nat len mod c =? 0 then 0 else 1) = Z.of_nat K.
Proof.
  intros Hc [Hup Hlo].
  pose proof (Z.div_mod (Z.of_nat len) c ltac:(lia)) as Hdm.
  pose proof (Z.mod_pos_bound (Z.of_nat len) c Hc) as Hm.
  assert (HupZ : Z.of_nat len <= Z.of_nat K * c) by nia.
  assert (HloZ : K = 0%nat \/ (Z.of_nat K - 1) * c < Z.of_nat len) by (destruct Hlo; [now left | right; nia]).
  destruct (Z.of_nat len mod c =? 0) eqn:Hz.
  - apply Z.eqb_eq in Hz. destruct HloZ as [-> | HloZ]; nia.
  - apply Z.eqb_neq in Hz. destruct HloZ as [-> | HloZ]; nia.
Qed.

(** ** Polyphase resampling: the sections *)

Section PolyphaseLoop.
Context {A : Type}.
Variable zero : A.
Variable d : list A.
Variables c ov : Z.

Local Abbreviation blk := (window_at c c d).

Lemma polyphase_loop_nth :
  forall (m i j : nat) (n cnt : Z) (s : pp_section A),
    n = Z.of_nat (S i) -> cnt = n + Z.of_nat m ->
    nth_error (polyphase_loop zero n cnt ov
                 (map blk (seq i (m + 2))) (map blk (seq (S i) (m + 1)))
                 (map blk (seq (S (S i)) m))) j = Some s ->
    (j < m)%nat
    /\ s = (let left := py_slice (Some (- ov)) None (blk (i + j)%nat) in
            if (S j <? m)%nat
            then mkSection left (blk (S i + j)%nat)
                           (slice_along_axis (blk (S (S i) + j)%nat) 0 ov)
            else mkSection left (blk (S i + j)%nat ++ blk (S (S i) + j)%nat)
                           (repeat zero (length left))).
Proof.
  induction m as [| m IH]; intros i j n cnt s Hn Hcnt Hnth.
  - cbn [seq map polyphase_loop] in Hnth. destruct j; discriminate.
  - replace (S m + 2)%nat with (S (m + 2)) in Hnth by lia.
    replace (S m + 1)%nat with (S (m + 1)) in Hnth by lia.
    cbn [seq map polyphase_loop] in Hnth.
    destruct j as [| j].
    + cbn [nth_error] in Hnth. injection Hnth as <-.
      split; [lia |]. rewrite !Nat.add_0_r. cbv zeta.
      destruct m as [| m].
      * replace (n <? cnt - 1) with false by lia. reflexivity.
      * replace (n <? cnt - 1) with true by lia. reflexivity.
    + cbn [nth_error] in Hnth.
      apply (IH (S i) j (n + 1) cnt) in Hnth; [| lia | lia].
      destruct Hnth as [Hj ->].
      split; [lia |].
      replace (S i + j)%nat with (i + S j)%nat by lia.
      replace (S (S i) + j)%nat with (S i + S j)%nat by lia.
      replace (S (S (S i)) + j)%nat with (S (S i) + S j)%nat by lia.
      change (S (S j) <? S m)%nat with (S j <? m)%nat.
      reflexivity.
Qed.

Lemma length_polyphase_loop :
  forall (m i : nat) (n cnt : Z),
    length (polyphase_loop zero n cnt ov
              (map blk (seq i (m + 2))) (map blk (seq (S i) (m + 1)))
              (map blk (seq (S (S i)) m))) = m.
Proof.
  induction m as [| m IH]; intros i n cnt.
  - reflexivity.
  - replace (S m + 2)%nat with (S (m + 2)) by lia.
    replace (S m + 1)%nat with (S (m + 1)) by lia.
    cbn [seq map polyphase_loop length]. now rewrite IH.
Qed.
End PolyphaseLoop.

Lemma firstn_plus {A : Type} (a b : nat) (l : list A) :
  firstn (a + b) l = firstn a l ++ firstn b (skipn a l).
Proof.
  revert l. induction a as [| a IH]; intros [| x l]; cbn [Nat.add firstn skipn app].
  - reflexivity.
  - reflexivity.
  - now destruct b.
  - now rewrite IH.
Qed.

Lemma py_slice_last {A : Type} (l : list A) (k : Z) :
  1 <= k <= zlen l ->
  py_slice (Some (- k)) None l = skipn (length l - Z.to_nat k) l.
Proof.
  intros Hk. unfold py_slice, slice_index. unfold zlen in Hk.
  replace (- k <? 0) with true by lia.
  rewrite Z.min_r, Z.max_r by lia.
  replace (Z.to_nat (- k + Z.of_nat (length l))) with (length l - Z.to_nat k)%nat
    by lia.
  apply firstn_all2. rewrite length_skipn. lia.
Qed.

Section PolyphaseWindows.
Context {A : Type}.
Variable zero : A.
Variable d : list A.
Variables cn on K : nat.
Hypothesis on_pos : (1 <= on)%nat.
Hypothesis on_le : (on <= cn)%nat.
Hypothesis K_up : (length d <= K * cn)%nat.
Hypothesis K_lo : ((K - 1) * cn < length d)%nat.
Hypothesis K_ge : (3 <= K)%nat.

Local Abbreviation E := (repeat zero on ++ d ++ repeat zero on).

Lemma full_block (t : nat) : (t + 1 <= K - 1)%nat -> ((t + 1) * cn <= length d)%nat.
Proof.
  intros Ht.
  assert ((t + 1) * cn <= (K - 1) * cn)%nat by (apply Nat.mul_le_mono_r; lia).
  lia.
Qed.

Lemma pp_first_window :
  repeat zero on ++ firstn cn d ++ firstn on (firstn cn (skipn cn d))
  = firstn (cn + 2 * on) E.
Proof.
  pose proof (full_block 1 ltac:(lia)) as Hfull.
  replace (cn + 2 * on)%nat with (length (repeat zero on) + (cn + on))%nat
    by (rewrite repeat_length; lia).
  rewrite firstn_app_2. f_equal.
  rewrite firstn_app.
  replace (cn + on - length d)%nat with 0%nat by lia.
  cbn [firstn]. rewrite app_nil_r.
  rewrite firstn_firstn, Nat.min_l by lia.
  now rewrite firstn_plus.
Qed.

Lemma skipn_E (p : nat) :
  (on <= p)%nat -> (p - on <= length d)%nat ->
  skipn p E = skipn (p - on) d ++ repeat zero on.
Proof.
  intros Hp Hd. rewrite skipn_app, repeat_length.
  rewrite (skipn_all2 (repeat zero on)) by (rewrite repeat_length; lia).
  cbn [app]. rewrite skipn_app.
  replace (p - on - length d)%nat with 0%nat by lia.
  reflexivity.
Qed.

Lemma pp_left_block (t : nat) :
  (1 <= t)%nat -> (t * cn <= length d)%nat ->
  skipn (cn - on) (firstn cn (skipn ((t - 1) * cn) d))
  = firstn on (skipn (t * cn - on) d).
Proof.
  intros Ht Hfull.
  rewrite skipn_firstn_comm, skipn_skipn.
  replace (cn - (cn - on))%nat with on by lia.
  replace (cn - on + (t - 1) * cn)%nat with (t * cn - on)%nat; [reflexivity |].
  destruct t as [| t]; [lia |].
  replace (S t - 1)%nat with t by lia. cbn [Nat.mul]. lia.
Qed.

Lemma pp_middle_window (t : nat) :
  (1 <= t)%nat -> (t + 2 <= K - 1)%nat ->
  skipn (cn - on) (firstn cn (skipn ((t - 1) * cn) d))
  ++ firstn cn (skipn (t * cn) d)
  ++ firstn on (firstn cn (skipn ((t + 1) * cn) d))
  = firstn (cn + 2 * on) (skipn (t * cn) E).
Proof.
  intros Ht HtK.
  pose proof (full_block (t + 1) ltac:(lia)) as Hfull.
  assert (Hcn : (cn <= t * cn)%nat).
  { assert (1 * cn <= t * cn)%nat by (apply Nat.mul_le_mono_r; lia). lia. }
  assert (Ht1 : ((t + 1) * cn = t * cn + cn)%nat) by lia.
  assert (Ht2 : ((t + 1 + 1) * cn = t * cn + cn + cn)%nat) by lia.
  rewrite pp_left_block by lia.
  rewrite skipn_E by lia.
  rewrite firstn_app, length_skipn.
  replace (cn + 2 * on - (length d - (t * cn - on)))%nat with 0%nat by lia.
  cbn [firstn]. rewrite app_nil_r.
  rewrite firstn_firstn, Nat.min_l by lia.
  replace (cn + 2 * on)%nat with (on + (cn + on))%nat by lia.
  rewrite (firstn_plus on (cn + on)), (firstn_plus cn on), !skipn_skipn.
  replace (on + (t * cn - on))%nat with (t * cn)%nat by lia.
  replace (cn + t * cn)%nat with ((t + 1) * cn)%nat by lia.
  reflexivity.
Qed.

Lemma pp_last_curr :
  firstn cn (skipn ((K - 2) * cn) d) ++ firstn cn (skipn ((K - 2 + 1) * cn) d)
  = skipn ((K - 2) * cn) d.
Proof.
  assert (HK1 : ((K - 2 + 1) * cn = (K - 2) * cn + cn)%nat) by lia.
  assert (HK2 : (K * cn = (K - 2) * cn + cn + cn)%nat).
  { replace K with (K - 2 + 2)%nat at 1 by lia. lia. }
  replace ((K - 2 + 1) * cn)%nat with (cn + (K - 2) * cn)%nat by lia.
  rewrite <- skipn_skipn, <- firstn_plus.
  apply firstn_all2. rewrite length_skipn. lia.
Qed.

Lemma pp_last_window :
  skipn (cn - on) (firstn cn (skipn ((K - 2 - 1) * cn) d))
  ++ skipn ((K - 2) * cn) d
  ++ repeat zero on
  = firstn (length d - (K - 2) * cn + 2 * on) (skipn ((K - 2) * cn) E).
Proof.
  pose proof (full_block (K - 2) ltac:(lia)) as Hfull.
  assert (HK1 : ((K - 2 + 1) * cn = (K - 2) * cn + cn)%nat) by lia.
  assert (Hcn : (cn <= (K - 2) * cn)%nat).
  { assert (1 * cn <= (K - 2) * cn)%nat by (apply Nat.mul_le_mono_r; lia). lia. }
  rewrite pp_left_block by lia.
  rewrite skipn_E by lia.
  rewrite (firstn_all2 (n := length d - (K - 2) * cn + 2 * on))
    by (rewrite length_app, length_skipn, repeat_length; lia).
  rewrite app_assoc. f_equal.
  replace (skipn ((K - 2) * cn) d)
    with (skipn on (skipn ((K - 2) * cn - on) d))
    by (rewrite skipn_skipn; f_equal; lia).
  apply firstn_skipn.
Qed.
End PolyphaseWindows.

Lemma length_window_full {A : Type} (c : Z) (d : list A) (t : nat) :
  ((t + 1) * Z.to_nat c <= length d)%nat ->
  length (window_at c c d t) = Z.to_nat c.
Proof. intros H. apply length_window_at. lia. Qed.

Section PolyphaseSections.
Context {A : Type}.
Variable zero : A.
Variable pro : Producer A.
Variables M c : Z.
Variable h : list A.
Variable K : nat.
Hypothesis ov_range : 1 <= polyphase_overhang h M <= c.
Hypothesis K_count : chunk_count c (length (data pro)) K.
Hypothesis K_ge : (3 <= K)%nat.

Local Abbreviation ov := (polyphase_overhang h M).
Local Abbreviation d := (data pro).
Local Abbreviation cn := (Z.to_nat c).
Local Abbreviation on := (Z.to_nat (polyphase_overhang h M)).

Lemma polyphase_sections_windows :
  exists secs,
    polyphase_sections zero pro M c h = Returns secs
    /\ map (fun s => (pp_padded s, pp_curr s)) secs
       = map (fun j => (firstn (pp_extent c (length d) K j + 2 * on)
                               (skipn (j * cn) (zero_extended zero ov d)),
                        firstn (pp_extent c (length d) K j) (skipn (j * cn) d)))
             (seq 0 (K - 1)).
Proof.
  destruct K_count as [K_up K_lo].
  destruct K_lo as [-> | K_lo]; [lia |].
  assert (Hon : (1 <= on)%nat) by lia.
  assert (Hle : (on <= cn)%nat) by lia.
  pose proof (full_block d cn on K Hon Hle K_up K_lo K_ge) as Hfull.
  unfold polyphase_sections, producer.
  replace (ov <? 0) with false by lia.
  rewrite (iterate_blocks d (axis pro) c K ltac:(lia) K_count).
  assert (Hseq : seq 0 K = 0%nat :: 1%nat :: seq 2 (K - 2)).
  { replace K with (S (S (K - 2))) at 1 by lia. reflexivity. }
  rewrite Hseq. cbn [map].
  replace (shape pro / c + (if shape pro mod c =? 0 then 0 else 1) - 1)
    with (1 + Z.of_nat (K - 2))
    by (unfold shape, zlen; rewrite (chunk_count_Z c _ K ltac:(lia) K_count); lia).
  eexists. split; [reflexivity |].
  assert (Hb0 : length (window_at c c d 0) = cn)
    by (apply length_window_full; apply Hfull; lia).
  assert (Hb1 : length (window_at c c d 1) = cn)
    by (apply length_window_full; apply Hfull; lia).
  apply nth_error_ext. intros [| j].
    + replace (K - 1)%nat with (S (K - 2)) by lia. cbn [seq map nth_error].
      f_equal. unfold pp_extent. replace (0 <? K - 2)%nat with true
        by (symmetry; apply Nat.ltb_lt; lia).
      f_equal; try reflexivity.
      unfold pp_padded. cbn [pp_left pp_curr pp_right].
      unfold slice_along_axis. rewrite py_slice_prefix by (unfold zlen; lia).
      change (0 * cn)%nat with 0%nat. cbn [skipn]. unfold zero_extended.
      rewrite <- (pp_first_window zero d cn on K Hon Hle K_up K_lo K_ge).
      unfold window_at. change (0 * cn)%nat with 0%nat.
      rewrite Nat.mul_1_l. reflexivity.
    + rewrite (nth_error_map _ (S j) (seq 0 (K - 1))), nth_error_seq.
      cbn [map nth_error]. rewrite nth_error_map.
      destruct (nth_error _ j) as [s |] eqn:Hnth.
      * replace (cons (window_at c c d 0) (cons (window_at c c d 1)
                   (map (window_at c c d) (seq 2 (K - 2)))))
          with (map (window_at c c d) (seq 0 (K - 2 + 2))) in Hnth
          by (rewrite Nat.add_comm; reflexivity).
        replace (cons (window_at c c d 1) (map (window_at c c d) (seq 2 (K - 2))))
          with (map (window_at c c d) (seq 1 (K - 2 + 1))) in Hnth
          by (rewrite Nat.add_comm; reflexivity).
        apply (polyphase_loop_nth zero d c ov (K - 2) 0 j 1 (1 + Z.of_nat (K - 2)))
          in Hnth; [| reflexivity | reflexivity].
        destruct Hnth as [Hj ->].
        replace (S j <? K - 1)%nat with true by (symmetry; apply Nat.ltb_lt; lia).
        cbn [option_map Nat.add]. f_equal.
        assert (Hbj : length (window_at c c d j) = cn)
          by (apply length_window_full; apply Hfull; lia).
        rewrite py_slice_last by (unfold zlen; lia). rewrite Hbj.
        unfold pp_extent. cbv zeta.
        destruct (S j <? K - 2)%nat eqn:Hmid.
        -- apply Nat.ltb_lt in Hmid. f_equal; try reflexivity. unfold pp_padded.
           cbn [pp_left pp_curr pp_right].
           assert (Hbn : length (window_at c c d (S (S j))) = cn)
             by (apply length_window_full; apply Hfull; lia).
           unfold slice_along_axis.
           rewrite py_slice_prefix by (unfold zlen; lia).
           unfold zero_extended.
           rewrite <- (pp_middle_window zero d cn on K Hon Hle K_up K_lo K_ge (S j) ltac:(lia)
                         ltac:(lia)).
           unfold window_at.
           replace (S j - 1)%nat with j by lia.
           replace (S j + 1)%nat with (S (S j)) by lia.
           reflexivity.
        -- apply Nat.ltb_ge in Hmid. assert (HjK : S j = (K - 2)%nat) by lia.
           f_equal.
           2:{ cbn [pp_curr]. rewrite HjK.
               rewrite firstn_all2 by (rewrite length_skipn; lia).
               rewrite <- (pp_last_curr d cn on K Hon Hle K_up K_lo K_ge).
               unfold window_at.
               replace (S (K - 2))%nat with (K - 2 + 1)%nat by lia.
               reflexivity. }
           unfold pp_padded. cbn [pp_left pp_curr pp_right].
           rewrite length_skipn, Hbj.
           replace (cn - (cn - on))%nat with on by lia.
           unfold zero_extended. rewrite HjK.
           rewrite <- (pp_last_window zero d cn on K Hon Hle K_up K_lo K_ge).
           rewrite <- (pp_last_curr d cn on K Hon Hle K_up K_lo K_ge).
           unfold window_at.
           replace (S (K - 2))%nat with (K - 2 + 1)%nat by lia.
           replace j with (K - 2 - 1)%nat by lia.
           reflexivity.
      * apply nth_error_None in Hnth.
        replace (cons (window_at c c d 0) (cons (window_at c c d 1)
                   (map (window_at c c d) (seq 2 (K - 2)))))
          with (map (window_at c c d) (seq 0 (K - 2 + 2))) in Hnth
          by (rewrite Nat.add_comm; reflexivity).
        replace (cons (window_at c c d 1) (map (window_at c c d) (seq 2 (K - 2))))
          with (map (window_at c c d) (seq 1 (K - 2 + 1))) in Hnth
          by (rewrite Nat.add_comm; reflexivity).
        rewrite length_polyphase_loop in Hnth.
        replace (S j <? K - 1)%nat with false by (symmetry; apply Nat.ltb_ge; lia).
        reflexivity.
Qed.
End PolyphaseSections.

Lemma concat_full_blocks {A : Type} (d : list A) (cn : nat) :
  forall (m p : nat),
    concat (map (fun j => firstn cn (skipn (j * cn) d)) (seq p m))
    = firstn (m * cn) (skipn (p * cn) d).
Proof.
  induction m as [| m IH]; intros p.
  - reflexivity.
  - cbn [seq map concat]. rewrite IH.
    replace (S m * cn)%nat with (cn + m * cn)%nat by lia.
    rewrite firstn_plus, skipn_skipn.
    replace (cn + p * cn)%nat with (S p * cn)%nat by lia.
    reflexivity.
Qed.

Lemma chunk_count_ge_3 (c : Z) (len K : nat) :
  0 < c -> 2 * c < Z.of_nat len -> chunk_count c len K -> (3 <= K)%nat.
Proof.
  intros Hc Hlen [Hup _].
  destruct (Nat.le_gt_cases 3 K) as [Hge | Hlt]; [exact Hge |].
  assert (K * Z.to_nat c <= 2 * Z.to_nat c)%nat by (apply Nat.mul_le_mono_r; lia).
  lia.
Qed.

Section PolyphaseResample.
Context {A B : Type}.
Variable zero : A.
Variable fir : Z -> Z -> Z -> Z -> Z -> list A.
Variable sps_resample_poly : list A -> Z -> Z -> list A -> list B.

(** X15: with at least three chunks and an overhang of at least one
    sample that fits in a chunk, [polyphase_resample] yields one array
    per chunk but the last; the [j]-th is the resampling, trimmed by
    [overhang * L / M] values at either end, of the window of the
    zero-extended signal that starts at sample [j * csize] and spans the
    section's own samples and [overhang] more on either side, the last
    section taking all that is left. *)
Theorem polyphase_resample_windows (pro : Producer A)
  (L M fs chunksize csize : Z) (kwargs : pp_kwargs) :
  polyphase_resample_csize pro M chunksize = Ok csize ->
  1 <= M ->
  1 <= polyphase_overhang (polyphase_filter fir L M fs kwargs) M <= csize ->
  2 * csize < shape pro ->
  let h := polyphase_filter fir L M fs kwargs in
  let ov := polyphase_overhang h M in
  let a := Z.quot (ov * L) M in
  exists K : nat,
    chunk_count csize (length (data pro)) K /\ (3 <= K)%nat
    /\ polyphase_resample zero fir sps_resample_poly pro L M fs chunksize kwargs
       = Returns
           (map (fun j =>
                   slice_along_axis
                     (sps_resample_poly
                        (firstn (pp_extent csize (length (data pro)) K j
                                 + 2 * Z.to_nat ov)
                                (skipn (j * Z.to_nat csize)
                                       (zero_extended zero ov (data pro))))
                        L M h) a (- a))
                (seq 0 (K - 1))).
Proof.
  intros Hcsize HM Hov Hlen h ov a.
  destruct (chunk_count_exists csize (length (data pro)) ltac:(lia)) as [K HK].
  assert (HK3 : (3 <= K)%nat)
    by (apply (chunk_count_ge_3 csize (length (data pro))); [lia | exact Hlen | exact HK]).
  exists K. split; [exact HK |]. split; [exact HK3 |].
  unfold polyphase_resample. rewrite Hcsize.
  replace (Z.max L M =? 0) with false by lia.
  destruct (polyphase_sections_windows zero pro M csize
              (polyphase_filter fir L M fs kwargs) K Hov HK HK3)
    as (secs & -> & Hsecs).
  f_equal. fold h. fold ov. fold a.
  apply (f_equal (map fst)) in Hsecs. rewrite !map_map in Hsecs.
  cbn [fst] in Hsecs.
  change (map (fun x => pp_padded x) secs) with (map pp_padded secs) in Hsecs.
  rewrite <- (map_map pp_padded
                (fun x => slice_along_axis (sps_resample_poly x L M h) a (- a))).
  rewrite Hsecs, map_map. reflexivity.
Qed.

(** X16: under the same conditions the own parts of the sections are
    consecutive pieces of the signal that together make up all of it:
    every input sample is resampled as part of exactly one section. *)
Theorem polyphase_sections_partition (pro : Producer A) (M csize : Z)
  (h : list A) :
  1 <= polyphase_overhang h M <= csize -> 2 * csize < shape pro ->
  exists secs,
    polyphase_sections zero pro M csize h = Returns secs
    /\ concat (map pp_curr secs) = data pro
    /\ Z.of_nat (length secs)
       = shape pro / csize + (if shape pro mod csize =? 0 then 0 else 1) - 1.
Proof.
  intros Hov Hlen.
  destruct (chunk_count_exists csize (length (data pro)) ltac:(lia)) as [K HK].
  assert (HK3 : (3 <= K)%nat)
    by (apply (chunk_count_ge_3 csize (length (data pro))); [lia | exact Hlen | exact HK]).
  destruct (polyphase_sections_windows zero pro M csize h K Hov HK HK3)
    as (secs & Hsecs & Hmap).
  exists secs. split; [exact Hsecs |].
  pose proof (f_equal (map snd) Hmap) as Hcurr.
  rewrite !map_map in Hcurr. cbn [snd] in Hcurr.
  change (map (fun x => pp_curr x) secs) with (map pp_curr secs) in Hcurr.
  pose proof (f_equal (@length _) Hmap) as Hlength.
  rewrite !length_map, length_seq in Hlength.
  split.
  - rewrite Hcurr.
    destruct HK as [Hup [-> | Hlo]]; [lia |].
    replace (K - 1)%nat with (K - 2 + 1)%nat by lia.
    rewrite seq_app, map_app, concat_app. cbn [seq map concat Nat.add].
    rewrite app_nil_r.
    rewrite (map_ext_in _ (fun j => firstn (Z.to_nat csize)
                                      (skipn (j * Z.to_nat csize) (data pro)))).
    + rewrite concat_full_blocks. cbn [Nat.mul skipn].
      unfold pp_extent. rewrite Nat.ltb_irrefl.
      rewrite (firstn_all2 (n := length (data pro) - (K - 2) * Z.to_nat csize))
        by (rewrite length_skipn; lia).
      apply firstn_skipn.
    + intros j Hj. apply in_seq in Hj. unfold pp_extent.
      now replace (j <? K - 2)%nat with true by (symmetry; apply Nat.ltb_lt; lia).
  - rewrite Hlength. unfold shape, zlen.
    rewrite (chunk_count_Z csize _ K ltac:(lia) HK). lia.
Qed.
End PolyphaseResample.

Lemma polyphase_overhang_bounds {A : Type} (h : list A) (M : Z) :
  1 <= M -> zlen h - 1 <= polyphase_overhang h M < zlen h - 1 + M.
Proof. intros HM. unfold polyphase_overhang. apply ceil_div_bounds. lia. Qed.

Section PolyphaseEdges.
Context {A B : Type}.
Variable zero : A.
Variable fir : Z -> Z -> Z -> Z -> Z -> list A.
Variable sps_resample_poly : list A -> Z -> Z -> list A -> list B.

(** X17: when the signal makes exactly two chunks, the loop over the
    remaining chunks has nothing to do: one array is yielded, computed
    from the first chunk and at most [overhang] samples of the second;
    the second chunk is never resampled as a section of its own. *)
Theorem polyphase_resample_two_chunks (pro : Producer A)
  (L M fs chunksize csize : Z) (kwargs : pp_kwargs) :
  polyphase_resample_csize pro M chunksize = Ok csize ->
  1 <= M -> 1 <= zlen (polyphase_filter fir L M fs kwargs) ->
  csize < shape pro <= 2 * csize ->
  let h := polyphase_filter fir L M fs kwargs in
  let ov := polyphase_overhang h M in
  let a := Z.quot (ov * L) M in
  polyphase_resample zero fir sps_resample_poly pro L M fs chunksize kwargs
  = Returns
      [slice_along_axis
         (sps_resample_poly
            (repeat zero (Z.to_nat ov)
             ++ firstn (Z.to_nat csize) (data pro)
             ++ slice_along_axis (skipn (Z.to_nat csize) (data pro)) 0 ov)
            L M h) a (- a)].
Proof.
  intros Hcsize HM Hh Hlen h ov a.
  pose proof (polyphase_overhang_bounds h M HM) as Hov. fold ov in Hov.
  fold h in Hh.
  unfold shape, zlen in Hlen.
  assert (Hc : 0 < csize).
  { destruct (Z_lt_le_dec 0 csize) as [Hpos | Hneg]; [exact Hpos |].
    pose proof (Nat2Z.is_nonneg (length (data pro))). lia. }
  assert (HK : chunk_count csize (length (data pro)) 2).
  { split; [lia | right; cbn [Nat.sub]; lia]. }
  unfold polyphase_resample. rewrite Hcsize.
  replace (Z.max L M =? 0) with false by lia.
  unfold polyphase_sections, producer. fold h. fold ov.
  replace (ov <? 0) with false by lia.
  rewrite (iterate_blocks (data pro) (axis pro) csize 2 Hc HK).
  cbn [seq map polyphase_loop pp_padded pp_left pp_curr pp_right].
  unfold window_at. change (0 * Z.to_nat csize)%nat with 0%nat.
  rewrite Nat.mul_1_l. cbn [skipn].
  rewrite (firstn_all2 (n := Z.to_nat csize)
             (skipn (Z.to_nat csize) (data pro)))
    by (rewrite length_skipn; lia).
  reflexivity.
Qed.

(** X18: the overhang is the least multiple of [M] that covers the
    [len(h) - 1] samples the filter reaches over, so the count
    [overhang * L / M] of values trimmed from either end of a resampled
    section is exact; with a one-tap filter it is zero, and the slice
    [a:-a] then keeps nothing of any section. *)
Theorem polyphase_overhang_exact (h : list A) (L M : Z) :
  1 <= M -> 1 <= zlen h ->
  let ov := polyphase_overhang h M in
  let a := Z.quot (ov * L) M in
  (M | ov)
  /\ zlen h - 1 <= ov < zlen h - 1 + M
  /\ a * M = ov * L
  /\ (zlen h = 1 -> forall x : list B, slice_along_axis x a (- a) = []).
Proof.
  intros HM Hh ov a.
  pose proof (polyphase_overhang_bounds h M HM) as Hov. fold ov in Hov.
  assert (Hdiv : (M | ov)) by (exists (ceil_div (zlen h - 1) M); reflexivity).
  split; [exact Hdiv |]. split; [exact Hov |]. split.
  - destruct Hdiv as [q Hq]. unfold a. rewrite Hq.
    replace (q * M * L) with (q * L * M) by ring.
    rewrite Z.quot_mul by lia. ring.
  - intros H1 x.
    assert (Hov0 : ov = 0).
    { destruct Hdiv as [q Hq]. assert (0 <= q * M < M) by lia.
      assert (q = 0) by nia. subst q. lia. }
    unfold a. rewrite Hov0. cbn [Z.mul]. rewrite Z.quot_0_l by lia.
    unfold slice_along_axis, py_slice, slice_index. cbn [Z.opp Z.ltb Z.compare].
    now rewrite Z.sub_diag.
Qed.
End PolyphaseEdges.

Lemma polyphase_resample_windows_witness :
  exists K : nat,
    chunk_count 4 (length (ramp 20)) K /\ (3 <= K)%nat
    /\ polyphase_resample 0 (fun _ _ _ _ _ => [1; 2; 1]) (fun x _ _ _ => x)
         (mkProducer (ramp 20) (-1) 7) 1 2 100 4 (mkKwargs None None None None)
       = Returns
           (map (fun j =>
                   slice_along_axis
                     (firstn (pp_extent 4 (length (ramp 20)) K j + 2 * Z.to_nat 2)
                             (skipn (j * Z.to_nat 4)
                                    (zero_extended 0 2 (ramp 20))))
                     1 (- 1))
                (seq 0 (K - 1))).
Proof.
  apply (polyphase_resample_windows 0 (fun _ _ _ _ _ => [1; 2; 1])
           (fun x _ _ _ => x) (mkProducer (ramp 20) (-1) 7) 1 2 100 4 4
           (mkKwargs None None None None)).
  - reflexivity.
  - lia.
  - vm_compute. split; discriminate.
  - reflexivity.
Defined.

Lemma polyphase_sections_partition_witness :
  exists secs,
    polyphase_sections 0 (mkProducer (ramp 20) (-1) 7) 2 4 [1; 2; 1]
    = Returns secs
    /\ concat (map pp_curr secs) = ramp 20
    /\ Z.of_nat (length secs) = 4.
Proof.
  apply (polyphase_sections_partition 0 (mkProducer (ramp 20) (-1) 7) 2 4
           [1; 2; 1]).
  - vm_compute. split; discriminate.
  - reflexivity.
Defined.

Lemma polyphase_resample_two_chunks_witness :
  polyphase_resample 0 (fun _ _ _ _ _ => [1; 2; 1]) (fun x _ _ _ => x)
    (mkProducer (ramp 10) (-1) 7) 1 5 100 5 (mkKwargs None None None None)
  = Returns [[0; 0; 0; 0; 1; 2; 3; 4; 5; 6; 7; 8; 9]].
Proof.
  apply (polyphase_resample_two_chunks 0 (fun _ _ _ _ _ => [1; 2; 1])
           (fun x _ _ _ => x) (mkProducer (ramp 10) (-1) 7) 1 5 100 5 5
           (mkKwargs None None None None)).
  - reflexivity.
  - lia.
  - vm_compute. discriminate.
  - vm_compute. split; [reflexivity | discriminate].
Defined.

Lemma polyphase_overhang_exact_witness :
  (3 | polyphase_overhang [1; 2; 1; 2; 1] 3)
  /\ zlen [1; 2; 1; 2; 1] - 1 <= polyphase_overhang [1; 2; 1; 2; 1] 3
     < zlen [1; 2; 1; 2; 1] - 1 + 3
  /\ Z.quot (polyphase_overhang [1; 2; 1; 2; 1] 3 * 2) 3 * 3
     = polyphase_overhang [1; 2; 1; 2; 1] 3 * 2
  /\ (zlen [1; 2; 1; 2; 1] = 1 ->
      forall x : list Z,
        slice_along_axis x (Z.quot (polyphase_overhang [1; 2; 1; 2; 1] 3 * 2) 3)
                         (- Z.quot (polyphase_overhang [1; 2; 1; 2; 1] 3 * 2) 3)
        = []).
Proof.
  apply (@polyphase_overhang_exact Z Z [1; 2; 1; 2; 1] 2 3).
  - lia.
  - vm_compute. discriminate.
Defined.

(* ================================================================= *)
(** * Forward-backward filtering, averaging, segment times *)

(** ** Forward-backward filtering *)

Lemma slice_first_sample {A : Type} (x : A) (l : list A) :
  slice_along_axis (x :: l) 0 1 = [x].
Proof.
  unfold slice_along_axis, py_slice, slice_index.
  change (0 <? 0) with false. change (1 <? 0) with false. cbv iota.
  assert (Hn : 1 <= Z.of_nat (length (x :: l))) by (cbn [length]; lia).
  rewrite (Z.min_r _ 0), (Z.min_r _ 1), !Z.max_r by lia.
  reflexivity.
Qed.

Lemma chunks_nonempty {A : Type} (pro : Producer A) (cs : list (list A)) :
  0 < chunksize pro -> iterate pro = Ok cs -> Forall (fun c => c <> []) cs.
Proof.
  intros Hc Hit. destruct pro as [d ax c]. cbn [chunksize] in Hc.
  destruct (chunk_count_exists c (length d) Hc) as [K HK].
  rewrite (iterate_blocks d ax c K Hc HK) in Hit. injection Hit as <-.
  apply Forall_forall. intros x Hx. apply in_map_iff in Hx.
  destruct Hx as (i & <- & Hi). apply in_seq in Hi.
  destruct HK as [Hup [-> | Hlo]]; [lia |].
  assert (Hpos : (i * Z.to_nat c < length d)%nat).
  { assert (i * Z.to_nat c <= (K - 1) * Z.to_nat c)%nat
      by (apply Nat.mul_le_mono_r; lia).
    lia. }
  intros Hnil. apply (f_equal (@length A)) in Hnil.
  unfold window_at in Hnil. rewrite length_firstn, length_skipn in Hnil.
  cbn [length] in Hnil. lia.
Qed.

Section SOSFiltFiltFacts.
Variable R : Type.
Variable rzero : R.
Variables radd rsub rmul : R -> R -> R.
Variable sps_sosfilt_zi : list (sos_row R) -> list (R * R).

Local Abbreviation filt := (sps_sosfilt radd rsub rmul).
Local Abbreviation loop := (sosfilt_loop radd rsub rmul).

Lemma length_sps_sosfilt (sos : list (sos_row R)) (x : list R) :
  forall z, length (fst (filt sos x z)) = length x.
Proof.
  induction x as [| x0 x IH]; intros z.
  - reflexivity.
  - cbn [sps_sosfilt].
    destruct (sos_sample radd rsub rmul sos z x0) as [y0 z'].
    specialize (IH z'). destruct (filt sos x z') as [ys zf].
    cbn [fst length] in *. now rewrite IH.
Qed.

Lemma length_sosfilt_loop (sos : list (sos_row R)) (subarrs : list (list R)) :
  forall z, map (@length R) (loop sos z subarrs) = map (@length R) subarrs.
Proof.
  induction subarrs as [| c cs IH]; intros z.
  - reflexivity.
  - cbn [sosfilt_loop map].
    pose proof (length_sps_sosfilt sos c z) as Hlen.
    destruct (filt sos c z) as [y z']. cbn [fst] in Hlen.
    cbn [map]. now rewrite Hlen, IH.
Qed.

Lemma sosfilt_loop_nonempty (sos : list (sos_row R)) (subarrs : list (list R)) :
  Forall (fun a => a <> []) subarrs ->
  forall z, Forall (fun a => a <> []) (loop sos z subarrs).
Proof.
  induction 1 as [| c cs Hc _ IH]; intros z.
  - constructor.
  - cbn [sosfilt_loop].
    pose proof (length_sps_sosfilt sos c z) as Hlen.
    destruct (filt sos c z) as [y z']. cbn [fst] in Hlen.
    constructor; [| apply IH].
    intros ->. cbn [length] in Hlen. symmetry in Hlen.
    now apply length_zero_iff_nil in Hlen.
Qed.

(** The backward pass over one forward array. *)
Lemma sosfiltfilt_backward_ok (sos : list (sos_row R)) (zi : list (R * R))
  (arr : list R) (x : R) :
  arr <> [] ->
  sosfiltfilt_backward radd rsub rmul sos zi arr
  = Ok (rev (fst (filt sos (rev arr) (scale_zi rmul zi (last arr x))))).
Proof.
  intros Hne. unfold sosfiltfilt_backward.
  destruct (rev arr) as [| y0 r] eqn:Hrev.
  - apply (f_equal (@rev R)) in Hrev. rewrite rev_involutive in Hrev.
    now subst arr.
  - rewrite slice_first_sample.
    assert (Hlast : last arr x = y0).
    { rewrite <- (rev_involutive arr), Hrev. cbn [rev]. apply last_last. }
    rewrite Hlast.
    now destruct (filt sos (y0 :: r) (scale_zi rmul zi y0)).
Qed.

Lemma sosfiltfilt_loop_ok (sos : list (sos_row R)) (zi : list (R * R)) (x : R) :
  forall forward,
    Forall (fun a => a <> []) forward ->
    sosfiltfilt_loop radd rsub rmul sos zi forward
    = Ok (map (fun arr =>
                 rev (fst (filt sos (rev arr) (scale_zi rmul zi (last arr x)))))
              forward).
Proof.
  induction forward as [| arr rest IH]; intros Hall.
  - reflexivity.
  - inversion Hall as [| ? ? Hne Hrest]; subst.
    cbn [sosfiltfilt_loop map].
    rewrite (sosfiltfilt_backward_ok sos zi arr x Hne), (IH Hrest).
    reflexivity.
Qed.

(** X14: on a signal with at least one sample, [sosfiltfilt] yields one
    array per chunk of the producer, each as long as its chunk.  The
    forward arrays concatenate to one pass of the cascade over the whole
    signal from the state [zi * x[0]]; every yielded array is the
    backward pass over its own forward array alone, started from
    [zi] times that array's last sample. *)
Theorem sosfiltfilt_per_chunk (pro : Producer R) (sos : list (sos_row R))
  (chunksize' : Z) (x0 : R) (rest : list R) :
  0 < chunksize pro -> data pro = x0 :: rest ->
  let zi := sps_sosfilt_zi sos in
  exists cs forward ys,
    iterate pro = Ok cs
    /\ sosfilt rzero radd rsub rmul pro sos chunksize' (Some (scale_zi rmul zi x0))
       = Ok forward
    /\ concat forward = fst (filt sos (data pro) (scale_zi rmul zi x0))
    /\ sosfiltfilt rzero radd rsub rmul sps_sosfilt_zi pro sos chunksize'
       = Returns ys
    /\ ys = map (fun arr =>
                   rev (fst (filt sos (rev arr)
                                  (scale_zi rmul zi (last arr x0)))))
                forward
    /\ map (@length R) ys = map (@length R) cs.
Proof.
  intros Hc Hdata zi.
  destruct (iterate_concat pro Hc) as (cs & Hit & Hcat).
  pose proof (chunks_nonempty pro cs Hc Hit) as Hne.
  exists cs, (loop sos (scale_zi rmul zi x0) cs).
  eexists. split; [exact Hit |].
  assert (Hfwd : sosfilt rzero radd rsub rmul pro sos chunksize'
                   (Some (scale_zi rmul zi x0))
                 = Ok (loop sos (scale_zi rmul zi x0) cs)).
  { unfold sosfilt. now rewrite Hit. }
  split; [exact Hfwd |].
  split; [now rewrite sosfilt_loop_concat, Hcat |].
  pose proof (sosfilt_loop_nonempty sos cs Hne (scale_zi rmul zi x0)) as Hfne.
  assert (Hfirst : producer_next pro 0
                   = Chunk (x0 :: firstn (Z.to_nat (chunksize pro) - 1) rest)
                           (0 + length (x0 :: firstn (Z.to_nat (chunksize pro) - 1) rest))).
  { unfold producer_next. rewrite Hdata. cbn [length Nat.leb skipn].
    replace (chunksize pro <=? 0) with false by lia.
    replace (Z.to_nat (chunksize pro)) with (S (Z.to_nat (chunksize pro) - 1))
      at 1 2 by lia.
    reflexivity. }
  split; [| split; [reflexivity |]].
  - unfold sosfiltfilt. rewrite Hfirst, slice_first_sample.
    fold zi. rewrite Hfwd.
    now rewrite (sosfiltfilt_loop_ok sos zi x0 _ Hfne).
  - rewrite map_map.
    rewrite <- (length_sosfilt_loop sos cs (scale_zi rmul zi x0)).
    apply map_ext. intros a. now rewrite length_rev, length_sps_sosfilt, length_rev.
Qed.

(** On a producer without samples the first [next] has nothing to
    return and the generator ends in [RuntimeError]. *)
Lemma sosfiltfilt_empty (pro : Producer R) (sos : list (sos_row R))
  (chunksize' : Z) :
  data pro = [] ->
  sosfiltfilt rzero radd rsub rmul sps_sosfilt_zi pro sos chunksize'
  = Raises RuntimeError.
Proof.
  intros Hdata. unfold sosfiltfilt, producer_next. now rewrite Hdata.
Qed.
End SOSFiltFiltFacts.

Lemma sosfiltfilt_per_chunk_witness :
  exists cs forward ys,
    iterate (mkProducer [3; 1; 4; 1; 5; 9; 2; 6] (-1) 3) = Ok cs
    /\ sosfilt 0 Z.add Z.sub Z.mul (mkProducer [3; 1; 4; 1; 5; 9; 2; 6] (-1) 3)
               [mkRow 1 2 1 1 (-1) 0] 3
               (Some (scale_zi Z.mul [(1, 0)] 3))
       = Ok forward
    /\ concat forward
       = fst (sps_sosfilt Z.add Z.sub Z.mul [mkRow 1 2 1 1 (-1) 0]
                [3; 1; 4; 1; 5; 9; 2; 6] (scale_zi Z.mul [(1, 0)] 3))
    /\ sosfiltfilt 0 Z.add Z.sub Z.mul (fun sos => map (fun _ => (1, 0)) sos)
                   (mkProducer [3; 1; 4; 1; 5; 9; 2; 6] (-1) 3)
                   [mkRow 1 2 1 1 (-1) 0] 3
       = Returns ys
    /\ ys = map (fun arr =>
                   rev (fst (sps_sosfilt Z.add Z.sub Z.mul [mkRow 1 2 1 1 (-1) 0]
                               (rev arr) (scale_zi Z.mul [(1, 0)] (last arr 3)))))
                forward
    /\ map (@length Z) ys = map (@length Z) cs.
Proof.
  apply (sosfiltfilt_per_chunk Z 0 Z.add Z.sub Z.mul
           (fun sos => map (fun _ => (1, 0)) sos)
           (mkProducer [3; 1; 4; 1; 5; 9; 2; 6] (-1) 3)
           [mkRow 1 2 1 1 (-1) 0] 3 3 [1; 4; 1; 5; 9; 2; 6]).
  - reflexivity.
  - reflexivity.
Defined.

(** ** Welch average *)

Lemma Qeq_bool_false_gt (x y : Q) : (y < x)%Q -> Qeq_bool x y = false.
Proof.
  intros Hlt. destruct (Qeq_bool x y) eqn:Heq; [| reflexivity].
  apply Qeq_bool_iff in Heq. rewrite Heq in Hlt. now apply Qlt_irrefl in Hlt.
Qed.

Section PSDFacts.
Context {A C : Type} {lib : SignalLib A C Q}.

End PSDFacts.


(** ** Segment times of the STFT *)

Lemma ceil_div_succ (x s : Z) : 1 <= s -> ceil_div (x + 1) s = x / s + 1.
Proof.
  intros Hs.
  pose proof (ceil_div_bounds (x + 1) s ltac:(lia)) as Hc.
  pose proof (Z.div_mod x s ltac:(lia)) as Hd.
  pose proof (Z.mod_pos_bound x s ltac:(lia)) as Hm.
  nia.
Qed.

Lemma zlen_np_arange (start stop step : Z) :
  1 <= step -> start <= stop ->
  zlen (np_arange start stop step) = ceil_div (stop - start) step.
Proof.
  intros Hs Hle. unfold np_arange, zlen. rewrite length_map, length_seq.
  pose proof (ceil_div_bounds (stop - start) step ltac:(lia)).
  assert (0 <= ceil_div (stop - start) step) by nia. lia.
Qed.

Section StftTimeFacts.
Context {A C P : Type} {lib : SignalLib A C P}.

(** Under a valid scaling the estimates of [stft] are as many as the
    complete windows over the padded signal. *)
Lemma stft_windows (pro : Producer A) (fs nfft : Z) (window : string)
  (overlap : Q) (detrend scaling : string) (boundary padded : bool) :
  scaling = "spectrum"%string \/ scaling = "density"%string ->
  0 < chunksize pro -> 1 <= nfft <= shape pro ->
  (0 <= overlap)%Q -> (overlap < 1)%Q ->
  exists d s ests,
    stft_data pro nfft overlap boundary padded = Ok d
    /\ shape pro <= shape d
    /\ stft pro fs nfft window overlap detrend scaling boundary padded = Ok s
    /\ sp_result s = SDone ests
    /\ zlen ests = (shape d - nfft) / stride_of nfft overlap + 1.
Proof.
  intros Hsc Hc Hn Hlo Hhi.
  pose proof (stride_of_range nfft overlap ltac:(lia) Hlo Hhi) as Hs.
  assert (Hd : exists d, stft_data pro nfft overlap boundary padded = Ok d
                         /\ shape pro <= shape d /\ chunksize d = chunksize pro).
  { unfold stft_data. replace (stride_of nfft overlap =? 0) with false by lia.
    destruct padded; eexists; (split; [reflexivity |]);
      destruct boundary; unfold pad_producer, shape, zlen; cbn [data chunksize];
      rewrite ?length_app, ?repeat_length; split; (reflexivity || lia). }
  destruct Hd as (d & Hd & Hshape & Hcd).
  exists d. unfold stft. rewrite Hd.
  unfold _spectra_estimatives.
  destruct (iterate_concat d ltac:(lia)) as (arrs & Hit & Hcat).
  set (func := fun x : list A => modified_dft x fs nfft window detrend scaling).
  set (est := fun x : list A =>
                match func x with Ok y => y | Err _ => ([], []) end).
  assert (Hok : forall x, zlen x = nfft -> func x = Ok (est x)).
  { intros x _. unfold est.
    destruct (modified_dft_total x fs nfft window detrend scaling ltac:(lia) Hsc)
      as [y Hy]. unfold func. now rewrite Hy. }
  destruct (estimate_loop_windows nfft (stride_of nfft overlap) func est Hs Hok
              arrs [] 0%nat) as (w & Hloop & Hcw).
  cbn [app] in Hloop, Hcw. rewrite Hcat in Hloop, Hcw.
  eexists. eexists. split; [reflexivity |]. split; [exact Hshape |].
  split; [reflexivity |]. cbn [sp_result]. rewrite Hit.
  split; [exact Hloop |].
  unfold zlen at 1. rewrite length_map, length_seq.
  apply complete_windows_count; [lia | unfold shape, zlen in *; lia | exact Hcw].
Qed.

End StftTimeFacts.


(** X25: with [boundary=True] and [padded=True] the last window of
    [stft] reaches the last input sample whenever [nfft] is even, or [N]
    is not a multiple of the stride, or the stride is at most
    [nfft // 2 + 1]; it ends before the last input sample exactly in the
    remaining case: [nfft] odd, [N] a multiple of the stride and the
    stride above [nfft // 2 + 1]. *)
Theorem stft_boundary_coverage {A C P : Type} {lib : SignalLib A C P}
  (pro : Producer A) (nfft : Z) (overlap : Q) :
  0 < chunksize pro -> 1 <= nfft -> 1 <= shape pro ->
  (0 <= overlap)%Q -> (overlap < 1)%Q ->
  let stride := stride_of nfft overlap in
  exists d w,
    stft_data pro nfft overlap true true = Ok d
    /\ data d = repeat zero_sample (Z.to_nat (nfft / 2)) ++ data pro
                ++ repeat zero_sample
                     (Z.to_nat (nfft / 2)
                      + Z.to_nat (if negb (shape pro mod stride =? 0)
                                  then stride else 0))
    /\ segments d nfft overlap
       = SDone (map (window_at nfft stride (data d)) (seq 0 w))
    /\ (1 <= w)%nat
    /\ (Z.even nfft = true \/ shape pro mod stride <> 0
        \/ stride <= nfft / 2 + 1 ->
        nfft / 2 + shape pro <= (Z.of_nat w - 1) * stride + nfft)
    /\ (Z.odd nfft = true -> shape pro mod stride = 0 ->
        nfft / 2 + 1 < stride ->
        (Z.of_nat w - 1) * stride + nfft < nfft / 2 + shape pro).
Proof.
  intros Hc Hn HN Hlo Hhi stride.
  pose proof (stride_of_range nfft overlap ltac:(lia) Hlo Hhi) as Hs.
  fold stride in Hs.
  unfold stft_data. fold stride.
  replace (stride =? 0) with false by lia.
  eexists.
  destruct (segments_windows
              (pad_producer (pad_producer pro (nfft / 2) (nfft / 2) zero_sample) 0
                 (if negb (shape pro mod stride =? 0) then stride else 0)
                 zero_sample)
              nfft overlap Hc ltac:(lia) Hlo Hhi) as (w & Hseg & Hlt & Hge).
  fold stride in Hseg, Hlt, Hge.
  exists w. split; [reflexivity |].
  split.
  { unfold pad_producer. cbn [data Z.to_nat repeat app].
    rewrite <- !app_assoc. do 2 f_equal. now rewrite repeat_app. }
  split; [exact Hseg |].
  unfold pad_producer in Hlt, Hge. cbn [data Z.to_nat repeat app] in Hlt, Hge.
  rewrite !length_app, !repeat_length in Hlt, Hge.
  unfold shape, zlen in *.
  set (N := length (data pro)) in *.
  pose proof (Z.div_pos nfft 2 ltac:(lia) ltac:(lia)) as Hh.
  set (h := nfft / 2) in *.
  set (amt := if negb (Z.of_nat N mod stride =? 0) then stride else 0) in *.
  assert (Hamt : amt = 0 \/ amt = stride) by (unfold amt; destruct (negb _); auto).
  assert (Hamt0 : Z.of_nat N mod stride = 0 -> amt = 0)
    by (intros E; unfold amt; now rewrite E).
  assert (Hamt1 : Z.of_nat N mod stride <> 0 -> amt = stride).
  { intros E. unfold amt. apply Z.eqb_neq in E. now rewrite E. }
  clearbody amt.
  assert (Hw : (1 <= w)%nat).
  { destruct w as [| w0]; [| lia]. cbn [Nat.mul Nat.add] in Hlt.
    pose proof (Z.div_mod nfft 2 ltac:(lia)) as Hd2.
    pose proof (Z.mod_pos_bound nfft 2 ltac:(lia)) as Hm2.
    fold h in Hd2. lia. }
  destruct Hge as [Hge | Hge]; [lia |].
  assert (HgeZ : (Z.of_nat w - 1) * stride + nfft <= 2 * h + Z.of_nat N + amt)
    by (destruct Hamt as [-> | ->]; nia).
  assert (HltZ : 2 * h + Z.of_nat N + amt < Z.of_nat w * stride + nfft)
    by (destruct Hamt as [-> | ->]; nia).
  clear Hlt Hge Hseg.
  pose proof (Z.div_mod nfft 2 ltac:(lia)) as Hd2.
  pose proof (Z.mod_pos_bound nfft 2 ltac:(lia)) as Hm2.
  fold h in Hd2.
  pose proof (Z.div_mod (Z.of_nat N) stride ltac:(lia)) as HdN.
  pose proof (Z.mod_pos_bound (Z.of_nat N) stride ltac:(lia)) as HmN.
  set (q := Z.of_nat N / stride) in *.
  set (W := Z.of_nat w) in *.
  split; [exact Hw |].
  destruct (Z.of_nat N mod stride =? 0) eqn:Hpad.
  - apply Z.eqb_eq in Hpad. rewrite (Hamt0 Hpad) in *. rewrite Hpad in *.
    split.
    + intros [Hev | [Hne | Hsmall]]; [| lia |].
      * rewrite Z.even_spec in Hev. destruct Hev as [m Hm].
        assert (Hnh : nfft = 2 * h) by (unfold h; rewrite Hm, (Z.mul_comm 2 m), Z.div_mul; lia).
        (* W * stride > N + 2h - nfft = N = q * stride, so W > q, (W-1) >= q *)
        assert (q < W) by nia.
        assert (q * stride <= (W - 1) * stride) by (apply Z.mul_le_mono_nonneg_r; lia).
        lia.
      * assert (Hq : q - 1 < W) by nia.
        assert (q * stride <= W * stride) by (apply Z.mul_le_mono_nonneg_r; lia).
        lia.
    + intros Hodd _ Hbig.
      rewrite Z.odd_spec in Hodd. destruct Hodd as [m Hm].
      assert (Hnh : nfft = 2 * h + 1).
      { unfold h. rewrite Hm. replace (2 * m + 1) with (1 + m * 2) by ring.
        rewrite Z.div_add by lia. change (1 / 2) with 0. lia. }
      (* (W-1) stride <= N - 1 = q stride - 1, so W - 1 <= q - 1 *)
      assert (W - 1 < q) by nia.
      assert ((W - 1) * stride <= (q - 1) * stride) by (apply Z.mul_le_mono_nonneg_r; lia).
      lia.
  - apply Z.eqb_neq in Hpad.
    rewrite (Hamt1 Hpad) in *.
    split; [intros _; lia | intros _ Hz; lia].
Qed.

Lemma stft_boundary_coverage_witness :
  exists d w,
    @stft_data Z Z Z eval_lib (mkProducer (ramp 14) (-1) 5) 7 (0 # 1)%Q true true
    = Ok d
    /\ data d = repeat 0 (Z.to_nat (7 / 2)) ++ ramp 14
                ++ repeat 0 (Z.to_nat (7 / 2) + Z.to_nat 0)
    /\ segments d 7 (0 # 1)%Q
       = SDone (map (window_at 7 7 (data d)) (seq 0 w))
    /\ (1 <= w)%nat
    /\ (Z.even 7 = true \/ 14 mod 7 <> 0 \/ 7 <= 7 / 2 + 1 ->
        7 / 2 + 14 <= (Z.of_nat w - 1) * 7 + 7)
    /\ (Z.odd 7 = true -> 14 mod 7 = 0 -> 7 / 2 + 1 < 7 ->
        (Z.of_nat w - 1) * 7 + 7 < 7 / 2 + 14).
Proof.
  apply (@stft_boundary_coverage Z Z Z eval_lib (mkProducer (ramp 14) (-1) 5)
           7 (0 # 1)%Q).
  - reflexivity.
  - lia.
  - vm_compute. discriminate.
  - vm_compute. discriminate.
  - reflexivity.
Defined.

(* ================================================================= *)
(** * File reading *)

(** ** EDF reader *)

Lemma length_concat_uniform {A : Type} (s : nat) (recs : list (list A)) :
  Forall (fun r => length r = s) recs ->
  length (concat recs) = (length recs * s)%nat.
Proof.
  induction 1 as [| r rest Hr _ IH]; [reflexivity |].
  cbn [concat length Nat.mul]. rewrite length_app, IH, Hr. reflexivity.
Qed.

Lemma concat_records {A : Type} (s : nat) (recs : list (list A)) :
  Forall (fun r => length r = s) recs ->
  forall a n,
    concat (firstn n (skipn a recs))
    = firstn (n * s) (skipn (a * s) (concat recs)).
Proof.
  induction 1 as [| r rest Hr _ IH]; intros a n.
  - rewrite skipn_nil, firstn_nil. cbn [concat]. now rewrite skipn_nil, firstn_nil.
  - destruct a as [| a].
    + cbn [skipn Nat.mul]. destruct n as [| n]; [reflexivity |].
      cbn [firstn concat Nat.mul].
      replace (s + n * s)%nat with (length r + n * s)%nat by (now rewrite Hr).
      rewrite firstn_app_2. f_equal.
      specialize (IH 0%nat n). cbn [skipn Nat.mul] in IH. exact IH.
    + cbn [skipn concat]. rewrite IH.
      rewrite skipn_app, Hr.
      rewrite (skipn_all2 r) by (rewrite Hr; cbn [Nat.mul]; lia).
      cbn [app]. f_equal. f_equal. cbn [Nat.mul]. lia.
Qed.

(** X23: for a channel with [spr >= 1] samples in each data record, the
    samples [_read_array] collects for [0 <= start <= stop], with
    [start] not past the end, are the slice [start:stop] of the
    channel's whole signal: the record arithmetic neither drops nor
    repeats a sample, and a [stop] past the end is cut at the end. *)
Theorem read_channel_is_slice (recs : list (list Z)) (spr start stop : Z) :
  1 <= spr -> Forall (fun r => length r = Z.to_nat spr) recs ->
  0 <= start <= stop -> start <= zlen (concat recs) ->
  read_channel recs spr start stop
  = Some (py_slice (Some start) (Some stop) (concat recs)).
Proof.
  intros Hspr Hall Hss Hend.
  pose proof (length_concat_uniform _ recs Hall) as HN.
  unfold zlen in Hend.
  unfold read_channel, find_records, channel_records. cbn [fst snd].
  unfold zlen.
  rewrite (concat_records _ recs Hall).
  set (sig := concat recs) in *.
  set (ar := start / spr).
  set (br := Z.min (ceil_div stop spr) (Z.of_nat (length recs))).
  (* the record bounds, in samples *)
  assert (HNZ : Z.of_nat (length sig) = Z.of_nat (length recs) * spr)
    by (rewrite HN; rewrite Nat2Z.inj_mul; f_equal; lia).
  assert (Har : 0 <= ar) by (apply Z.div_pos; lia).
  assert (Hpa : 0 <= ar * spr <= start /\ start < ar * spr + spr).
  { pose proof (Z.div_mod start spr ltac:(lia)) as Hdm.
    pose proof (Z.mod_pos_bound start spr ltac:(lia)) as Hmb.
    fold ar in Hdm. rewrite (Z.mul_comm ar spr).
    assert (0 <= spr * ar) by (apply Z.mul_nonneg_nonneg; lia). lia. }
  assert (HarR : ar <= Z.of_nat (length recs)).
  { apply Z.div_le_upper_bound; [lia |]. rewrite Z.mul_comm, <- HNZ. lia. }
  pose proof (ceil_div_bounds stop spr ltac:(lia)) as Hcd.
  assert (Harc : ar <= ceil_div stop spr).
  { destruct (Z_le_gt_dec ar (ceil_div stop spr)) as [Hle | Hgt]; [exact Hle |].
    assert ((ceil_div stop spr + 1) * spr <= ar * spr)
      by (apply Z.mul_le_mono_nonneg_r; lia).
    lia. }
  assert (Hbr : ar <= br <= Z.of_nat (length recs)) by (unfold br; lia).
  assert (Hpb : ar * spr <= br * spr <= Z.of_nat (length sig)).
  { rewrite HNZ. split; apply Z.mul_le_mono_nonneg_r; lia. }
  assert (Hin : stop <= Z.of_nat (length sig) -> stop <= br * spr).
  { intros Hs. unfold br. rewrite Z.min_l; [lia |].
    destruct (Z_le_gt_dec (ceil_div stop spr) (Z.of_nat (length recs)))
      as [Hle | Hgt]; [exact Hle |].
    assert ((Z.of_nat (length recs) + 1) * spr <= ceil_div stop spr * spr)
      by (apply Z.mul_le_mono_nonneg_r; lia).
    lia. }
  assert (Hout : Z.of_nat (length sig) < stop -> br * spr = Z.of_nat (length sig)).
  { intros Hs. unfold br. rewrite Z.min_r; [lia |].
    destruct (Z_le_gt_dec (Z.of_nat (length recs)) (ceil_div stop spr))
      as [Hle | Hgt]; [exact Hle |].
    assert (ceil_div stop spr * spr <= (Z.of_nat (length recs) - 1) * spr)
      by (apply Z.mul_le_mono_nonneg_r; lia).
    lia. }
  assert (Hstep : ar < br -> ar * spr + spr <= br * spr).
  { intros Hlt. replace (ar * spr + spr) with ((ar + 1) * spr) by ring.
    apply Z.mul_le_mono_nonneg_r; lia. }
  assert (Hsame : ar = br -> ar * spr = br * spr) by (intros ->; reflexivity).
  replace (ar <? 0) with false by lia.
  replace (br - ar <? 0) with false by lia.
  cbn [orb]. f_equal.
  rewrite <- !Z2Nat.inj_mul by lia.
  replace ((br - ar) * spr) with (br * spr - ar * spr) by ring.
  assert (Hcmp : ar < br \/ ar = br) by lia.
  generalize dependent (br * spr). generalize dependent (ar * spr).
  clear HN HNZ Hcd Harc Hbr HarR Hall.
  intros pa Hpa pb Hpb Hin Hout Hstep Hsame.
  set (a := start - pa).
  unfold py_slice, slice_index.
  replace (a <? 0) with false by lia.
  replace (a + (stop - start) <? 0) with false by lia.
  replace (start <? 0) with false by lia.
  replace (stop <? 0) with false by lia.
  rewrite length_firstn, length_skipn.
  rewrite (Nat.min_l (Z.to_nat (pb - pa))) by lia.
  rewrite Z2Nat.id by lia.
  rewrite (Z.min_r _ start), (Z.max_r 0 start) by lia.
  destruct Hcmp as [Hlt | Heq].
  - specialize (Hstep Hlt).
    rewrite skipn_firstn_comm, skipn_skipn, firstn_firstn.
    rewrite (Z.min_r (pb - pa) a), (Z.max_r 0 a) by lia.
    replace (Z.to_nat a + Z.to_nat pa)%nat with (Z.to_nat start) by lia.
    f_equal.
    destruct (Z_le_gt_dec stop (Z.of_nat (length sig))) as [Hs | Hs].
    + specialize (Hin Hs). rewrite (Z.min_r _ (a + (stop - start))) by lia.
      rewrite (Z.min_r _ stop) by lia. lia.
    + specialize (Hout ltac:(lia)).
      rewrite (Z.min_l _ (a + (stop - start))) by lia.
      rewrite (Z.min_l _ stop) by lia. lia.
  - specialize (Hsame Heq).
    replace (pb - pa) with 0 by lia.
    cbn [Z.to_nat firstn]. rewrite skipn_nil, firstn_nil.
    symmetry.
    destruct (Z_le_gt_dec stop (Z.of_nat (length sig))) as [Hs | Hs].
    + specialize (Hin Hs). rewrite (Z.min_r _ stop) by lia.
      replace (Z.to_nat (Z.max 0 stop - start)) with 0%nat by lia.
      reflexivity.
    + specialize (Hout ltac:(lia)). rewrite (Z.min_l _ stop) by lia.
      replace (Z.to_nat (Z.max 0 (Z.of_nat (length sig)) - start)) with 0%nat
        by lia.
      reflexivity.
Qed.

Lemma read_channel_is_slice_witness :
  read_channel [[1; 2; 3]; [4; 5; 6]; [7; 8; 9]; [10; 11; 12]] 3 4 8
  = Some (py_slice (Some 4) (Some 8)
                   (concat [[1; 2; 3]; [4; 5; 6]; [7; 8; 9]; [10; 11; 12]])).
Proof.
  apply (read_channel_is_slice [[1; 2; 3]; [4; 5; 6]; [7; 8; 9]; [10; 11; 12]] 3 4 8).
  - lia.
  - repeat constructor.
  - lia.
  - vm_compute. discriminate.
Defined.

Lemma combine_shifted {B : Type} (f : nat -> B) :
  forall (n p : nat),
    combine (map f (seq p (S n))) (map f (seq (S p) n))
    = map (fun k => (f k, f (S k))) (seq p n).
Proof.
  induction n as [| n IH]; intros p.
  - reflexivity.
  - cbn [seq map combine]. f_equal. exact (IH (S p)).
Qed.

(** X24: for a chunksize of at least one and a start before the end,
    the spans [_read_gen] reads tile the samples from [start] on in
    steps of [chunksize], but stop short of the end: at least one and at
    most [chunksize] final samples are in no span, and nothing at all is
    read when no more than [chunksize] samples remain. *)
Theorem read_gen_misses_tail (start max_samples chunksize : Z) :
  1 <= chunksize -> start < max_samples ->
  exists n : nat,
    read_gen_spans start max_samples chunksize
    = Ok (map (fun k => (start + Z.of_nat k * chunksize,
                         start + Z.of_nat (S k) * chunksize))
              (seq 0 n))
    /\ start + Z.of_nat n * chunksize < max_samples
       <= start + Z.of_nat (S n) * chunksize
    /\ (max_samples - start <= chunksize -> n = 0%nat).
Proof.
  intros Hc Hlt.
  pose proof (ceil_div_bounds (max_samples - start) chunksize ltac:(lia)) as Hb.
  set (m := ceil_div (max_samples - start) chunksize) in *.
  assert (Hm : 1 <= m) by nia.
  exists (Z.to_nat m - 1)%nat.
  unfold read_gen_spans, np_arange. fold m.
  replace (chunksize =? 0) with false by lia.
  replace (Z.to_nat m) with (S (Z.to_nat m - 1)) at 1 2 by lia.
  split; [| split].
  - f_equal.
    change (tl (map (fun k => start + Z.of_nat k * chunksize)
                    (seq 0 (S (Z.to_nat m - 1)))))
      with (map (fun k => start + Z.of_nat k * chunksize)
                (seq 1 (Z.to_nat m - 1))).
    apply (combine_shifted (fun k => start + Z.of_nat k * chunksize)).
  - nia.
  - intros Hshort. assert (m = 1) by nia. lia.
Qed.

Lemma read_gen_misses_tail_witness :
  exists n : nat,
    read_gen_spans 0 10 4
    = Ok (map (fun k => (0 + Z.of_nat k * 4, 0 + Z.of_nat (S k) * 4)) (seq 0 n))
    /\ 0 + Z.of_nat n * 4 < 10 <= 0 + Z.of_nat (S n) * 4
    /\ (10 - 0 <= 4 -> n = 0%nat).
Proof.
  apply (read_gen_misses_tail 0 10 4); lia.
Defined.
